(** * kamal-proxy: the spill-over buffer and the rollout controller

    A shallow embedding of [internal/server/buffer.go] and
    [internal/server/rollout_controller.go], with the properties of the
    two components stated and proved over it.

    Conventions.
    - Go's [int64], [int] and [uint32] values are integers of [Z]; the
      wrap-around of every arithmetic operation is written out
      ([wrap64], [wrap32]).
    - Go's [float64] is IEEE 754 binary64, taken from the Standard
      Library's executable specification ([SpecFloat], precision 53,
      maximal exponent 1024).
    - Go strings are byte strings: [string] for identifiers, [list byte]
      for the payload of the buffer; a slice is its contents.
    - The file system is explicit: every [Write] is given the behaviour
      of the operating system during the call, and the temporary files
      created and removed are reported as events.
    - Concurrent calls on one controller are goroutines whose steps a
      schedule interleaves; a step makes at most one access to the
      controller. *)

From Stdlib Require Import ZArith List String Ascii Bool Lia.
From Stdlib.Strings Require Import Byte.
From Stdlib Require Import SpecFloat.
Import ListNotations.

Local Open Scope Z_scope.

(** ** Machine integers *)

Definition wrap32 (z : Z) : Z := z mod 2 ^ 32.

Definition wrap64 (z : Z) : Z := (z + 2 ^ 63) mod 2 ^ 64 - 2 ^ 63.

Definition int64_range (z : Z) : Prop := - 2 ^ 63 <= z < 2 ^ 63.

Definition uint32_range (z : Z) : Prop := 0 <= z < 2 ^ 32.

(** ** binary64 floating point *)

Module F64.

Definition prec : Z := 53.
Definition emax : Z := 1024.

Definition float64 : Type := spec_float.

(** Conversion of an integer, as Go's [float64(n)]: round to nearest,
    ties to even. *)
Definition of_int (n : Z) : float64 := binary_normalize prec emax n 0 false.

Definition mul (x y : float64) : float64 := SFmul prec emax x y.
Definition div (x y : float64) : float64 := SFdiv prec emax x y.
Definition leb (x y : float64) : bool := SFleb x y.

Definition zero : float64 := S754_zero false.

End F64.

(** ** The rollout controller ([rollout_controller.go]) *)

Module Rollout.

Local Open Scope string_scope.

Definition RolloutCookieName : string := "kamal-rollout".

Record RolloutController : Type := {
  Percentage : Z;
  PercentageSplitPoint : F64.float64;
  Allowlist : list string
}.

(** What the controller sees of an [http.Request]: the cookies that
    [net/http] parsed from the request's Cookie headers, in header
    order, next to fields the controller never reads. *)
Record Cookie : Type := { Name : string; Value : string }.

Record Request : Type := {
  Method : string;
  URL : string;
  Cookies : list Cookie
}.

Inductive http_error : Type := ErrNoCookie.

(** The request's method [Cookie]: the first cookie of that name. *)
Definition Request_Cookie (r : Request) (name : string)
  : Cookie + http_error :=
  if String.eqb name EmptyString then inr ErrNoCookie
  else match find (fun c => String.eqb (Name c) name) (Cookies r) with
       | Some c => inl c
       | None => inr ErrNoCookie
       end.

Definition NewRolloutController (percentage : Z) (allowlist : list string)
  : RolloutController :=
  let maxHashValue := F64.of_int (wrap32 0xFFFFFFFF) in
  let percentageSplitPoint :=
    F64.mul maxHashValue (F64.div (F64.of_int percentage) (F64.of_int 100)) in
  {| Percentage := percentage;
     PercentageSplitPoint := percentageSplitPoint;
     Allowlist := allowlist |}.

(** [hash/fnv]'s 32-bit FNV-1a. *)
Definition offset32 : Z := 2166136261.
Definition prime32 : Z := 16777619.

Definition fnv32a_byte (hash : Z) (c : ascii) : Z :=
  wrap32 (Z.lxor hash (Z.of_N (N_of_ascii c)) * prime32).

Definition fnv32a_Write (hash : Z) (p : list ascii) : Z :=
  fold_left fnv32a_byte p hash.

Definition hashForValue (value : string) : Z :=
  fnv32a_Write offset32 (list_ascii_of_string value).

Definition valueInAllowlist (rc : RolloutController) (value : string) : bool :=
  existsb (String.eqb value) (Allowlist rc).

Definition valueInRolloutPercentage (rc : RolloutController) (value : string)
  : bool :=
  let hash := hashForValue value in
  F64.leb (F64.of_int hash) (PercentageSplitPoint rc).

Definition splitValue (r : Request) : string :=
  match Request_Cookie r RolloutCookieName with
  | inr _ => EmptyString
  | inl cookie => Value cookie
  end.

Definition RequestUsesRolloutGroup (rc : RolloutController) (r : Request)
  : bool :=
  let splitValue := splitValue r in
  if String.eqb splitValue EmptyString then false
  else if valueInAllowlist rc splitValue then true
  else valueInRolloutPercentage rc splitValue.

(** A request whose only cookie is the rollout cookie. *)
Definition request_with (identifier : string) : Request :=
  {| Method := "GET"; URL := "/";
     Cookies := [ {| Name := RolloutCookieName; Value := identifier |} ] |}.

End Rollout.

(** ** The spill-over buffer ([buffer.go]) *)

Module Buf.

Local Open Scope bool_scope.

Inductive error : Type :=
| ErrMaximumSizeExceeded
| ErrWriteAfterRead
| EOF                     (* io.EOF *)
| ErrClosed               (* os.ErrClosed: the file is already closed *)
| ErrInvalid              (* os.ErrInvalid: a method of a nil file *)
| ErrOS (errno : nat).    (* any other error of the operating system *)

(** *** The operating system

    How the operating system serves the system calls of one [Write]:
    [os.CreateTemp] succeeds or fails with an error number, and a
    write to the file either takes all the bytes or stops after [k]
    of them with an error number. *)
Record OS : Type := {
  createTemp_fault : option nat;
  write_fault : option (nat * nat)
}.

Definition os_ok : OS := {| createTemp_fault := None; write_fault := None |}.

(** What the buffer does to the file system. *)
Inductive Event : Type := CreateTemp | Remove.

Definition Event_eqb (x y : Event) : bool :=
  match x, y with
  | CreateTemp, CreateTemp => true
  | Remove, Remove => true
  | _, _ => false
  end.

(** An [os.File]: the bytes of the file, the offset of the descriptor,
    and whether the descriptor is closed.  A write goes to the offset;
    a read takes what is asked for or what is left, and is taken to
    succeed on an open file. *)
Record File : Type := {
  data : list byte;
  offset : nat;
  closed : bool
}.

Definition File_Write (os : OS) (p : list byte) (f : File)
  : File * Z * option error :=
  if closed f then (f, 0, Some ErrClosed)
  else
    let accepted :=
      match write_fault os with
      | Some (k, _) => firstn k p
      | None => p
      end in
    let err :=
      match write_fault os with
      | Some (k, errno) =>
          if (k <? List.length p)%nat then Some (ErrOS errno) else None
      | None => None
      end in
    ({| data := firstn (offset f) (data f) ++ accepted
                ++ skipn (offset f + List.length accepted) (data f);
        offset := offset f + List.length accepted;
        closed := false |},
     Z.of_nat (List.length accepted), err).

Definition File_Read (n : nat) (f : File) : File * list byte * option error :=
  if closed f then (f, [], Some ErrClosed)
  else if (n =? 0)%nat then (f, [], None)
  else match skipn (offset f) (data f) with
       | [] => (f, [], Some EOF)
       | rest =>
           let got := firstn n rest in
           ({| data := data f; offset := offset f + List.length got;
               closed := false |}, got, None)
       end.

Definition File_Seek_start (f : File) : File :=
  if closed f then f
  else {| data := data f; offset := 0; closed := false |}.

Definition File_Close (f : File) : File :=
  {| data := data f; offset := offset f; closed := true |}.

(** [bytes.Buffer], by its unread contents: [Write] appends (and
    never fails), [Read] takes from the front. *)
Definition bytes_Buffer_Read (n : nat) (unread : list byte)
  : list byte * list byte * option error :=
  match unread with
  | [] => ([], [], if (n =? 0)%nat then None else Some EOF)
  | _ => (skipn n unread, firstn n unread, None)
  end.

(** The composed reader: the memory buffer itself, or an
    [io.MultiReader] over the readers that remain. *)
Inductive source : Type := Memory | Disk.

Inductive Reader : Type :=
| MemoryReader
| MultiReader (readers : list source).

Record Buffer : Type := {
  maxBytes : Z;
  maxMemBytes : Z;
  memoryBuffer : list byte;
  memBytesWritten : Z;
  diskBuffer : option File;
  diskBytesWritten : Z;
  overflowed : bool;
  reader : option Reader;
  closeOnce : bool
}.

Definition NewBufferedWriteCloser (maxBytes maxMemBytes : Z) : Buffer :=
  {| maxBytes := maxBytes;
     maxMemBytes := maxMemBytes;
     memoryBuffer := [];
     memBytesWritten := 0;
     diskBuffer := None;
     diskBytesWritten := 0;
     overflowed := false;
     reader := None;
     closeOnce := false |}.

(** Field updates. *)
Definition set_memory (b : Buffer) (mem : list byte) (written : Z) : Buffer :=
  {| maxBytes := maxBytes b; maxMemBytes := maxMemBytes b;
     memoryBuffer := mem; memBytesWritten := written;
     diskBuffer := diskBuffer b; diskBytesWritten := diskBytesWritten b;
     overflowed := overflowed b; reader := reader b;
     closeOnce := closeOnce b |}.

Definition set_disk (b : Buffer) (f : option File) (written : Z) : Buffer :=
  {| maxBytes := maxBytes b; maxMemBytes := maxMemBytes b;
     memoryBuffer := memoryBuffer b; memBytesWritten := memBytesWritten b;
     diskBuffer := f; diskBytesWritten := written;
     overflowed := overflowed b; reader := reader b;
     closeOnce := closeOnce b |}.

Definition set_overflowed (b : Buffer) : Buffer :=
  {| maxBytes := maxBytes b; maxMemBytes := maxMemBytes b;
     memoryBuffer := memoryBuffer b; memBytesWritten := memBytesWritten b;
     diskBuffer := diskBuffer b; diskBytesWritten := diskBytesWritten b;
     overflowed := true; reader := reader b;
     closeOnce := closeOnce b |}.

Definition set_reader (b : Buffer) (r : Reader) : Buffer :=
  {| maxBytes := maxBytes b; maxMemBytes := maxMemBytes b;
     memoryBuffer := memoryBuffer b; memBytesWritten := memBytesWritten b;
     diskBuffer := diskBuffer b; diskBytesWritten := diskBytesWritten b;
     overflowed := overflowed b; reader := Some r;
     closeOnce := closeOnce b |}.

Definition set_closeOnce (b : Buffer) : Buffer :=
  {| maxBytes := maxBytes b; maxMemBytes := maxMemBytes b;
     memoryBuffer := memoryBuffer b; memBytesWritten := memBytesWritten b;
     diskBuffer := diskBuffer b; diskBytesWritten := diskBytesWritten b;
     overflowed := overflowed b; reader := reader b;
     closeOnce := true |}.

(** *** Writing *)

Inductive outcome : Type :=
| Returns (n : Z) (err : option error)
| Panics.   (* a run-time panic: slice bounds out of range *)

Definition writeToMemory (p : list byte) (b : Buffer)
  : Buffer * Z * option error :=
  let n := Z.of_nat (List.length p) in
  (set_memory b (memoryBuffer b ++ p) (wrap64 (memBytesWritten b + n)),
   n, None).

Definition writeToDisk (os : OS) (p : list byte) (b : Buffer)
  : Buffer * Z * option error :=
  match diskBuffer b with
  | None => (b, 0, Some ErrInvalid)
  | Some f =>
      let '(f', n, err) := File_Write os p f in
      (set_disk b (Some f') (wrap64 (diskBytesWritten b + n)), n, err)
  end.

Definition createSpill (os : OS) (b : Buffer)
  : Buffer * option error * list Event :=
  match createTemp_fault os with
  | Some errno => (b, Some (ErrOS errno), [])
  | None =>
      (set_disk b (Some {| data := []; offset := 0; closed := false |})
         (diskBytesWritten b),
       None, [CreateTemp])
  end.

(** [p[:k]] and [p[k:]] panic unless [0 <= k <= len(p)] (a slice is
    modelled by its contents, its capacity being its length). *)
Definition slice_in_bounds (k : Z) (p : list byte) : bool :=
  (0 <=? k) && (k <=? Z.of_nat (List.length p)).

Definition Write (os : OS) (p : list byte) (b : Buffer)
  : Buffer * outcome * list Event :=
  match reader b with
  | Some _ => (b, Returns 0 (Some ErrWriteAfterRead), [])
  | None =>
      let length := Z.of_nat (List.length p) in
      let totalWritten := wrap64 (memBytesWritten b + diskBytesWritten b) in
      if (maxBytes b >? 0) && (wrap64 (totalWritten + length) >? maxBytes b)
      then (set_overflowed b, Returns 0 (Some ErrMaximumSizeExceeded), [])
      else
        match diskBuffer b with
        | Some _ =>
            let '(b1, n, err) := writeToDisk os p b in
            (b1, Returns n err, [])
        | None =>
            if wrap64 (memBytesWritten b + length) <=? maxMemBytes b
            then
              let '(b1, n, err) := writeToMemory p b in
              (b1, Returns n err, [])
            else
              let '(b1, err, ev) := createSpill os b in
              match err with
              | Some e => (b1, Returns 0 (Some e), ev)
              | None =>
                  let k := wrap64 (maxMemBytes b1 - memBytesWritten b1) in
                  if negb (slice_in_bounds k p) then (b1, Panics, ev)
                  else
                    let '(b2, memWritten, err) :=
                      writeToMemory (firstn (Z.to_nat k) p) b1 in
                    match err with
                    | Some e => (b2, Returns memWritten (Some e), ev)
                    | None =>
                        let '(b3, diskWritten, err) :=
                          writeToDisk os (skipn (Z.to_nat memWritten) p) b2 in
                        (b3, Returns (wrap64 (memWritten + diskWritten)) err,
                         ev)
                    end
              end
        end
  end.

Definition Overflowed (b : Buffer) : bool := overflowed b.

(** *** Reading *)

Definition setReader (b : Buffer) : Buffer :=
  match reader b with
  | Some _ => b
  | None =>
      match diskBuffer b with
      | Some f =>
          set_reader
            (set_disk b (Some (File_Seek_start f)) (diskBytesWritten b))
            (MultiReader [Memory; Disk])
      | None => set_reader b MemoryReader
      end
  end.

Definition is_EOF (err : option error) : bool :=
  match err with
  | Some EOF => true
  | _ => false
  end.

Definition source_Read (n : nat) (s : source) (b : Buffer)
  : Buffer * list byte * option error :=
  match s with
  | Memory =>
      let '(unread, got, err) := bytes_Buffer_Read n (memoryBuffer b) in
      (set_memory b unread (memBytesWritten b), got, err)
  | Disk =>
      match diskBuffer b with
      | None => (b, [], Some ErrInvalid)
      | Some f =>
          let '(f', got, err) := File_Read n f in
          (set_disk b (Some f') (diskBytesWritten b), got, err)
      end
  end.

(** The loop of [io.MultiReader]'s [Read]: a reader at its end is
    dropped and the next one is tried; [io.EOF] is reported only by
    the last one. *)
Fixpoint MultiReader_Read (n : nat) (readers : list source) (b : Buffer)
  : Buffer * list source * list byte * option error :=
  match readers with
  | [] => (b, [], [], Some EOF)
  | r :: rest =>
      let '(b1, got, err) := source_Read n r b in
      let readers' := if is_EOF err then rest else readers in
      if (0 <? List.length got)%nat || negb (is_EOF err)
      then
        let err' :=
          if is_EOF err && (0 <? List.length readers')%nat then None
          else err in
        (b1, readers', got, err')
      else MultiReader_Read n rest b1
  end.

(** [b.reader.Read(p)] with [n = len(p)].  The reader is never nil
    here, [setReader] has run (lemma [setReader_set]). *)
Definition reader_Read (n : nat) (b : Buffer)
  : Buffer * list byte * option error :=
  match reader b with
  | None => (b, [], Some ErrInvalid)
  | Some MemoryReader => source_Read n Memory b
  | Some (MultiReader readers) =>
      let '(b1, readers', got, err) := MultiReader_Read n readers b in
      (set_reader b1 (MultiReader readers'), got, err)
  end.

Definition Read (n : nat) (b : Buffer) : Buffer * list byte * option error :=
  reader_Read n (setReader b).

(** A full read through [Read]: one call per requested size, until
    [io.EOF] (a full read, no error) or an error.  [None]: the sizes
    ran out first. *)
Fixpoint ReadAll (sizes : list nat) (b : Buffer)
  : option (Buffer * list byte * option error) :=
  match sizes with
  | [] => None
  | n :: sizes' =>
      let '(b1, got, err) := Read n b in
      match err with
      | Some EOF => Some (b1, got, None)
      | Some e => Some (b1, got, Some e)
      | None =>
          match ReadAll sizes' b1 with
          | Some (b2, rest, err') => Some (b2, got ++ rest, err')
          | None => None
          end
      end
  end.

(** [io.Copy(w, b.reader)] goes through the reader's [WriteTo]: each
    source hands all it has left to the sink [w], which is taken to
    accept everything; the second component is what [w] receives. *)
Definition source_WriteTo (s : source) (b : Buffer)
  : Buffer * list byte * option error :=
  match s with
  | Memory => (set_memory b [] (memBytesWritten b), memoryBuffer b, None)
  | Disk =>
      match diskBuffer b with
      | None => (b, [], Some ErrInvalid)
      | Some f =>
          if closed f then (b, [], Some ErrClosed)
          else
            let got := skipn (offset f) (data f) in
            (set_disk b
               (Some {| data := data f;
                        offset := offset f + List.length got;
                        closed := false |})
               (diskBytesWritten b),
             got, None)
      end
  end.

Fixpoint MultiReader_WriteTo (readers : list source) (b : Buffer)
  : Buffer * list source * list byte * option error :=
  match readers with
  | [] => (b, [], [], None)
  | r :: rest =>
      let '(b1, got, err) := source_WriteTo r b in
      match err with
      | Some e => (b1, readers, got, Some e)
      | None =>
          let '(b2, readers', got', err') := MultiReader_WriteTo rest b1 in
          (b2, readers', got ++ got', err')
      end
  end.

Definition Send (b : Buffer) : Buffer * list byte * option error :=
  let b := setReader b in
  match reader b with
  | None => (b, [], Some ErrInvalid)
  | Some MemoryReader => source_WriteTo Memory b
  | Some (MultiReader readers) =>
      let '(b1, readers', got, err) := MultiReader_WriteTo readers b in
      (set_reader b1 (MultiReader readers'), got, err)
  end.

(** *** Closing *)

Definition discardSpill (b : Buffer) : Buffer * list Event :=
  match diskBuffer b with
  | Some f =>
      (set_disk b (Some (File_Close f)) (diskBytesWritten b), [Remove])
  | None => (b, [])
  end.

Definition Close (b : Buffer) : Buffer * option error * list Event :=
  if closeOnce b then (b, None, [])
  else
    let '(b1, ev) := discardSpill b in
    (set_closeOnce b1, None, ev).

(** *** Histories of calls *)

Inductive Call : Type :=
| CallWrite (os : OS) (p : list byte)
| CallRead (n : nat)
| CallSend
| CallClose.

Definition step (c : Call) (b : Buffer) : Buffer :=
  match c with
  | CallWrite os p => fst (fst (Write os p b))
  | CallRead n => fst (fst (Read n b))
  | CallSend => fst (fst (Send b))
  | CallClose => fst (fst (Close b))
  end.

Definition run (cs : list Call) (b : Buffer) : Buffer :=
  fold_left (fun b c => step c b) cs b.

Definition is_read (c : Call) : bool :=
  match c with
  | CallRead _ | CallSend => true
  | _ => false
  end.

(** A sequence of [Write] calls, each with the behaviour of the
    operating system during it: the final buffer, the outcome of
    every call and the events on the file system. *)
Fixpoint WriteAll (calls : list (OS * list byte)) (b : Buffer)
  : Buffer * list outcome * list Event :=
  match calls with
  | [] => (b, [], [])
  | (os, p) :: rest =>
      let '(b1, r, ev) := Write os p b in
      let '(b2, rs, evs) := WriteAll rest b1 in
      (b2, r :: rs, ev ++ evs)
  end.

(** The same sequence on a working operating system. *)
Definition writes (ps : list (list byte)) : list (OS * list byte) :=
  map (fun p => (os_ok, p)) ps.

(** The bytes of [p] that a call took. *)
Definition accepted (p : list byte) (r : outcome) : list byte :=
  match r with
  | Returns n _ => firstn (Z.to_nat n) p
  | Panics => []
  end.

Fixpoint all_accepted (ps : list (list byte)) (rs : list outcome)
  : list byte :=
  match ps, rs with
  | p :: ps', r :: rs' => accepted p r ++ all_accepted ps' rs'
  | _, _ => []
  end.

(** The outcome of a call that takes all of [p]. *)
Definition taken (p : list byte) : outcome :=
  Returns (Z.of_nat (List.length p)) None.

Definition total (ps : list (list byte)) : Z :=
  Z.of_nat (List.length (List.concat ps)).

Definition spills (evs : list Event) : nat :=
  List.length (filter (Event_eqb CreateTemp) evs).

Definition has_disk (b : Buffer) : bool :=
  match diskBuffer b with
  | Some _ => true
  | None => false
  end.

Definition disk_data (b : Buffer) : list byte :=
  match diskBuffer b with
  | Some f => data f
  | None => []
  end.

End Buf.


(** ** Invariants of the write phase *)

Import Buf.

(** The state of a buffer that has taken the bytes [dat] and has not
    been read yet. *)
Record WInv (b : Buffer) (dat : list byte) : Prop := {
  inv_reader : reader b = None;
  inv_data : memoryBuffer b ++ disk_data b = dat;
  inv_mem : memBytesWritten b = Z.of_nat (List.length (memoryBuffer b));
  inv_disk : diskBytesWritten b = Z.of_nat (List.length (disk_data b));
  inv_mem_le : memBytesWritten b <= maxMemBytes b;
  inv_file : forall f, diskBuffer b = Some f ->
             offset f = List.length (data f) /\ closed f = false /\
             memBytesWritten b = maxMemBytes b;
  inv_ceiling : 0 < maxBytes b -> Z.of_nat (List.length dat) <= maxBytes b
}.

(** The configuration is of type [int64]. *)
Definition config_ok (b : Buffer) : Prop :=
  int64_range (maxBytes b) /\ int64_range (maxMemBytes b).

(** A spill file holds at least one byte. *)
Definition spill_nonempty (b : Buffer) : Prop :=
  forall f, diskBuffer b = Some f -> data f <> [].

(** The state of a buffer in its read phase: the composed reader has
    still to deliver [rest]. *)
Inductive RInv (b : Buffer) : list byte -> Prop :=
| RInv_memory :
    reader b = Some MemoryReader ->
    RInv b (memoryBuffer b)
| RInv_both (f : File) :
    reader b = Some (MultiReader [Memory; Disk]) ->
    diskBuffer b = Some f -> closed f = false ->
    RInv b (memoryBuffer b ++ skipn (offset f) (data f))
| RInv_disk (f : File) :
    reader b = Some (MultiReader [Disk]) ->
    diskBuffer b = Some f -> closed f = false ->
    RInv b (skipn (offset f) (data f))
| RInv_done :
    reader b = Some (MultiReader []) ->
    RInv b [].

(** What reading and closing leave alone: the overflow flag and the
    two limits. *)
Definition kept (b b' : Buffer) : Prop :=
  overflowed b' = overflowed b /\
  maxBytes b' = maxBytes b /\
  maxMemBytes b' = maxMemBytes b.

(** The ceiling check of [Write], on the byte counts themselves. *)
Definition exceeds (b : Buffer) (p : list byte) : bool :=
  (0 <? maxBytes b) &&
  (maxBytes b <?
   memBytesWritten b + diskBytesWritten b + Z.of_nat (List.length p)).

(** ** Scenarios *)

Definition hello : list byte := list_byte_of_string "hello ".
Definition world : list byte := list_byte_of_string "world!".
Definition one_byte : list byte := list_byte_of_string "x".

(** Six bytes taken under a ceiling of ten, all in memory. *)
Definition six_of_ten : Buffer :=
  fst (fst (Write os_ok hello (NewBufferedWriteCloser 10 10))).

(** The same, after a first [Read] of one byte. *)
Definition six_of_ten_read : Buffer := fst (fst (Read 1 six_of_ten)).

(** Six bytes taken under a ceiling of ten, two of them spilled. *)
Definition six_of_ten_spilled : Buffer :=
  fst (fst (Write os_ok hello (NewBufferedWriteCloser 10 4))).

(** A ceiling of five bytes below a memory threshold of ten. *)
Definition ceiling_below_threshold : Buffer := NewBufferedWriteCloser 5 10.

(** A negative memory threshold, and a negative ceiling. *)
Definition negative_threshold : Buffer := NewBufferedWriteCloser 0 (-1).
Definition negative_ceiling : Buffer := NewBufferedWriteCloser (-1) 10.

(** The disk is full (ENOSPC) at the first write to the spill file. *)
Definition disk_full : OS :=
  {| createTemp_fault := None; write_fault := Some (0%nat, 28%nat) |}.

(** No file descriptor is left (EMFILE) for a temporary file. *)
Definition no_descriptor : OS :=
  {| createTemp_fault := Some 24%nat; write_fault := None |}.

(** ** The rest of [buffer.go], and its caller *)

Definition removes (evs : list Event) : nat :=
  List.length (filter (Event_eqb Remove) evs).

Definition is_size_error (r : outcome) : bool :=
  match r with
  | Returns _ (Some ErrMaximumSizeExceeded) => true
  | _ => false
  end.

(** A history of calls, with the events on the file system and the
    outcomes of its [Write] calls. *)
Definition step_log (c : Call) (b : Buffer)
  : Buffer * list Event * list outcome :=
  match c with
  | CallWrite os p => let '(b1, r, ev) := Write os p b in (b1, ev, [r])
  | CallRead n => (fst (fst (Read n b)), [], [])
  | CallSend => (fst (fst (Send b)), [], [])
  | CallClose => let '(b1, _, ev) := Close b in (b1, ev, [])
  end.

Fixpoint run_log (cs : list Call) (b : Buffer)
  : Buffer * list Event * list outcome :=
  match cs with
  | [] => (b, [], [])
  | c :: cs' =>
      let '(b1, ev, rs) := step_log c b in
      let '(b2, evs, rss) := run_log cs' b1 in
      (b2, ev ++ evs, rs ++ rss)
  end.

(** Consecutive [Read] calls of the given sizes: what they deliver, one
    after the other, errors apart. *)
Fixpoint ReadEach (sizes : list nat) (b : Buffer) : Buffer * list byte :=
  match sizes with
  | [] => (b, [])
  | n :: sizes' =>
      let '(b1, got, _) := Read n b in
      let '(b2, rest) := ReadEach sizes' b1 in
      (b2, got ++ rest)
  end.

(** *** [NewBufferedReadCloser]

    The [io.ReadCloser] to drain is given by the results of its
    successive [Read] calls, each with the behaviour of the operating
    system during the [Write] that follows; past the last one it is at
    its end ([0, io.EOF]). *)
Record Pull : Type := {
  during : OS;
  bytes_read : list byte;
  read_err : option error
}.

(** A source that hands out the given chunks and then ends, on a
    working operating system. *)
Definition body_of (chunks : list (list byte)) : list Pull :=
  map (fun c => {| during := os_ok; bytes_read := c; read_err := None |})
    chunks.

Definition pulled (src : list Pull) : list (list byte) := map bytes_read src.

(** The errors [io.Copy] can return: an error of the source or of the
    destination, or one of its own. *)
Inductive copy_error : Type :=
| FromCall (e : error)
| ErrShortWrite
| ErrInvalidWrite.

Definition is_size_exceeded (e : copy_error) : bool :=
  match e with
  | FromCall ErrMaximumSizeExceeded => true
  | _ => false
  end.

Inductive copied : Type :=
| Copied (written : Z) (err : option copy_error)
| CopyPanics.

(** One turn of the loop of [io.Copy] after a read of [nr > 0] bytes:
    the write, and the checks on what it reports.  [None]: the write
    panicked. *)
Definition copy_write (os : OS) (chunk : list byte) (b : Buffer)
  : Buffer * option (Z * option copy_error) * list Event :=
  let nr := Z.of_nat (List.length chunk) in
  match Write os chunk b with
  | (b1, Panics, ev) => (b1, None, ev)
  | (b1, Returns nw ew, ev) =>
      let invalid := (nw <? 0) || (nr <? nw) in
      let nw' := if invalid then 0 else nw in
      let ew' :=
        match ew with
        | Some e => Some (FromCall e)
        | None => if invalid then Some ErrInvalidWrite else None
        end in
      let err :=
        match ew' with
        | Some e => Some e
        | None => if nr =? nw' then None else Some ErrShortWrite
        end in
      (b1, Some (nw', err), ev)
  end.

(** [io.Copy(buf, r)]: the buffer has no [ReadFrom], so the bytes go
    through the loop, read by read. *)
Fixpoint io_Copy (src : list Pull) (b : Buffer) (written : Z)
  : Buffer * copied * list Event :=
  match src with
  | [] => (b, Copied written None, [])
  | pull :: rest =>
      let after_read (b1 : Buffer) (written1 : Z) (ev : list Event) :=
        match read_err pull with
        | Some er =>
            (b1,
             Copied written1 (if is_EOF (Some er) then None
                              else Some (FromCall er)),
             ev)
        | None =>
            let '(b2, r, evs) := io_Copy rest b1 written1 in
            (b2, r, ev ++ evs)
        end in
      if 0 <? Z.of_nat (List.length (bytes_read pull)) then
        match copy_write (during pull) (bytes_read pull) b with
        | (b1, None, ev) => (b1, CopyPanics, ev)
        | (b1, Some (nw, Some e), ev) =>
            (b1, Copied (wrap64 (written + nw)) (Some e), ev)
        | (b1, Some (nw, None), ev) =>
            after_read b1 (wrap64 (written + nw)) ev
        end
      else after_read b written []
  end.

Inductive constructed : Type :=
| Ready (buf : Buffer)
| Failed (err : copy_error)
| ConstructPanics.

Definition NewBufferedReadCloser (r : list Pull) (maxBytes maxMemBytes : Z)
  : constructed * list Event :=
  let buf := NewBufferedWriteCloser maxBytes maxMemBytes in
  let '(buf1, res, ev) := io_Copy r buf 0 in
  match res with
  | CopyPanics => (ConstructPanics, ev)
  | Copied _ (Some err) =>
      let '(_, _, ev') := Close buf1 in
      (Failed err, ev ++ ev')
  | Copied _ None => (Ready buf1, ev)
  end.

(** *** The request buffer middleware ([request_buffer_middleware.go]) *)

Module Middleware.

Record RequestBufferMiddleware : Type := {
  maxMemBytes : Z;
  maxBytes : Z
}.

Definition WithRequestBufferMiddleware (maxMemBytes maxBytes : Z)
  : RequestBufferMiddleware :=
  {| maxMemBytes := maxMemBytes; maxBytes := maxBytes |}.

Definition StatusRequestEntityTooLarge : Z := 413.
Definition StatusInternalServerError : Z := 500.

(** What becomes of a request: an error response, or the next handler
    called with the buffer as the request's body. *)
Inductive served : Type :=
| Responds (status : Z) (message : string)
| Next (body : Buffer)
| ServePanics.

Definition ServeHTTP (h : RequestBufferMiddleware) (body : list Pull)
  : served * list Event :=
  match NewBufferedReadCloser body (maxBytes h) (maxMemBytes h) with
  | (Failed err, ev) =>
      if is_size_exceeded err
      then (Responds StatusRequestEntityTooLarge "Request too large", ev)
      else (Responds StatusInternalServerError "Internal Server Error", ev)
  | (Ready requestBuffer, ev) => (Next requestBuffer, ev)
  | (ConstructPanics, ev) => (ServePanics, ev)
  end.

End Middleware.

(** What reading leaves alone besides [kept]: the once-flag of
    [Close], the presence of the spill file and the two counters. *)
Definition untouched (b b' : Buffer) : Prop :=
  closeOnce b' = closeOnce b /\
  has_disk b' = has_disk b /\
  memBytesWritten b' = memBytesWritten b /\
  diskBytesWritten b' = diskBytesWritten b.

(** The buffer after a sequence of [Write] calls on a new buffer, and
    the bytes those calls report as written. *)
Definition written_buffer (mb mm : Z) (calls : list (OS * list byte))
  : Buffer :=
  fst (fst (WriteAll calls (NewBufferedWriteCloser mb mm))).

Definition written_bytes (mb mm : Z) (calls : list (OS * list byte))
  : list byte :=
  all_accepted (map snd calls)
    (snd (fst (WriteAll calls (NewBufferedWriteCloser mb mm)))).

(** A body whose second read meets a full disk. *)
Definition body_on_full_disk : list Pull :=
  [ {| during := os_ok; bytes_read := one_byte; read_err := None |};
    {| during := disk_full; bytes_read := hello; read_err := None |} ].

(** The split point for [percentage] is zero when the percentage is,
    and otherwise a positive number below [2^53] with a 53-bit mantissa
    whose integer part is that of [0xFFFFFFFF * percentage / 100]. *)
Definition split_point_ok (percentage : Z) : bool :=
  match Rollout.PercentageSplitPoint
          (Rollout.NewRolloutController percentage []) with
  | S754_zero false => percentage =? 0
  | S754_finite false m e =>
      (0 <? percentage) && (Zpos (digits2_pos m) =? 53) && (e <=? 0) &&
      (Zpos m / 2 ^ (- e) =? 4294967295 * percentage / 100)
  | _ => false
  end.

(** ** Requests served concurrently

    [net/http] serves every request in a goroutine of its own, and all
    of them call [RequestUsesRolloutGroup] on the one controller of the
    routing rule.  A goroutine's call is cut into steps, each with at
    most one access to the controller; a schedule interleaves the steps
    of the goroutines in any order. *)

Module Serve.

(** Where a goroutine is in its call, with the local variables that
    are live there: at the entry; in the loop of [slices.Contains],
    over what is left of the slice; in the loop of the hasher's
    [Write], with the state of the hasher that [fnv.New32a] allocated
    for this call and the bytes left; back from [hashForValue]; back
    from the call. *)
Inductive Frame : Type :=
| Called (r : Rollout.Request)
| InContains (value : string) (s : list string)
| InHasher (hasher : Z) (data : list ascii)
| Hashed (hash : Z)
| Returned (result : bool).

(** One step of a goroutine.  The receiver is a pointer: the step gets
    the controller and hands it back. *)
Definition advance (rc : Rollout.RolloutController) (f : Frame)
  : Rollout.RolloutController * Frame :=
  match f with
  | Called r =>
      let splitValue := Rollout.splitValue r in
      if String.eqb splitValue EmptyString then (rc, Returned false)
      else (rc, InContains splitValue (Rollout.Allowlist rc))
  | InContains value [] =>
      (rc, InHasher Rollout.offset32 (list_ascii_of_string value))
  | InContains value (x :: s) =>
      if String.eqb value x then (rc, Returned true)
      else (rc, InContains value s)
  | InHasher hasher [] => (rc, Hashed hasher)
  | InHasher hasher (c :: data) =>
      (rc, InHasher (Rollout.fnv32a_byte hasher c) data)
  | Hashed hash =>
      (rc, Returned (F64.leb (F64.of_int hash)
                       (Rollout.PercentageSplitPoint rc)))
  | Returned result => (rc, Returned result)
  end.

(** A process: the controller, constructed once, and the goroutines
    that serve the requests. *)
Record Process : Type := {
  controller : Rollout.RolloutController;
  goroutines : list Frame
}.

Definition start (percentage : Z) (allowlist : list string)
           (requests : list Rollout.Request) : Process :=
  {| controller := Rollout.NewRolloutController percentage allowlist;
     goroutines := map Called requests |}.

Fixpoint replace (i : nat) (f : Frame) (gs : list Frame) : list Frame :=
  match gs, i with
  | [], _ => []
  | _ :: gs', O => f :: gs'
  | g :: gs', S i' => g :: replace i' f gs'
  end.

(** The scheduler lets goroutine [i] make one step. *)
Definition run_goroutine (i : nat) (p : Process) : Process :=
  match nth_error (goroutines p) i with
  | Some f =>
      let '(rc, f') := advance (controller p) f in
      {| controller := rc; goroutines := replace i f' (goroutines p) |}
  | None => p
  end.

Definition serve (schedule : list nat) (p : Process) : Process :=
  fold_left (fun p i => run_goroutine i p) schedule p.

(** What goroutine [i] has answered, if it has. *)
Definition answer (p : Process) (i : nat) : option bool :=
  match nth_error (goroutines p) i with
  | Some (Returned result) => Some result
  | _ => None
  end.

(** [n] steps of one goroutine, alone. *)
Fixpoint advances (n : nat) (rc : Rollout.RolloutController) (f : Frame)
  : Frame :=
  match n with
  | O => f
  | S n' => advances n' rc (snd (advance rc f))
  end.

(** The result a frame leads to, and a bound on the steps to it. *)
Definition outcome (rc : Rollout.RolloutController) (f : Frame) : bool :=
  match f with
  | Called r => Rollout.RequestUsesRolloutGroup rc r
  | InContains value s =>
      if existsb (String.eqb value) s then true
      else Rollout.valueInRolloutPercentage rc value
  | InHasher hasher data =>
      F64.leb (F64.of_int (Rollout.fnv32a_Write hasher data))
        (Rollout.PercentageSplitPoint rc)
  | Hashed hash =>
      F64.leb (F64.of_int hash) (Rollout.PercentageSplitPoint rc)
  | Returned result => result
  end.

Definition steps_left (rc : Rollout.RolloutController) (f : Frame) : nat :=
  match f with
  | Called r =>
      List.length (Rollout.Allowlist rc)
      + String.length (Rollout.splitValue r) + 4
  | InContains value s => List.length s + String.length value + 3
  | InHasher _ data => List.length data + 2
  | Hashed _ => 1
  | Returned _ => 0
  end.

(** Steps that are enough for a request, whatever the path taken. *)
Definition steps_needed (allowlist : list string) (r : Rollout.Request)
  : nat :=
  List.length allowlist + String.length (Rollout.splitValue r) + 4.

End Serve.

(** Two requests with the same identifier and nothing else in common. *)
Definition plain_request : Rollout.Request :=
  Rollout.request_with "client-7".

Definition busy_request : Rollout.Request :=
  {| Rollout.Method := "POST"; Rollout.URL := "/orders";
     Rollout.Cookies :=
       [ {| Rollout.Name := "session"; Rollout.Value := "s3" |};
         {| Rollout.Name := Rollout.RolloutCookieName;
            Rollout.Value := "client-7" |};
         {| Rollout.Name := Rollout.RolloutCookieName;
            Rollout.Value := "other" |} ] |}.

(** A schedule that alternates between goroutines 0, 1 and 2, and one
    that runs goroutine 0 alone. *)
Definition alternating : list nat :=
  List.concat (repeat [0; 1; 2; 1; 0]%nat 20).

Definition alone : list nat := repeat 0%nat 13.

(** ** Machine integers: facts *)

Lemma wrap64_id (z : Z) : int64_range z -> wrap64 z = z.
Proof.
  unfold int64_range, wrap64. intros H.
  rewrite Z.mod_small by lia. lia.
Qed.

Ltac unwrap64 :=
  repeat match goal with
         | |- context [wrap64 ?z] =>
             rewrite (wrap64_id z) by (unfold int64_range; lia)
         end.

(** ** Facts on the conversion of a [uint32] to binary64 *)

Lemma digits2_pos_iter_xO (p d : positive) :
  digits2_pos (Pos.iter xO p d) = (digits2_pos p + d)%positive.
Proof.
  induction d as [|d IH] using Pos.peano_ind.
  - simpl. lia.
  - rewrite Pos.iter_succ. simpl. rewrite IH. lia.
Qed.

Lemma digits2_pos_bound (p : positive) (n : nat) :
  Zpos p < 2 ^ Z.of_nat n -> Zpos (digits2_pos p) <= Z.of_nat n.
Proof.
  revert p. induction n as [|n IH]; intros p Hp.
  - simpl in Hp. lia.
  - rewrite Nat2Z.inj_succ, Z.pow_succ_r in Hp by lia.
    destruct p as [q|q|]; simpl digits2_pos.
    + specialize (IH q). rewrite Pos2Z.inj_succ. lia.
    + specialize (IH q). rewrite Pos2Z.inj_succ. lia.
    + lia.
Qed.

(** A positive integer below [2^53] converts exactly: the result is a
    positive finite number, its mantissa the integer shifted to 53 bits. *)
Lemma of_int_pos_finite (p : positive) :
  Zpos (digits2_pos p) < 53 ->
  exists m e, F64.of_int (Zpos p) = S754_finite false m e.
Proof.
  intros Hd.
  unfold F64.of_int, binary_normalize, binary_round.
  set (d := digits2_pos p) in *.
  assert (Hfexp : fexp F64.prec F64.emax (Zpos d + 0) = Zpos d - 53).
  { unfold fexp, emin, F64.prec, F64.emax. lia. }
  rewrite Hfexp. unfold shl_align.
  destruct (Zpos d - 53 - 0) as [|k|k] eqn:Hk; try lia.
  set (e := Zpos d - 53) in *.
  assert (Hfexp' : fexp F64.prec F64.emax (Zpos (d + k) + e) - e = 0).
  { unfold fexp, emin, F64.prec, F64.emax. lia. }
  unfold binary_round_aux, shr_fexp.
  cbv beta iota delta [Zdigits2 shr_record_of_loc].
  rewrite digits2_pos_iter_xO. fold d. rewrite Hfexp'.
  cbv beta iota delta [shr shr_m loc_of_shr_record round_nearest_even].
  rewrite digits2_pos_iter_xO. fold d. rewrite Hfexp'.
  cbv beta iota.
  destruct (e <=? F64.emax - F64.prec) eqn:Hle.
  - eauto.
  - unfold F64.emax, F64.prec in Hle. lia.
Qed.

Lemma of_uint32_leb_zero (h : Z) :
  uint32_range h -> F64.leb (F64.of_int h) F64.zero = (h =? 0).
Proof.
  intros [Hlo Hhi]. destruct h as [|p|p]; try lia.
  - reflexivity.
  - destruct (of_int_pos_finite p) as (m & e & ->).
    + pose proof (digits2_pos_bound p 32 Hhi). lia.
    + reflexivity.
Qed.

(** ** The model at work *)

(** FNV-1a, 32 bits: the offset basis and two published vectors. *)
Example hashForValue_vectors :
  Rollout.hashForValue EmptyString = 0x811c9dc5 /\
  Rollout.hashForValue "a" = 0xe40c292c /\
  Rollout.hashForValue "foobar" = 0xbf9cf968.
Proof. vm_compute. repeat split; reflexivity. Qed.

(** The split points at 0, 50 and 100 percent: [0], [2147483647.5] and
    [4294967295]. *)
Example split_points :
  Rollout.PercentageSplitPoint (Rollout.NewRolloutController 0 [])
  = S754_zero false /\
  Rollout.PercentageSplitPoint (Rollout.NewRolloutController 50 [])
  = S754_finite false (4294967295 * 2 ^ 21) (-22) /\
  Rollout.PercentageSplitPoint (Rollout.NewRolloutController 100 [])
  = S754_finite false (4294967295 * 2 ^ 21) (-21).
Proof. vm_compute. repeat split; reflexivity. Qed.

(** Twelve bytes in two writes against a memory threshold of ten: ten
    bytes in memory, two in the spill file, all twelve read back. *)
Example twelve_bytes_threshold_ten :
  WriteAll (writes [hello; world]) (NewBufferedWriteCloser 0 10)
  = ({| maxBytes := 0; maxMemBytes := 10;
        memoryBuffer := list_byte_of_string "hello worl";
        memBytesWritten := 10;
        diskBuffer := Some {| data := list_byte_of_string "d!";
                              offset := 2; closed := false |};
        diskBytesWritten := 2;
        overflowed := false; reader := None; closeOnce := false |},
     [Returns 6 None; Returns 6 None], [CreateTemp]) /\
  snd (fst (Send (fst (fst (WriteAll (writes [hello; world])
                              (NewBufferedWriteCloser 0 10))))))
  = list_byte_of_string "hello world!".
Proof. vm_compute. split; reflexivity. Qed.

(** ** The write phase *)

Lemma File_Write_at_end (os : OS) (p : list byte) (f : File) :
  closed f = false -> offset f = List.length (data f) ->
  exists k,
    (k <= List.length p)%nat /\
    File_Write os p f =
      ({| data := data f ++ firstn k p;
          offset := List.length (data f ++ firstn k p);
          closed := false |},
       Z.of_nat k,
       match write_fault os with
       | Some (j, errno) =>
           if (j <? List.length p)%nat then Some (ErrOS errno) else None
       | None => None
       end) /\
    (write_fault os = None -> k = List.length p).
Proof.
  intros Hc Ho. unfold File_Write. rewrite Hc, Ho.
  rewrite firstn_all.
  set (acc := match write_fault os with
              | Some (k, _) => firstn k p
              | None => p
              end).
  exists (List.length acc).
  assert (Hacc : acc = firstn (List.length acc) p).
  { unfold acc. destruct (write_fault os) as [[k e]|].
    - rewrite length_firstn.
      destruct (Nat.le_gt_cases k (List.length p)).
      + rewrite Nat.min_l by lia. reflexivity.
      + rewrite Nat.min_r by lia. rewrite !firstn_all2 by lia. reflexivity.
    - rewrite firstn_all. reflexivity. }
  assert (Hlen : (List.length acc <= List.length p)%nat).
  { unfold acc. destruct (write_fault os) as [[k e]|].
    - rewrite length_firstn. lia.
    - lia. }
  split; [exact Hlen|]. split.
  - rewrite skipn_all2 by lia. rewrite <- Hacc.
    rewrite app_nil_r, length_app. reflexivity.
  - intros Hnone. unfold acc. rewrite Hnone. reflexivity.
Qed.

Lemma firstn_firstn_skipn {A : Type} (k j : nat) (l : list A) :
  firstn k l ++ firstn j (skipn k l) = firstn (k + j) l.
Proof.
  revert l. induction k as [|k IH]; intros l.
  - reflexivity.
  - destruct l as [|x l]; simpl.
    + rewrite firstn_nil. reflexivity.
    + rewrite IH. reflexivity.
Qed.

Ltac list_lengths :=
  rewrite ?length_app, ?length_firstn, ?length_skipn, ?app_nil_r in *.

Ltac inv_facts Hd Hdat Hfit :=
  constructor; unfold disk_data; simpl; rewrite ?Hd; simpl; auto;
  try solve [ rewrite <- Hdat, ?app_assoc, ?app_nil_r; reflexivity
            | rewrite ?app_nil_r; assumption
            | list_lengths; lia
            | intros ? Hf'; discriminate Hf'
            | intros ? Hf'; injection Hf' as <-; simpl; repeat split; auto; lia
            | let Hpos := fresh in
              intros Hpos; specialize (Hfit Hpos); list_lengths; lia ].

Ltac frame_facts :=
  repeat split; unfold has_disk, spills; simpl;
  repeat match goal with
         | H : diskBuffer _ = _ |- _ => rewrite H
         end;
  simpl; auto; try congruence; try lia;
  try solve [ destruct (diskBuffer _); simpl; auto; congruence ].

Lemma Write_inv (os : OS) (p : list byte) (b : Buffer) (dat : list byte) :
  WInv b dat -> config_ok b ->
  Z.of_nat (List.length dat) + Z.of_nat (List.length p) < 2 ^ 63 ->
  exists b' n err ev,
    Write os p b = (b', Returns n err, ev) /\
    0 <= n <= Z.of_nat (List.length p) /\
    WInv b' (dat ++ firstn (Z.to_nat n) p) /\
    maxBytes b' = maxBytes b /\ maxMemBytes b' = maxMemBytes b /\
    (has_disk b = true -> has_disk b' = true) /\
    spills ev = (if negb (has_disk b) && has_disk b' then 1 else 0)%nat /\
    (has_disk b = false -> has_disk b' = true ->
     maxMemBytes b < Z.of_nat (List.length dat) + Z.of_nat (List.length p)).
Proof.
  intros [Hr Hdat Hmem Hdisk Hle Hfile Hceil] [Hmb Hmm] Hbound.
  assert (Hlen : Z.of_nat (List.length dat) =
                 memBytesWritten b + diskBytesWritten b).
  { rewrite <- Hdat, length_app. lia. }
  unfold int64_range in *.
  unfold Write. rewrite Hr. unwrap64.
  destruct ((maxBytes b >? 0) &&
            (memBytesWritten b + diskBytesWritten b
             + Z.of_nat (List.length p) >? maxBytes b)) eqn:Hc.
  - exists (set_overflowed b), 0, (Some ErrMaximumSizeExceeded), [].
    split; [reflexivity|]. split; [lia|]. simpl firstn. rewrite app_nil_r.
    split; [constructor; simpl; auto|]. frame_facts.
  - assert (Hfit : 0 < maxBytes b ->
                   memBytesWritten b + diskBytesWritten b
                   + Z.of_nat (List.length p) <= maxBytes b).
    { intros Hpos. apply andb_false_iff in Hc. destruct Hc; lia. }
    destruct (diskBuffer b) as [f|] eqn:Hd.
    + destruct (Hfile f eq_refl) as (Hoff & Hcl & Hfull).
      unfold writeToDisk. rewrite Hd.
      destruct (File_Write_at_end os p f Hcl Hoff) as (k & Hk & -> & _).
      unfold disk_data in *. rewrite Hd in *. unwrap64.
      eexists _, _, _, _. split; [reflexivity|].
      rewrite Nat2Z.id. split; [lia|]. split; [|frame_facts].
      inv_facts Hd Hdat Hfit.
    + unfold disk_data in *. rewrite Hd in *. simpl in Hdisk.
      rewrite app_nil_r in Hdat.
      destruct (memBytesWritten b + Z.of_nat (List.length p) <=? maxMemBytes b)
        eqn:Hm.
      * unfold writeToMemory. unwrap64.
        eexists _, _, _, _. split; [reflexivity|].
        rewrite Nat2Z.id, firstn_all. split; [lia|].
        split; [|frame_facts].
        inv_facts Hd Hdat Hfit.
      * apply Z.leb_gt in Hm. unfold createSpill.
        destruct (createTemp_fault os) as [errno|].
        -- eexists _, _, _, _. split; [reflexivity|].
           split; [lia|]. simpl firstn. rewrite app_nil_r.
           split; [|frame_facts].
           inv_facts Hd Hdat Hfit.
        -- cbn [maxMemBytes memBytesWritten set_disk]. unwrap64.
           set (k := maxMemBytes b - memBytesWritten b).
           assert (Hk : 0 <= k < Z.of_nat (List.length p)) by (unfold k; lia).
           unfold slice_in_bounds.
           replace (0 <=? k) with true by (symmetry; apply Z.leb_le; lia).
           replace (k <=? Z.of_nat (List.length p)) with true
             by (symmetry; apply Z.leb_le; lia).
           cbn [andb negb].
           unfold writeToMemory.
           cbn [memoryBuffer memBytesWritten set_disk].
           assert (Hfl : Z.of_nat (List.length (firstn (Z.to_nat k) p)) = k).
           { rewrite length_firstn. lia. }
           rewrite Hfl. unwrap64.
           unfold writeToDisk. cbn [diskBuffer set_memory set_disk].
           destruct (File_Write_at_end os (skipn (Z.to_nat k) p)
                       {| data := []; offset := 0; closed := false |}
                       eq_refl eq_refl) as (j & Hj & -> & _).
           rewrite length_skipn in Hj.
           cbn [diskBytesWritten set_memory set_disk data app]. unwrap64.
           eexists _, _, _, _. split; [reflexivity|].
           replace (Z.to_nat (k + Z.of_nat j)) with (Z.to_nat k + j)%nat by lia.
           rewrite <- firstn_firstn_skipn.
           split; [lia|]. split; [|frame_facts].
           inv_facts Hd Hdat Hfit.
Qed.

Lemma File_Write_ok (p : list byte) (f : File) :
  closed f = false -> offset f = List.length (data f) ->
  File_Write os_ok p f =
    ({| data := data f ++ p;
        offset := List.length (data f ++ p);
        closed := false |},
     Z.of_nat (List.length p), None).
Proof.
  intros Hc Ho.
  destruct (File_Write_at_end os_ok p f Hc Ho) as (k & Hk & -> & Hall).
  rewrite (Hall eq_refl), firstn_all. reflexivity.
Qed.

(** On a working operating system a write is either refused as a
    whole by the ceiling check or taken as a whole. *)
Lemma Write_ok (p : list byte) (b : Buffer) (dat : list byte) :
  WInv b dat -> config_ok b -> spill_nonempty b ->
  Z.of_nat (List.length dat) + Z.of_nat (List.length p) < 2 ^ 63 ->
  exists b' ev,
    Write os_ok p b =
      (b',
       if exceeds b p then Returns 0 (Some ErrMaximumSizeExceeded)
       else Returns (Z.of_nat (List.length p)) None,
       ev) /\
    spill_nonempty b' /\
    (exceeds b p = true -> b' = set_overflowed b /\ ev = []).
Proof.
  intros [Hr Hdat Hmem Hdisk Hle Hfile Hceil] [Hmb Hmm] Hne Hbound.
  assert (Hlen : Z.of_nat (List.length dat) =
                 memBytesWritten b + diskBytesWritten b).
  { rewrite <- Hdat, length_app. lia. }
  unfold int64_range in *.
  unfold Write, exceeds. rewrite Hr. unwrap64.
  rewrite (Z.gtb_ltb (maxBytes b) 0), (Z.gtb_ltb _ (maxBytes b)).
  destruct ((0 <? maxBytes b) &&
            (maxBytes b <? memBytesWritten b + diskBytesWritten b
                           + Z.of_nat (List.length p))) eqn:Hc.
  - eexists _, _. split; [reflexivity|]. split; [exact Hne|]. auto.
  - destruct (diskBuffer b) as [f|] eqn:Hd.
    + destruct (Hfile f eq_refl) as (Hoff & Hcl & Hfull).
      unfold writeToDisk. rewrite Hd, (File_Write_ok p f Hcl Hoff).
      eexists _, _. split; [reflexivity|]. split; [|discriminate].
      intros f' Hf'. simpl in Hf'. injection Hf' as <-. simpl.
      specialize (Hne f Hd). destruct (data f); [congruence|discriminate].
    + destruct (memBytesWritten b + Z.of_nat (List.length p) <=? maxMemBytes b)
        eqn:Hm.
      * unfold writeToMemory.
        eexists _, _. split; [reflexivity|]. split; [|discriminate].
        intros f' Hf'. simpl in Hf'. congruence.
      * unfold createSpill. cbn [createTemp_fault os_ok].
        cbn [maxMemBytes memBytesWritten set_disk]. unwrap64.
        set (k := maxMemBytes b - memBytesWritten b).
        assert (Hk : 0 <= k < Z.of_nat (List.length p)) by (unfold k; lia).
        unfold slice_in_bounds.
        replace (0 <=? k) with true by (symmetry; apply Z.leb_le; lia).
        replace (k <=? Z.of_nat (List.length p)) with true
          by (symmetry; apply Z.leb_le; lia).
        cbn [andb negb].
        unfold writeToMemory.
        cbn [memoryBuffer memBytesWritten set_disk].
        assert (Hfl : Z.of_nat (List.length (firstn (Z.to_nat k) p)) = k).
        { rewrite length_firstn. lia. }
        rewrite Hfl. unwrap64.
        unfold writeToDisk. cbn [diskBuffer set_memory set_disk].
        rewrite File_Write_ok by reflexivity.
        rewrite length_skipn.
        replace (wrap64 (k + Z.of_nat (List.length p - Z.to_nat k)))
          with (Z.of_nat (List.length p))
          by (rewrite wrap64_id; unfold int64_range; lia).
        eexists _, _. split; [reflexivity|]. split; [|discriminate].
        intros f' Hf'. simpl in Hf'. injection Hf' as <-. simpl.
        intros Hnil. apply (f_equal (@List.length byte)) in Hnil.
        rewrite length_skipn in Hnil. simpl in Hnil. lia.
Qed.

Lemma total_nil : total [] = 0.
Proof. reflexivity. Qed.

Lemma total_cons (p : list byte) (ps : list (list byte)) :
  total (p :: ps) = Z.of_nat (List.length p) + total ps.
Proof. unfold total. simpl. rewrite length_app. lia. Qed.

Lemma total_nonneg (ps : list (list byte)) : 0 <= total ps.
Proof. unfold total. lia. Qed.

Lemma total_app (ps qs : list (list byte)) :
  total (ps ++ qs) = total ps + total qs.
Proof.
  induction ps as [|p ps IH].
  - rewrite total_nil. reflexivity.
  - simpl. rewrite !total_cons, IH. lia.
Qed.

Lemma total_firstn_le (k : nat) (ps : list (list byte)) :
  total (firstn k ps) <= total ps.
Proof.
  rewrite <- (firstn_skipn k ps) at 2. rewrite total_app.
  pose proof (total_nonneg (skipn k ps)). lia.
Qed.

Lemma all_accepted_taken (ps : list (list byte)) :
  all_accepted ps (map taken ps) = List.concat ps.
Proof.
  induction ps as [|p ps IH]; simpl.
  - reflexivity.
  - rewrite Nat2Z.id, firstn_all, IH. reflexivity.
Qed.

Lemma WriteAll_inv (calls : list (OS * list byte)) :
  forall (b : Buffer) (dat : list byte),
    WInv b dat -> config_ok b ->
    Z.of_nat (List.length dat) + total (map snd calls) < 2 ^ 63 ->
    exists b' rs evs,
      WriteAll calls b = (b', rs, evs) /\
      WInv b' (dat ++ all_accepted (map snd calls) rs) /\
      maxBytes b' = maxBytes b /\ maxMemBytes b' = maxMemBytes b /\
      Z.of_nat (List.length (all_accepted (map snd calls) rs))
        <= total (map snd calls) /\
      List.length rs = List.length calls /\
      Forall (fun r => r <> Panics) rs /\
      (has_disk b = true -> has_disk b' = true) /\
      spills evs = (if negb (has_disk b) && has_disk b' then 1 else 0)%nat /\
      (has_disk b = false -> has_disk b' = true ->
       maxMemBytes b < Z.of_nat (List.length dat) + total (map snd calls)).
Proof.
  induction calls as [|[os p] calls IH]; intros b dat Hinv Hcfg Hbound.
  - exists b, [], []. simpl. rewrite app_nil_r, total_nil.
    split; [reflexivity|]. split; [exact Hinv|].
    split; [reflexivity|]. split; [reflexivity|]. split; [lia|].
    split; [reflexivity|]. split; [constructor|]. split; [auto|].
    split; [destruct (has_disk b); reflexivity|]. congruence.
  - simpl map in *. rewrite total_cons in *.
    pose proof (total_nonneg (map snd calls)) as Hnn.
    destruct (Write_inv os p b dat Hinv Hcfg) as
      (b1 & n & err & ev & HW & Hn & Hinv1 & Hmb1 & Hmm1 & Hd1 & Hsp1 & Hcr1);
      [lia|].
    assert (Hacc : Z.of_nat (List.length (firstn (Z.to_nat n) p)) = n).
    { rewrite length_firstn. lia. }
    destruct (IH b1 (dat ++ firstn (Z.to_nat n) p) Hinv1) as
      (b2 & rs & evs & HWA & Hinv2 & Hmb2 & Hmm2 & Hlen2 & Hrs & Hnp
       & Hd2 & Hsp2 & Hcr2).
    { destruct Hcfg. split; congruence. }
    { rewrite length_app. lia. }
    exists b2, (Returns n err :: rs), (ev ++ evs).
    simpl. rewrite HW, HWA.
    split; [reflexivity|].
    split; [rewrite app_assoc; exact Hinv2|].
    split; [congruence|]. split; [congruence|].
    split; [rewrite length_app; lia|].
    split; [simpl; congruence|].
    split; [constructor; [discriminate|exact Hnp]|].
    split; [auto|].
    split.
    + unfold spills in *. rewrite filter_app, length_app, Hsp1, Hsp2.
      destruct (has_disk b) eqn:E, (has_disk b1) eqn:E1, (has_disk b2) eqn:E2;
        simpl; auto;
        try (specialize (Hd1 eq_refl)); try (specialize (Hd2 eq_refl));
        congruence.
    + intros Hb Hb2. destruct (has_disk b1) eqn:E1.
      * specialize (Hcr1 Hb eq_refl). lia.
      * specialize (Hcr2 eq_refl Hb2). rewrite length_app in Hcr2. lia.
Qed.

Lemma WriteAll_ok (ps : list (list byte)) :
  forall (b : Buffer) (dat : list byte),
    WInv b dat -> config_ok b -> spill_nonempty b ->
    Z.of_nat (List.length dat) + total ps < 2 ^ 63 ->
    (0 < maxBytes b -> Z.of_nat (List.length dat) + total ps <= maxBytes b) ->
    exists b' evs,
      WriteAll (writes ps) b = (b', map taken ps, evs) /\
      spill_nonempty b' /\
      WInv b' (dat ++ List.concat ps).
Proof.
  induction ps as [|p ps IH]; intros b dat Hinv Hcfg Hne Hbound Hceil.
  - exists b, []. simpl. rewrite app_nil_r. auto.
  - rewrite total_cons in *.
    pose proof (total_nonneg ps) as Hnn.
    destruct (Write_ok p b dat Hinv Hcfg Hne) as (b1 & ev & HW & Hne1 & _);
      [lia|].
    assert (Hex : exceeds b p = false).
    { unfold exceeds. apply andb_false_iff.
      destruct (Z.ltb_spec 0 (maxBytes b)) as [Hpos|]; [right|left; reflexivity].
      apply Z.ltb_ge. specialize (Hceil Hpos).
      destruct Hinv as [_ Hdat Hmem Hdisk _ _ _].
      rewrite <- Hdat, length_app in Hceil. lia. }
    rewrite Hex in HW.
    destruct (Write_inv os_ok p b dat Hinv Hcfg) as
      (b1' & n & err & ev' & HW' & _ & Hinv1 & Hmb1 & Hmm1 & _); [lia|].
    rewrite HW in HW'. injection HW' as <- <- <- <-.
    rewrite Nat2Z.id, firstn_all in Hinv1.
    destruct (IH b1 (dat ++ p) Hinv1) as (b2 & evs & HWA & Hne2 & Hinv2); auto.
    { destruct Hcfg. split; congruence. }
    { rewrite length_app. lia. }
    { rewrite length_app, Hmb1. lia. }
    exists b2, (ev ++ evs). unfold writes in *. simpl. rewrite HW, HWA.
    split; [reflexivity|]. split; [exact Hne2|].
    rewrite app_assoc. exact Hinv2.
Qed.

(** ** The read phase *)

Lemma setReader_set (b : Buffer) : reader (setReader b) <> None.
Proof.
  unfold setReader. destruct (reader b) eqn:Hr.
  - congruence.
  - destruct (diskBuffer b); simpl; discriminate.
Qed.

Lemma setReader_idem (b : Buffer) : setReader (setReader b) = setReader b.
Proof.
  pose proof (setReader_set b) as H.
  unfold setReader at 1. destruct (reader (setReader b)); congruence.
Qed.

Lemma setReader_RInv (b : Buffer) (dat : list byte) :
  WInv b dat -> RInv (setReader b) dat.
Proof.
  intros [Hr Hdat _ _ _ Hfile _]. unfold setReader. rewrite Hr.
  unfold disk_data in Hdat.
  destruct (diskBuffer b) as [f|] eqn:Hd.
  - destruct (Hfile f eq_refl) as (_ & Hcl & _). subst dat.
    assert (Hs : File_Seek_start f =
                 {| data := data f; offset := 0; closed := false |}).
    { unfold File_Seek_start. rewrite Hcl. reflexivity. }
    rewrite Hs.
    exact (RInv_both
             (set_reader
                (set_disk b
                   (Some {| data := data f; offset := 0; closed := false |})
                   (diskBytesWritten b))
                (MultiReader [Memory; Disk]))
             {| data := data f; offset := 0; closed := false |}
             eq_refl eq_refl eq_refl).
  - rewrite app_nil_r in Hdat. subst dat.
    apply (RInv_memory (set_reader b MemoryReader)). reflexivity.
Qed.

Lemma firstn_nonempty {A : Type} (n : nat) (l : list A) :
  (0 < n)%nat -> l <> [] -> firstn n l <> [].
Proof.
  intros Hn Hl. destruct n; [lia|]. destruct l; [congruence|]. discriminate.
Qed.

Lemma skipn_after_firstn {A : Type} (off n : nat) (l : list A) :
  skipn (off + List.length (firstn n (skipn off l))) l = skipn n (skipn off l).
Proof.
  rewrite Nat.add_comm, <- skipn_skipn, length_firstn.
  destruct (Nat.le_gt_cases n (List.length (skipn off l))).
  - rewrite Nat.min_l by lia. reflexivity.
  - rewrite Nat.min_r by lia. rewrite skipn_all, skipn_all2 by lia.
    reflexivity.
Qed.

(** One [Read] of a positive size: end of file when nothing is left,
    otherwise a non-empty prefix of what is left. *)
Lemma Read_step (n : nat) (b : Buffer) (rest : list byte) :
  RInv b rest -> (0 < n)%nat ->
  exists b' got err,
    Read n b = (b', got, err) /\
    ((rest = [] /\ got = [] /\ err = Some EOF /\ RInv b' []) \/
     (rest <> [] /\ got <> [] /\ err = None /\
      exists rest', rest = got ++ rest' /\ RInv b' rest')).
Proof.
  intros Hinv Hn. unfold Read, setReader.
  assert (Hn0 : (n =? 0)%nat = false) by (apply Nat.eqb_neq; lia).
  destruct Hinv as [Hr | f Hr Hd Hcl | f Hr Hd Hcl | Hr]; rewrite Hr;
    unfold reader_Read; rewrite Hr.
  - (* the memory buffer alone *)
    unfold source_Read, bytes_Buffer_Read. rewrite Hn0.
    destruct (memoryBuffer b) as [|x mem] eqn:Hm.
    + eexists _, _, _. split; [reflexivity|]. left.
      repeat split; auto.
      pose proof (RInv_memory (set_memory b [] (memBytesWritten b)) Hr) as H.
      exact H.
    + eexists _, _, _. split; [reflexivity|]. right.
      split; [discriminate|]. split; [apply firstn_nonempty; [lia|discriminate]|].
      split; [reflexivity|].
      exists (skipn n (x :: mem)). split; [symmetry; apply firstn_skipn|].
      exact (RInv_memory (set_memory b (skipn n (x :: mem)) (memBytesWritten b))
               Hr).
  - (* memory, then disk *)
    unfold MultiReader_Read, source_Read, bytes_Buffer_Read. rewrite Hn0.
    destruct (memoryBuffer b) as [|x mem] eqn:Hm.
    + cbn [is_EOF List.length Nat.ltb Nat.leb orb negb diskBuffer set_memory].
      rewrite Hd. unfold File_Read. rewrite Hcl, Hn0.
      destruct (skipn (offset f) (data f)) as [|y more] eqn:Hs.
      * cbn. eexists _, _, _. split; [reflexivity|]. left.
        repeat split; auto. apply RInv_done. reflexivity.
      * set (got := firstn n (y :: more)).
        assert (Hgot : got <> []) by (apply firstn_nonempty; [lia|discriminate]).
        destruct got as [|g got'] eqn:Hg; [congruence|].
        cbn. eexists _, _, _. split; [reflexivity|]. right.
        split; [discriminate|]. split; [discriminate|]. split; [reflexivity|].
        exists (skipn n (y :: more)). split.
        -- rewrite <- Hg. unfold got. symmetry. apply firstn_skipn.
        -- rewrite <- Hs, <- (skipn_after_firstn (offset f) n (data f)), Hs.
           fold got. rewrite Hg. cbn [List.length].
           refine (RInv_disk _
                    {| data := data f;
                       offset := offset f + S (List.length got');
                       closed := false |}
                    _ _ _); reflexivity.
    + set (got := firstn n (x :: mem)).
      assert (Hgot : got <> []) by (apply firstn_nonempty; [lia|discriminate]).
      destruct got as [|g got'] eqn:Hg; [congruence|].
      cbn. eexists _, _, _. split; [reflexivity|]. right.
      split; [discriminate|]. split; [discriminate|]. split; [reflexivity|].
      exists (skipn n (x :: mem) ++ skipn (offset f) (data f)). split.
      * rewrite app_assoc, <- Hg. unfold got. rewrite firstn_skipn. reflexivity.
      * exact (RInv_both
                 (set_reader
                    (set_memory b (skipn n (x :: mem)) (memBytesWritten b))
                    (MultiReader [Memory; Disk]))
                 f eq_refl Hd Hcl).
  - (* the disk alone *)
    unfold MultiReader_Read, source_Read. rewrite Hd.
    unfold File_Read. rewrite Hcl, Hn0.
    destruct (skipn (offset f) (data f)) as [|y more] eqn:Hs.
    + cbn. eexists _, _, _. split; [reflexivity|]. left.
      repeat split; auto. apply RInv_done. reflexivity.
    + set (got := firstn n (y :: more)).
      assert (Hgot : got <> []) by (apply firstn_nonempty; [lia|discriminate]).
      destruct got as [|g got'] eqn:Hg; [congruence|].
      cbn. eexists _, _, _. split; [reflexivity|]. right.
      split; [discriminate|]. split; [discriminate|]. split; [reflexivity|].
      exists (skipn n (y :: more)). split.
      * rewrite <- Hg. unfold got. symmetry. apply firstn_skipn.
      * rewrite <- Hs, <- (skipn_after_firstn (offset f) n (data f)), Hs.
        fold got. rewrite Hg. cbn [List.length].
        refine (RInv_disk _
                 {| data := data f;
                    offset := offset f + S (List.length got');
                    closed := false |}
                 _ _ _); reflexivity.
  - (* nothing left *)
    cbn. eexists _, _, _. split; [reflexivity|]. left.
    repeat split; auto. apply RInv_done. reflexivity.
Qed.

Lemma ReadAll_setReader (sizes : list nat) (b : Buffer) :
  ReadAll sizes (setReader b) = ReadAll sizes b.
Proof.
  destruct sizes as [|n sizes]; [reflexivity|].
  simpl. unfold Read. rewrite setReader_idem. reflexivity.
Qed.

(** Enough reads of positive sizes deliver all that is left and end
    with a clean end of file. *)
Lemma ReadAll_full (sizes : list nat) :
  forall (b : Buffer) (rest : list byte),
    RInv b rest ->
    Forall (fun n => 0 < n)%nat sizes ->
    (List.length rest < List.length sizes)%nat ->
    exists b', ReadAll sizes b = Some (b', rest, None).
Proof.
  induction sizes as [|n sizes IH]; intros b rest Hinv Hpos Hlen.
  - simpl in Hlen. lia.
  - inversion Hpos as [|? ? Hn Hpos']; subst.
    destruct (Read_step n b rest Hinv Hn) as (b1 & got & err & HR & Hcase).
    simpl. rewrite HR.
    destruct Hcase as [(-> & -> & -> & _) | (Hne & Hgot & -> & rest' & -> & Hinv')].
    + exists b1. reflexivity.
    + destruct (IH b1 rest' Hinv' Hpos') as (b2 & HRA).
      { rewrite length_app in Hlen. simpl in Hlen.
        destruct got; [congruence|]. simpl in Hlen. lia. }
      rewrite HRA. exists b2. reflexivity.
Qed.

Lemma ReadAll_after_writes (sizes : list nat) (b : Buffer) (dat : list byte) :
  WInv b dat ->
  Forall (fun n => 0 < n)%nat sizes ->
  (List.length dat < List.length sizes)%nat ->
  exists b', ReadAll sizes b = Some (b', dat, None).
Proof.
  intros Hinv Hpos Hlen. rewrite <- ReadAll_setReader.
  apply ReadAll_full; auto. apply setReader_RInv. exact Hinv.
Qed.

Lemma Send_after_writes (b : Buffer) (dat : list byte) :
  WInv b dat -> exists b', Send b = (b', dat, None).
Proof.
  intros [Hr Hdat _ _ _ Hfile _]. unfold Send, setReader. rewrite Hr.
  unfold disk_data in Hdat.
  destruct (diskBuffer b) as [f|] eqn:Hd.
  - destruct (Hfile f eq_refl) as (_ & Hcl & _).
    unfold File_Seek_start. rewrite Hcl. cbn.
    rewrite app_nil_r, Hdat. eexists. reflexivity.
  - cbn. rewrite app_nil_r in Hdat. rewrite Hdat. eexists. reflexivity.
Qed.

(** Where the bytes lie: memory holds the first [maxMemBytes] of them,
    the spill file the others. *)
Lemma WInv_layout (b : Buffer) (dat : list byte) :
  WInv b dat ->
  memoryBuffer b = firstn (Z.to_nat (maxMemBytes b)) dat /\
  disk_data b = skipn (Z.to_nat (maxMemBytes b)) dat.
Proof.
  intros [_ Hdat Hmem Hdisk Hle Hfile _]. unfold disk_data in *.
  destruct (diskBuffer b) as [f|] eqn:Hd.
  - destruct (Hfile f eq_refl) as (_ & _ & Hfull).
    assert (Hn : Z.to_nat (maxMemBytes b) = List.length (memoryBuffer b)) by lia.
    rewrite Hn, <- Hdat. split.
    + rewrite firstn_app, firstn_all, Nat.sub_diag. simpl.
      rewrite app_nil_r. reflexivity.
    + rewrite skipn_app, skipn_all, Nat.sub_diag. reflexivity.
  - rewrite app_nil_r in Hdat. subst dat. split.
    + rewrite firstn_all2 by lia. reflexivity.
    + rewrite skipn_all2 by lia. reflexivity.
Qed.

Lemma WInv_has_disk (b : Buffer) (dat : list byte) :
  WInv b dat -> spill_nonempty b ->
  has_disk b = negb (Z.of_nat (List.length dat) <=? maxMemBytes b).
Proof.
  intros [_ Hdat Hmem Hdisk Hle Hfile _] Hne. unfold disk_data, has_disk in *.
  destruct (diskBuffer b) as [f|] eqn:Hd.
  - destruct (Hfile f eq_refl) as (_ & _ & Hfull).
    specialize (Hne f Hd).
    assert (0 < List.length (data f))%nat.
    { destruct (data f); [congruence|simpl; lia]. }
    rewrite <- Hdat, length_app.
    symmetry. apply negb_true_iff, Z.leb_gt. lia.
  - rewrite app_nil_r in Hdat. subst dat.
    symmetry. apply negb_false_iff, Z.leb_le. lia.
Qed.

(** A write that fits in memory never reaches the operating system. *)
Lemma Write_in_memory (os : OS) (p : list byte) (b : Buffer) (dat : list byte) :
  WInv b dat -> config_ok b -> has_disk b = false ->
  Z.of_nat (List.length dat) + Z.of_nat (List.length p) <= maxMemBytes b ->
  Write os p b = Write os_ok p b.
Proof.
  intros [Hr Hdat Hmem Hdisk Hle Hfile _] [Hmb Hmm] Hnd Hfit.
  unfold has_disk, disk_data in *.
  destruct (diskBuffer b) eqn:Hd; [discriminate|].
  rewrite app_nil_r in Hdat. subst dat.
  unfold int64_range in *.
  unfold Write. rewrite Hr, Hd.
  destruct ((maxBytes b >? 0) && _); [reflexivity|].
  unwrap64.
  replace (memBytesWritten b + Z.of_nat (List.length p) <=? maxMemBytes b)
    with true by (symmetry; apply Z.leb_le; lia).
  reflexivity.
Qed.

Lemma WriteAll_in_memory (calls : list (OS * list byte)) :
  forall (b : Buffer) (dat : list byte),
    WInv b dat -> config_ok b -> has_disk b = false ->
    Z.of_nat (List.length dat) + total (map snd calls) <= maxMemBytes b ->
    WriteAll calls b = WriteAll (writes (map snd calls)) b.
Proof.
  induction calls as [|[os p] calls IH]; intros b dat Hinv Hcfg Hnd Hfit.
  - reflexivity.
  - simpl map in *. rewrite total_cons in Hfit.
    pose proof (total_nonneg (map snd calls)) as Hnn.
    assert (Hmm : maxMemBytes b < 2 ^ 63) by (destruct Hcfg as [_ []]; lia).
    unfold writes in *. simpl.
    rewrite (Write_in_memory os p b dat Hinv Hcfg Hnd) by lia.
    destruct (Write_inv os_ok p b dat Hinv Hcfg) as
      (b1 & n & err & ev & HW & Hn & Hinv1 & Hmb1 & Hmm1 & _ & _ & Hcr1);
      [lia|].
    rewrite HW.
    rewrite (IH b1 (dat ++ firstn (Z.to_nat n) p)); auto.
    + destruct Hcfg. split; congruence.
    + destruct (has_disk b1) eqn:E; [|reflexivity].
      specialize (Hcr1 Hnd eq_refl). lia.
    + rewrite length_app, length_firstn, Hmm1. lia.
Qed.

(** A sequence of writes on a working operating system keeps every
    spill file non-empty, whatever the ceiling refuses. *)
Lemma WriteAll_spill_nonempty (ps : list (list byte)) :
  forall (b : Buffer) (dat : list byte),
    WInv b dat -> config_ok b -> spill_nonempty b ->
    Z.of_nat (List.length dat) + total ps < 2 ^ 63 ->
    spill_nonempty (fst (fst (WriteAll (writes ps) b))).
Proof.
  induction ps as [|p ps IH]; intros b dat Hinv Hcfg Hne Hbound.
  - exact Hne.
  - rewrite total_cons in Hbound.
    pose proof (total_nonneg ps) as Hnn.
    destruct (Write_ok p b dat Hinv Hcfg Hne) as (b1 & ev & HW & Hne1 & _);
      [lia|].
    destruct (Write_inv os_ok p b dat Hinv Hcfg) as
      (b1' & n & err & ev' & HW' & Hn & Hinv1 & Hmb1 & Hmm1 & _); [lia|].
    assert (Hb : b1' = b1) by (rewrite HW in HW'; congruence). subst b1'.
    unfold writes in *. simpl. rewrite HW'.
    specialize (IH b1 (dat ++ firstn (Z.to_nat n) p) Hinv1).
    destruct (WriteAll (map (fun p => (os_ok, p)) ps) b1) as [[b2 rs] evs].
    simpl in *. apply IH; auto.
    + destruct Hcfg. split; congruence.
    + rewrite length_app, length_firstn. lia.
Qed.

Lemma writes_of_ok (calls : list (OS * list byte)) :
  Forall (fun c => fst c = os_ok) calls -> calls = writes (map snd calls).
Proof.
  induction 1 as [|[os p] calls Hc _ IH]; simpl.
  - reflexivity.
  - simpl in Hc. subst os. unfold writes in *. rewrite <- IH. reflexivity.
Qed.

Lemma map_snd_writes (ps : list (list byte)) : map snd (writes ps) = ps.
Proof.
  unfold writes. rewrite map_map. simpl. apply map_id.
Qed.

Lemma firstn_writes (k : nat) (ps : list (list byte)) :
  firstn k (writes ps) = writes (firstn k ps).
Proof. unfold writes. apply firstn_map. Qed.

(** *** From a fresh buffer *)

Section FreshBuffer.

Variables mb mm : Z.
Hypothesis Hmb : int64_range mb.
Hypothesis Hmm : int64_range mm.
Hypothesis Hmm0 : 0 <= mm.

Lemma WInv_fresh : WInv (NewBufferedWriteCloser mb mm) [].
Proof.
  constructor; simpl; try reflexivity; try lia.
  intros f Hf. discriminate.
Qed.

Lemma spill_nonempty_fresh : spill_nonempty (NewBufferedWriteCloser mb mm).
Proof. intros f Hf. discriminate. Qed.

Lemma config_ok_fresh : config_ok (NewBufferedWriteCloser mb mm).
Proof. split; assumption. Qed.

(** The state after a sequence of writes that the ceiling lets pass,
    on a working operating system. *)
Lemma writes_state (ps : list (list byte)) :
  total ps < 2 ^ 63 ->
  (0 < mb -> total ps <= mb) ->
  exists b evs,
    WriteAll (writes ps) (NewBufferedWriteCloser mb mm)
      = (b, map taken ps, evs) /\
    WInv b (List.concat ps) /\
    spills evs = (if total ps <=? mm then 0%nat else 1%nat) /\
    has_disk b = negb (total ps <=? mm) /\
    memoryBuffer b = firstn (Z.to_nat mm) (List.concat ps) /\
    disk_data b = skipn (Z.to_nat mm) (List.concat ps).
Proof.
  intros Hbound Hceil.
  destruct (WriteAll_ok ps (NewBufferedWriteCloser mb mm) []
              WInv_fresh config_ok_fresh spill_nonempty_fresh)
    as (b & evs & HW & Hne & Hinv); simpl; auto.
  destruct (WriteAll_inv (writes ps) (NewBufferedWriteCloser mb mm) []
              WInv_fresh config_ok_fresh)
    as (b' & rs & evs' & HW' & _ & _ & Hmm' & _ & _ & _ & _ & Hsp & _).
  { rewrite map_snd_writes. simpl. lia. }
  rewrite HW in HW'. injection HW' as <- _ <-.
  simpl in Hinv, Hmm'.
  pose proof (WInv_has_disk b _ Hinv Hne) as Hhd.
  destruct (WInv_layout b _ Hinv) as (Hlm & Hld).
  rewrite Hmm' in Hhd, Hlm, Hld. fold (total ps) in Hhd.
  exists b, evs. split; [exact HW|]. split; [exact Hinv|].
  split; [|auto].
  rewrite Hsp, Hhd. simpl. destruct (total ps <=? mm); reflexivity.
Qed.

End FreshBuffer.

(** ** Properties of the buffer *)

(** A ceiling below the memory threshold.  With [maxBytes = 5] and
    [maxMemBytes = 10], a write of six bytes is within the threshold,
    yet the ceiling check refuses it: no byte is written, and a full
    read returns none. *)
Example ceiling_below_threshold_refuses :
  total [hello] <= maxMemBytes ceiling_below_threshold /\
  List.concat [hello] = list_byte_of_string "hello " /\
  WriteAll (writes [hello]) ceiling_below_threshold
  = (set_overflowed ceiling_below_threshold,
     [Returns 0 (Some ErrMaximumSizeExceeded)], []) /\
  snd (fst (Send (set_overflowed ceiling_below_threshold))) = [] /\
  ReadAll [8%nat; 8%nat] (set_overflowed ceiling_below_threshold)
  = Some (set_reader (set_overflowed ceiling_below_threshold) MemoryReader,
          [], None).
Proof.
  split; [vm_compute; discriminate|].
  vm_compute. repeat split; reflexivity.
Qed.

(** C5.  For every sequence of [Write] calls whose total size is at most
    [maxMemBytes] -- whatever the operating system does meanwhile -- no
    spill file is ever created: the disk buffer is absent after every
    call and no temporary file is created.  A subsequent full read,
    through [Read] calls of any positive sizes or through [Send],
    returns exactly the concatenation of the written bytes, in write
    order: for each call the bytes it reports as written.  Unless the
    ceiling refuses a call (when [maxBytes] is not positive, or the
    total size is at most [maxBytes]), every call writes all its bytes
    and the read returns the concatenation of all the payloads. *)
Theorem writes_within_memory_never_spill :
  forall (mb mm : Z) (calls : list (OS * list byte)),
    int64_range mb -> int64_range mm ->
    total (map snd calls) <= mm ->
    exists b rs evs,
      WriteAll calls (NewBufferedWriteCloser mb mm) = (b, rs, evs) /\
      spills evs = 0%nat /\
      (forall k,
         diskBuffer
           (fst (fst (WriteAll (firstn k calls) (NewBufferedWriteCloser mb mm))))
         = None) /\
      (forall sizes,
         Forall (fun n => 0 < n)%nat sizes ->
         (List.length (all_accepted (map snd calls) rs) < List.length sizes)%nat ->
         exists b',
           ReadAll sizes b = Some (b', all_accepted (map snd calls) rs, None)) /\
      (exists b', Send b = (b', all_accepted (map snd calls) rs, None)) /\
      (mb <= 0 \/ total (map snd calls) <= mb ->
       rs = map taken (map snd calls) /\
       all_accepted (map snd calls) rs = List.concat (map snd calls)).
Proof.
  intros mb mm calls Hmb Hmm Hfit.
  pose proof (total_nonneg (map snd calls)) as Hnn.
  assert (Hmm0 : 0 <= mm) by lia.
  assert (Hlt : mm < 2 ^ 63) by (destruct Hmm; lia).
  assert (Hnone : forall cs,
            total (map snd cs) <= mm ->
            exists b rs evs,
              WriteAll cs (NewBufferedWriteCloser mb mm) = (b, rs, evs) /\
              WInv b (all_accepted (map snd cs) rs) /\
              spills evs = 0%nat /\ diskBuffer b = None).
  { intros cs Hcs.
    destruct (WriteAll_inv cs (NewBufferedWriteCloser mb mm) []
                (WInv_fresh mb mm Hmm0) (config_ok_fresh mb mm Hmb Hmm))
      as (b & rs & evs & HW & Hinv & _ & _ & _ & _ & _ & _ & Hsp & Hcr).
    { simpl. lia. }
    simpl in Hinv, Hsp, Hcr.
    exists b, rs, evs. split; [exact HW|]. split; [exact Hinv|].
    unfold has_disk in *.
    destruct (diskBuffer b); [|auto].
    specialize (Hcr eq_refl eq_refl). lia. }
  destruct (Hnone calls Hfit) as (b & rs & evs & HW & Hinv & Hsp & Hd).
  exists b, rs, evs. split; [exact HW|]. split; [exact Hsp|].
  split; [|split; [|split]].
  - intros k.
    destruct (Hnone (firstn k calls)) as (bk & rk & ek & HWk & _ & _ & Hdk).
    + rewrite <- firstn_map.
      pose proof (total_firstn_le k (map snd calls)). lia.
    + rewrite HWk. exact Hdk.
  - intros sizes Hpos Hlen. apply ReadAll_after_writes; assumption.
  - apply Send_after_writes. exact Hinv.
  - intros Hceil.
    rewrite (WriteAll_in_memory calls _ [] (WInv_fresh mb mm Hmm0)
               (config_ok_fresh mb mm Hmb Hmm) eq_refl) in HW
      by (simpl; lia).
    destruct (WriteAll_ok (map snd calls) (NewBufferedWriteCloser mb mm) []
                (WInv_fresh mb mm Hmm0) (config_ok_fresh mb mm Hmb Hmm)
                (spill_nonempty_fresh mb mm))
      as (b' & evs' & HW' & _ & _); simpl; try lia.
    rewrite HW in HW'. injection HW' as _ -> _.
    split; [reflexivity|]. apply all_accepted_taken.
Qed.

Lemma writes_within_memory_never_spill_witness :
  exists b rs evs,
    WriteAll (writes [hello; one_byte]) (NewBufferedWriteCloser 0 10)
      = (b, rs, evs) /\
    spills evs = 0%nat /\
    exists b', Send b = (b', list_byte_of_string "hello x", None).
Proof.
  destruct (writes_within_memory_never_spill 0 10 (writes [hello; one_byte]))
    as (b & rs & evs & HW & Hsp & _ & _ & HS & Hall).
  - unfold int64_range. lia.
  - unfold int64_range. lia.
  - vm_compute. discriminate.
  - exists b, rs, evs. split; [exact HW|]. split; [exact Hsp|].
    destruct Hall as [_ Hc]; [left; lia|].
    rewrite Hc in HS. exact HS.
Defined.

(** C2 (as the claim states it) fails for a negative [maxMemBytes].
    With [maxMemBytes = -1] and no ceiling, the empty sequence of writes
    has a total, 0, above [maxMemBytes], and no spill file is created;
    and a single one-byte write creates the spill file and then panics
    on [p[:-1]], so that a full read returns nothing.  It also fails
    when the operating system refuses the temporary file: six bytes
    against [maxMemBytes = 2] are then refused and no spill file
    exists. *)
Lemma spill_once_counterexample :
  (maxMemBytes negative_threshold < total [] /\
   spills (snd (WriteAll (writes []) negative_threshold)) = 0%nat) /\
  (maxMemBytes negative_threshold < total [one_byte] /\
   snd (fst (WriteAll (writes [one_byte]) negative_threshold)) = [Panics] /\
   snd (fst (Send (fst (fst (WriteAll (writes [one_byte])
                               negative_threshold))))) = [] /\
   List.length (List.concat [one_byte]) = 1%nat) /\
  (2 < total [hello] /\
   WriteAll [(no_descriptor, hello)] (NewBufferedWriteCloser 0 2)
   = (NewBufferedWriteCloser 0 2, [Returns 0 (Some (ErrOS 24))], [])).
Proof.
  vm_compute. repeat split; reflexivity.
Qed.

(** C2, amended.  For every buffer with [maxMemBytes >= 0] and every
    sequence of [Write] calls, served by a working operating system,
    whose total size exceeds [maxMemBytes] but, when [maxBytes] is
    nonzero, stays at or below [maxBytes]: every call takes all its
    bytes; exactly one spill file is created, by the first call that
    brings the total above [maxMemBytes] (after each call the number of
    files created is 0 or 1 according to whether the total so far is
    within [maxMemBytes], memory holds the first [maxMemBytes] bytes
    written and the spill file the following ones); and a full read,
    through [Read] calls of any positive sizes or through [Send],
    returns the concatenation of the payloads, which does not depend on
    how they were cut into calls. *)
Theorem spill_once_and_read_back :
  forall (mb mm : Z) (ps : list (list byte)),
    int64_range mb -> int64_range mm -> 0 <= mm ->
    total ps < 2 ^ 63 ->
    mm < total ps ->
    (mb <> 0 -> total ps <= mb) ->
    exists b evs,
      WriteAll (writes ps) (NewBufferedWriteCloser mb mm)
        = (b, map taken ps, evs) /\
      spills evs = 1%nat /\
      (forall k, exists bk ek,
         WriteAll (writes (firstn k ps)) (NewBufferedWriteCloser mb mm)
           = (bk, map taken (firstn k ps), ek) /\
         spills ek = (if total (firstn k ps) <=? mm then 0%nat else 1%nat) /\
         has_disk bk = negb (total (firstn k ps) <=? mm) /\
         memoryBuffer bk = firstn (Z.to_nat mm) (List.concat (firstn k ps)) /\
         disk_data bk = skipn (Z.to_nat mm) (List.concat (firstn k ps))) /\
      (forall sizes,
         Forall (fun n => 0 < n)%nat sizes ->
         (List.length (List.concat ps) < List.length sizes)%nat ->
         exists b', ReadAll sizes b = Some (b', List.concat ps, None)) /\
      (exists b', Send b = (b', List.concat ps, None)) /\
      (forall qs, List.concat qs = List.concat ps ->
         exists c evs',
           WriteAll (writes qs) (NewBufferedWriteCloser mb mm)
             = (c, map taken qs, evs') /\
           spills evs' = 1%nat /\
           snd (fst (Send c)) = List.concat ps).
Proof.
  intros mb mm ps Hmb Hmm Hmm0 Hbound Hover Hceil.
  assert (Hceil' : 0 < mb -> total ps <= mb) by (intros; apply Hceil; lia).
  destruct (writes_state mb mm Hmb Hmm Hmm0 ps Hbound Hceil')
    as (b & evs & HW & Hinv & Hsp & _).
  exists b, evs. split; [exact HW|].
  split.
  { rewrite Hsp. destruct (Z.leb_spec (total ps) mm); [lia|reflexivity]. }
  split; [|split; [|split]].
  - intros k. pose proof (total_firstn_le k ps) as Hk.
    destruct (writes_state mb mm Hmb Hmm Hmm0 (firstn k ps))
      as (bk & ek & HWk & _ & Hspk & Hdk & Hmk & Hfk); try lia.
    exists bk, ek. auto.
  - intros sizes Hpos Hlen. apply ReadAll_after_writes; assumption.
  - apply Send_after_writes. exact Hinv.
  - intros qs Hqs.
    assert (Htq : total qs = total ps) by (unfold total; rewrite Hqs; reflexivity).
    destruct (writes_state mb mm Hmb Hmm Hmm0 qs)
      as (c & evs' & HWc & Hinvc & Hspc & _); try lia.
    exists c, evs'. split; [exact HWc|]. split.
    + rewrite Hspc, Htq. destruct (Z.leb_spec (total ps) mm); [lia|reflexivity].
    + destruct (Send_after_writes c _ Hinvc) as (c' & ->). simpl. exact Hqs.
Qed.

Lemma spill_once_and_read_back_witness :
  exists b evs,
    WriteAll (writes [hello; world]) (NewBufferedWriteCloser 0 10)
      = (b, [Returns 6 None; Returns 6 None], evs) /\
    spills evs = 1%nat /\
    exists b', Send b = (b', list_byte_of_string "hello world!", None).
Proof.
  destruct (spill_once_and_read_back 0 10 [hello; world])
    as (b & evs & HW & Hsp & _ & _ & HS & _).
  - unfold int64_range. lia.
  - unfold int64_range. lia.
  - lia.
  - vm_compute. reflexivity.
  - vm_compute. reflexivity.
  - intros H. exfalso. apply H. reflexivity.
  - exists b, evs. split; [exact HW|]. split; [exact Hsp|]. exact HS.
Defined.

(** C7 (as the claim states it) fails in two ways.  A negative
    [maxBytes] is nonzero, and the total written exceeds it: the code
    takes only a positive [maxBytes] as a ceiling.  And when the first
    write to a new spill file fails, the disk region exists although no
    byte has spilled. *)
Lemma write_invariant_counterexample :
  (maxBytes (fst (fst (Write os_ok one_byte negative_ceiling))) = -1 /\
   memBytesWritten (fst (fst (Write os_ok one_byte negative_ceiling)))
   + diskBytesWritten (fst (fst (Write os_ok one_byte negative_ceiling))) = 1) /\
  (has_disk (fst (fst (Write disk_full hello (NewBufferedWriteCloser 0 2))))
   = true /\
   diskBytesWritten
     (fst (fst (Write disk_full hello (NewBufferedWriteCloser 0 2)))) = 0 /\
   disk_data (fst (fst (Write disk_full hello (NewBufferedWriteCloser 0 2))))
   = []).
Proof.
  vm_compute. repeat split; reflexivity.
Qed.

(** C7, amended.  For every buffer constructed with [maxMemBytes >= 0]
    and every sequence of [Write] calls, whatever the operating system
    does, after each call: the bytes stored in memory never exceed
    [maxMemBytes] (and the counters are the sizes of the two regions);
    if at least one byte has spilled, the disk region exists, and the
    converse holds as long as the operating system has not failed; and
    when [maxBytes] is positive the total of memory plus disk bytes
    written never exceeds [maxBytes]. *)
Theorem write_invariant :
  forall (mb mm : Z) (calls : list (OS * list byte)) (k : nat),
    int64_range mb -> int64_range mm -> 0 <= mm ->
    total (map snd calls) < 2 ^ 63 ->
    let b := fst (fst (WriteAll (firstn k calls)
                         (NewBufferedWriteCloser mb mm))) in
    (Z.of_nat (List.length (memoryBuffer b)) <= mm /\
     memBytesWritten b = Z.of_nat (List.length (memoryBuffer b)) /\
     diskBytesWritten b = Z.of_nat (List.length (disk_data b))) /\
    (0 < diskBytesWritten b -> has_disk b = true) /\
    (Forall (fun c => fst c = os_ok) (firstn k calls) ->
     has_disk b = true -> 0 < diskBytesWritten b) /\
    (0 < mb -> memBytesWritten b + diskBytesWritten b <= mb).
Proof.
  intros mb mm calls k Hmb Hmm Hmm0 Hbound.
  pose proof (total_firstn_le k (map snd calls)) as Hk.
  rewrite firstn_map in Hk.
  set (cs := firstn k calls) in *.
  destruct (WriteAll_inv cs (NewBufferedWriteCloser mb mm) []
              (WInv_fresh mb mm Hmm0) (config_ok_fresh mb mm Hmb Hmm))
    as (b & rs & evs & HW & Hinv & Hmb' & Hmm' & _).
  { simpl. lia. }
  rewrite HW. simpl fst. simpl in Hinv, Hmb', Hmm'.
  pose proof Hinv as [_ Hdat Hmem Hdisk Hle _ Hceil].
  split; [|split; [|split]].
  - repeat split; try assumption. lia.
  - unfold has_disk, disk_data in *. destruct (diskBuffer b); [auto|].
    simpl in Hdisk. lia.
  - intros Hok Hhd.
    pose proof (WriteAll_spill_nonempty (map snd cs)
                  (NewBufferedWriteCloser mb mm) []
                  (WInv_fresh mb mm Hmm0) (config_ok_fresh mb mm Hmb Hmm)
                  (spill_nonempty_fresh mb mm)) as Hne.
    assert (Hb0 : Z.of_nat (@List.length byte []) + total (map snd cs) < 2 ^ 63)
      by (simpl; lia).
    specialize (Hne Hb0).
    rewrite <- (writes_of_ok cs Hok), HW in Hne. simpl in Hne.
    unfold has_disk, disk_data in *.
    destruct (diskBuffer b) as [f|] eqn:Hd; [|discriminate].
    assert (Hf : data f <> []) by (apply Hne; exact Hd).
    destruct (data f); [congruence|]. simpl in Hdisk. lia.
  - intros Hpos. rewrite Hmb' in Hceil. specialize (Hceil Hpos).
    rewrite <- Hdat, length_app in Hceil. lia.
Qed.

Lemma write_invariant_witness :
  Z.of_nat
    (List.length
       (memoryBuffer
          (fst (fst (WriteAll (writes [hello; world])
                       (NewBufferedWriteCloser 12 10)))))) <= 10 /\
  (0 < 12 ->
   memBytesWritten
     (fst (fst (WriteAll (writes [hello; world])
                  (NewBufferedWriteCloser 12 10))))
   + diskBytesWritten
       (fst (fst (WriteAll (writes [hello; world])
                    (NewBufferedWriteCloser 12 10)))) <= 12).
Proof.
  pose proof (write_invariant 12 10 (writes [hello; world]) 2) as H.
  simpl firstn in H.
  destruct H as ((Hm & _) & _ & _ & Hc).
  - unfold int64_range. lia.
  - unfold int64_range. lia.
  - lia.
  - vm_compute. reflexivity.
  - split; [exact Hm|exact Hc].
Defined.

(** ** Frame properties, in any state *)

Ltac break_match :=
  match goal with
  | |- context [match ?x with _ => _ end] => destruct x eqn:?
  | H : context [match ?x with _ => _ end] |- _ => destruct x eqn:?
  end.

Ltac invert_pairs :=
  repeat match goal with
         | H : (_, _) = (_, _) |- _ => inversion H; clear H; subst
         end.

Ltac cases :=
  try solve [invert_pairs; congruence];
  repeat (break_match; simpl in *; subst; invert_pairs; simpl in *;
          try congruence).

Ltac unfold_Write :=
  unfold Write, writeToDisk, writeToMemory, createSpill, File_Write in *.

Lemma Write_reader (os : OS) (p : list byte) (b : Buffer) :
  reader (fst (fst (Write os p b))) = reader b.
Proof. unfold_Write. cases. Qed.

Lemma Write_overflowed (os : OS) (p : list byte) (b : Buffer) :
  overflowed b = true -> overflowed (fst (fst (Write os p b))) = true.
Proof. intros H. unfold_Write. cases. Qed.

(** [Write] reports the write-after-read error exactly when a reader
    is installed. *)
Lemma Write_after_read_iff (os : OS) (p : list byte) (b : Buffer) :
  (exists n, snd (fst (Write os p b)) = Returns n (Some ErrWriteAfterRead))
  <-> reader b <> None.
Proof.
  split.
  - intros [n H] Hr. unfold_Write. rewrite Hr in H. cases.
  - intros Hr. exists 0. unfold Write. destruct (reader b); [reflexivity|].
    congruence.
Qed.

(** With no reader installed, [Write] reports the size error exactly
    when the ceiling check fires. *)
Lemma Write_size_error_iff (os : OS) (p : list byte) (b : Buffer) :
  reader b = None ->
  ((exists n, snd (fst (Write os p b))
              = Returns n (Some ErrMaximumSizeExceeded))
   <-> (maxBytes b >? 0) &&
       (wrap64 (wrap64 (memBytesWritten b + diskBytesWritten b)
                + Z.of_nat (List.length p)) >? maxBytes b) = true).
Proof.
  intros Hr. split.
  - intros [n H]. unfold_Write. rewrite Hr in H.
    destruct ((maxBytes b >? 0) && _); [reflexivity|]. cases.
  - intros Hc. exists 0. unfold Write. rewrite Hr, Hc. reflexivity.
Qed.

Lemma Write_limits (os : OS) (p : list byte) (b : Buffer) :
  maxBytes (fst (fst (Write os p b))) = maxBytes b /\
  maxMemBytes (fst (fst (Write os p b))) = maxMemBytes b.
Proof. unfold_Write. split; cases. Qed.

Lemma kept_refl (b : Buffer) : kept b b.
Proof. repeat split. Qed.

Lemma kept_trans (b1 b2 b3 : Buffer) : kept b1 b2 -> kept b2 b3 -> kept b1 b3.
Proof. unfold kept. intuition congruence. Qed.

Lemma source_Read_kept (n : nat) (s : source) (b : Buffer) :
  kept b (fst (fst (source_Read n s b))) /\
  reader (fst (fst (source_Read n s b))) = reader b.
Proof.
  unfold kept, source_Read, bytes_Buffer_Read, File_Read.
  destruct s; cases; auto.
Qed.

Lemma MultiReader_Read_kept (n : nat) (readers : list source) :
  forall b, kept b (fst (fst (fst (MultiReader_Read n readers b)))).
Proof.
  induction readers as [|r rest IH]; intros b.
  - apply kept_refl.
  - simpl. destruct (source_Read_kept n r b) as [Hk _].
    destruct (source_Read n r b) as [[b1 got] err]. simpl in Hk.
    destruct ((0 <? List.length got)%nat || negb (is_EOF err)).
    + exact Hk.
    + apply (kept_trans _ _ _ Hk), IH.
Qed.

Lemma source_WriteTo_kept (s : source) (b : Buffer) :
  kept b (fst (fst (source_WriteTo s b))).
Proof. unfold kept, source_WriteTo. destruct s; cases; auto. Qed.

Lemma MultiReader_WriteTo_kept (readers : list source) :
  forall b, kept b (fst (fst (fst (MultiReader_WriteTo readers b)))).
Proof.
  induction readers as [|r rest IH]; intros b.
  - apply kept_refl.
  - simpl. pose proof (source_WriteTo_kept r b) as Hk.
    destruct (source_WriteTo r b) as [[b1 got] err]. simpl in Hk.
    destruct err.
    + exact Hk.
    + specialize (IH b1).
      destruct (MultiReader_WriteTo rest b1) as [[[b2 rs] got'] err'].
      simpl in *. apply (kept_trans _ _ _ Hk), IH.
Qed.

Lemma setReader_kept (b : Buffer) : kept b (setReader b).
Proof. unfold kept, setReader. cases; auto. Qed.

Lemma Read_kept (n : nat) (b : Buffer) : kept b (fst (fst (Read n b))).
Proof.
  unfold Read, reader_Read. apply (kept_trans _ _ _ (setReader_kept b)).
  destruct (reader (setReader b)) as [[|readers]|].
  - apply source_Read_kept.
  - pose proof (MultiReader_Read_kept n readers (setReader b)) as H.
    destruct (MultiReader_Read n readers (setReader b)) as [[[b1 rs] got] err].
    exact H.
  - apply kept_refl.
Qed.

Lemma Send_kept (b : Buffer) : kept b (fst (fst (Send b))).
Proof.
  unfold Send. apply (kept_trans _ _ _ (setReader_kept b)).
  destruct (reader (setReader b)) as [[|readers]|].
  - apply source_WriteTo_kept.
  - pose proof (MultiReader_WriteTo_kept readers (setReader b)) as H.
    destruct (MultiReader_WriteTo readers (setReader b)) as [[[b1 rs] got] err].
    exact H.
  - apply kept_refl.
Qed.

Lemma Close_kept (b : Buffer) :
  kept b (fst (fst (Close b))) /\ reader (fst (fst (Close b))) = reader b.
Proof. unfold kept, Close, discardSpill. cases; auto. Qed.

Lemma Read_reader (n : nat) (b : Buffer) :
  reader (fst (fst (Read n b))) <> None.
Proof.
  unfold Read, reader_Read. pose proof (setReader_set b) as Hs.
  destruct (reader (setReader b)) as [[|readers]|] eqn:Hr.
  - destruct (source_Read_kept n Memory (setReader b)) as [_ ->]. congruence.
  - destruct (MultiReader_Read n readers (setReader b)) as [[[b1 rs] got] err].
    simpl. discriminate.
  - congruence.
Qed.

Lemma Send_reader (b : Buffer) : reader (fst (fst (Send b))) <> None.
Proof.
  unfold Send. pose proof (setReader_set b) as Hs.
  destruct (reader (setReader b)) as [[|readers]|] eqn:Hr.
  - simpl. rewrite Hr. discriminate.
  - destruct (MultiReader_WriteTo readers (setReader b)) as [[[b1 rs] got] err].
    simpl. discriminate.
  - congruence.
Qed.

(** No call lowers the overflow flag or changes a limit. *)
Lemma step_sticky (c : Call) (b : Buffer) :
  (overflowed b = true -> overflowed (step c b) = true) /\
  maxBytes (step c b) = maxBytes b /\
  maxMemBytes (step c b) = maxMemBytes b.
Proof.
  destruct c as [os p|n| |]; simpl.
  - destruct (Write_limits os p b). auto using Write_overflowed.
  - destruct (Read_kept n b) as (-> & -> & ->). auto.
  - destruct (Send_kept b) as (-> & -> & ->). auto.
  - destruct (Close_kept b) as [(-> & -> & ->) _]. auto.
Qed.

Lemma run_sticky (cs : list Call) :
  forall b,
    (overflowed b = true -> overflowed (run cs b) = true) /\
    maxBytes (run cs b) = maxBytes b /\
    maxMemBytes (run cs b) = maxMemBytes b.
Proof.
  induction cs as [|c cs IH]; intros b.
  - simpl. auto.
  - simpl. change (fold_left (fun b c => step c b) cs (step c b))
      with (run cs (step c b)).
    destruct (IH (step c b)) as (Ho & -> & ->).
    destruct (step_sticky c b) as (Ho' & -> & ->). auto.
Qed.

Lemma step_reader (c : Call) (b : Buffer) :
  reader (step c b) <> None <-> reader b <> None \/ is_read c = true.
Proof.
  destruct c as [os p|n| |]; simpl.
  - rewrite Write_reader. intuition congruence.
  - pose proof (Read_reader n b). intuition.
  - pose proof (Send_reader b). intuition.
  - destruct (Close_kept b) as [_ ->]. intuition congruence.
Qed.

Lemma run_reader (cs : list Call) :
  forall b,
    reader (run cs b) <> None <->
    reader b <> None \/ existsb is_read cs = true.
Proof.
  induction cs as [|c cs IH]; intros b.
  - simpl. intuition congruence.
  - simpl. change (fold_left (fun b c => step c b) cs (step c b))
      with (run cs (step c b)).
    rewrite IH, step_reader, orb_true_iff. tauto.
Qed.

(** C6.  A [Write] call fails with the write-after-read error if and
    only if a read pass has begun on the buffer, that is, a [Read] or a
    [Send] occurs among the calls made so far; whatever the limits, the
    calls before and the behaviour of the operating system.  Before any
    read, [Write] never returns that error. *)
Theorem write_after_read_iff_read_begun :
  forall (mb mm : Z) (cs : list Call) (os : OS) (p : list byte),
    (exists n,
       snd (fst (Write os p (run cs (NewBufferedWriteCloser mb mm))))
       = Returns n (Some ErrWriteAfterRead))
    <-> existsb is_read cs = true.
Proof.
  intros mb mm cs os p.
  rewrite Write_after_read_iff, run_reader. simpl.
  intuition congruence.
Qed.

(** C1 (as the claim states it) fails: the flag is sticky, the refusal
    is not.  With [maxBytes = 10]: six bytes are taken, six more are
    refused with the size error and raise the flag, and then a write of
    one byte -- 7 bytes in all -- is taken although the flag is up. *)
Lemma sticky_overflow_counterexample :
  snd (fst (Write os_ok hello (NewBufferedWriteCloser 10 10)))
  = Returns 6 None /\
  snd (fst (Write os_ok world six_of_ten))
  = Returns 0 (Some ErrMaximumSizeExceeded) /\
  Overflowed (fst (fst (Write os_ok world six_of_ten))) = true /\
  snd (fst (Write os_ok one_byte (fst (fst (Write os_ok world six_of_ten)))))
  = Returns 1 None /\
  memoryBuffer
    (fst (fst (Write os_ok one_byte
                 (fst (fst (Write os_ok world six_of_ten))))))
  = list_byte_of_string "hello x".
Proof.
  vm_compute. repeat split; reflexivity.
Qed.

(** C1, amended.  Once a [Write] has failed with the size-exceeded
    error (which takes a positive [maxBytes] and reports 0 bytes), the
    overflow flag is true and stays true for the rest of the buffer's
    lifetime, through every later [Write], [Read], [Send] and [Close].
    The flag does not close the buffer: a later [Write], while no read
    has begun, fails with the size-exceeded error exactly when its own
    length added to the bytes already written exceeds [maxBytes]. *)
Theorem overflow_flag_is_sticky :
  forall (b : Buffer) (os : OS) (p : list byte)
         (b1 : Buffer) (n : Z) (ev : list Event),
    Write os p b = (b1, Returns n (Some ErrMaximumSizeExceeded), ev) ->
    0 < maxBytes b /\ n = 0 /\
    Overflowed b1 = true /\
    (forall cs, Overflowed (run cs b1) = true) /\
    (forall cs os' q,
       let b2 := run cs b1 in
       reader b2 = None ->
       int64_range (memBytesWritten b2 + diskBytesWritten b2) ->
       int64_range (memBytesWritten b2 + diskBytesWritten b2
                    + Z.of_nat (List.length q)) ->
       ((exists n', snd (fst (Write os' q b2))
                    = Returns n' (Some ErrMaximumSizeExceeded))
        <-> maxBytes b < memBytesWritten b2 + diskBytesWritten b2
                         + Z.of_nat (List.length q))).
Proof.
  intros b os p b1 n ev HW.
  assert (Hfacts : 0 < maxBytes b /\ n = 0 /\ overflowed b1 = true /\
                   maxBytes b1 = maxBytes b).
  { unfold_Write.
    destruct (reader b); [cases|].
    destruct (maxBytes b >? 0) eqn:Hpos; simpl in HW.
    - apply Z.gtb_lt in Hpos.
      destruct (_ >? maxBytes b); [|cases].
      injection HW as <- <- <-. auto.
    - cases. }
  destruct Hfacts as (Hpos & Hn & Ho & Hmb).
  split; [exact Hpos|]. split; [exact Hn|]. split; [exact Ho|].
  split.
  - intros cs. apply run_sticky. exact Ho.
  - intros cs os' q b2 Hr Hw1 Hw2.
    assert (Hmb2 : maxBytes b2 = maxBytes b).
    { unfold b2. destruct (run_sticky cs b1) as (_ & -> & _). exact Hmb. }
    rewrite (Write_size_error_iff os' q b2 Hr).
    rewrite (wrap64_id _ Hw1), (wrap64_id _ Hw2), Hmb2.
    rewrite andb_true_iff, Z.gtb_lt, Z.gtb_lt. tauto.
Qed.

Lemma overflow_flag_is_sticky_witness :
  Overflowed
    (run [CallWrite os_ok one_byte; CallRead 4; CallClose]
       (set_overflowed six_of_ten)) = true /\
  ((exists n',
      snd (fst (Write os_ok world
                  (run [CallWrite os_ok one_byte] (set_overflowed six_of_ten))))
      = Returns n' (Some ErrMaximumSizeExceeded))
   <-> maxBytes six_of_ten
       < memBytesWritten
           (run [CallWrite os_ok one_byte] (set_overflowed six_of_ten))
         + diskBytesWritten
             (run [CallWrite os_ok one_byte] (set_overflowed six_of_ten))
         + Z.of_nat (List.length world)).
Proof.
  destruct (overflow_flag_is_sticky six_of_ten os_ok world
              (set_overflowed six_of_ten) 0 [])
    as (_ & _ & _ & Hrun & Hlater).
  - vm_compute. reflexivity.
  - split.
    + apply Hrun.
    + apply (Hlater [CallWrite os_ok one_byte] os_ok world).
      * vm_compute. reflexivity.
      * vm_compute. split; [discriminate|reflexivity].
      * vm_compute. split; [discriminate|reflexivity].
Defined.

(** C3 (as the claim states it) fails in two ways.  A negative
    [maxBytes] is nonzero, yet it is no ceiling: the write is taken.
    And once a read has begun, a write over the ceiling fails with the
    write-after-read error, not with the size error. *)
Lemma write_over_ceiling_counterexample :
  (maxBytes negative_ceiling = -1 /\
   memBytesWritten negative_ceiling + diskBytesWritten negative_ceiling
   + Z.of_nat (List.length one_byte) = 1 /\
   snd (fst (Write os_ok one_byte negative_ceiling)) = Returns 1 None) /\
  (maxBytes six_of_ten_read = 10 /\
   memBytesWritten six_of_ten_read + diskBytesWritten six_of_ten_read
   + Z.of_nat (List.length world) = 12 /\
   snd (fst (Write os_ok world six_of_ten_read))
   = Returns 0 (Some ErrWriteAfterRead)).
Proof.
  vm_compute. repeat split; reflexivity.
Qed.

(** C3, amended.  For every buffer with a positive [maxBytes] and every
    [Write] call whose length added to the bytes already written
    exceeds [maxBytes], the call fails as a whole: it reports 0 bytes,
    touches no file, and leaves the memory region, the disk region and
    the two counters as they were.  The error is the
    maximum-size-exceeded error (and the overflow flag is raised) when
    no read has begun, and the write-after-read error otherwise. *)
Theorem write_over_ceiling_is_atomic :
  forall (os : OS) (p : list byte) (b : Buffer),
    0 < maxBytes b ->
    int64_range (memBytesWritten b + diskBytesWritten b) ->
    int64_range (memBytesWritten b + diskBytesWritten b
                 + Z.of_nat (List.length p)) ->
    maxBytes b < memBytesWritten b + diskBytesWritten b
                 + Z.of_nat (List.length p) ->
    exists b',
      Write os p b =
        (b',
         Returns 0 (Some (match reader b with
                          | None => ErrMaximumSizeExceeded
                          | Some _ => ErrWriteAfterRead
                          end)),
         []) /\
      memoryBuffer b' = memoryBuffer b /\
      diskBuffer b' = diskBuffer b /\
      memBytesWritten b' = memBytesWritten b /\
      diskBytesWritten b' = diskBytesWritten b /\
      reader b' = reader b /\
      (reader b = None -> Overflowed b' = true).
Proof.
  intros os p b Hpos Hw1 Hw2 Hover. unfold Write.
  destruct (reader b) eqn:Hr.
  - exists b. repeat split; auto. discriminate.
  - rewrite (wrap64_id _ Hw1), (wrap64_id _ Hw2).
    replace (maxBytes b >? 0) with true by (symmetry; apply Z.gtb_lt; lia).
    replace (_ >? maxBytes b) with true by (symmetry; apply Z.gtb_lt; lia).
    exists (set_overflowed b). repeat split; auto.
Qed.

Lemma write_over_ceiling_is_atomic_witness :
  exists b',
    Write os_ok world six_of_ten_spilled
      = (b', Returns 0 (Some ErrMaximumSizeExceeded), []) /\
    memoryBuffer b' = list_byte_of_string "hell" /\
    disk_data b' = list_byte_of_string "o ".
Proof.
  destruct (write_over_ceiling_is_atomic os_ok world six_of_ten_spilled)
    as (b' & HW & Hm & Hd & _).
  - vm_compute. reflexivity.
  - vm_compute. split; [discriminate|reflexivity].
  - vm_compute. split; [discriminate|reflexivity].
  - vm_compute. reflexivity.
  - exists b'. split; [exact HW|].
    unfold disk_data. rewrite Hm, Hd. vm_compute. split; reflexivity.
Defined.

(** ** Properties of the rollout controller *)

Import Rollout.

Lemma fnv32a_Write_range (p : list ascii) :
  forall h, uint32_range h -> uint32_range (fnv32a_Write h p).
Proof.
  induction p as [|c p IH]; intros h Hh.
  - exact Hh.
  - simpl. apply IH. unfold fnv32a_byte, wrap32, uint32_range.
    apply Z.mod_pos_bound. lia.
Qed.

Lemma hashForValue_range (value : string) : uint32_range (hashForValue value).
Proof.
  apply fnv32a_Write_range. unfold uint32_range, offset32. lia.
Qed.

Lemma valueInAllowlist_In (rc : RolloutController) (value : string) :
  valueInAllowlist rc value = true <-> In value (Allowlist rc).
Proof.
  unfold valueInAllowlist. rewrite existsb_exists. split.
  - intros (x & Hin & Heq). apply String.eqb_eq in Heq. subst. exact Hin.
  - intros Hin. exists value. split; [exact Hin|apply String.eqb_refl].
Qed.

Lemma split_point_zero (allowlist : list string) :
  PercentageSplitPoint (NewRolloutController 0 allowlist) = F64.zero.
Proof. reflexivity. Qed.

(** C4 (as the claim states it) fails: at [percentage = 0] the split
    point is [0.0] and the comparison is [hash <= split point], so an
    identifier whose hash is 0 is in the rollout group.  The cookie
    value [akhnp9x] is such an identifier. *)
Lemma percentage_zero_counterexample :
  hashForValue "akhnp9x" = 0 /\
  valueInAllowlist (NewRolloutController 0 []) "akhnp9x" = false /\
  RequestUsesRolloutGroup (NewRolloutController 0 []) (request_with "akhnp9x")
  = true.
Proof.
  vm_compute. repeat split; reflexivity.
Qed.

(** C4, amended.  For every controller constructed with
    [percentage = 0] and every request whose identifier is not in the
    allow-list, the decision is true exactly when the identifier is not
    empty and its FNV-1a hash is 0; in particular it is false for every
    identifier whose hash is not 0. *)
Theorem percentage_zero_admits_only_hash_zero :
  forall (allowlist : list string) (r : Request),
    ~ In (splitValue r) allowlist ->
    RequestUsesRolloutGroup (NewRolloutController 0 allowlist) r
    = negb (String.eqb (splitValue r) EmptyString)
      && (hashForValue (splitValue r) =? 0).
Proof.
  intros allowlist r Hnot.
  unfold RequestUsesRolloutGroup.
  destruct (String.eqb (splitValue r) EmptyString); [reflexivity|].
  destruct (valueInAllowlist (NewRolloutController 0 allowlist) (splitValue r))
    eqn:Hal.
  - apply valueInAllowlist_In in Hal. contradiction.
  - unfold valueInRolloutPercentage. rewrite split_point_zero.
    apply of_uint32_leb_zero, hashForValue_range.
Qed.

Lemma percentage_zero_admits_only_hash_zero_witness :
  RequestUsesRolloutGroup (NewRolloutController 0 ["vip-client"%string])
    (request_with "someone") = false.
Proof.
  rewrite (percentage_zero_admits_only_hash_zero ["vip-client"%string]
             (request_with "someone")).
  - vm_compute. reflexivity.
  - vm_compute. intros [H|[]]. discriminate H.
Defined.

(** C8 (as the claim states it) fails for the empty identifier: listed
    in the allow-list and carried by the rollout cookie, it is still
    refused, at any percentage. *)
Lemma allowlist_counterexample :
  In EmptyString (Allowlist (NewRolloutController 100 [EmptyString])) /\
  splitValue (request_with EmptyString) = EmptyString /\
  RequestUsesRolloutGroup (NewRolloutController 100 [EmptyString])
    (request_with EmptyString) = false.
Proof.
  split; [left; reflexivity|]. vm_compute. split; reflexivity.
Qed.

(** C8, amended.  For every controller -- whatever its percentage and
    its split point -- and every non-empty identifier present in its
    allow-list, the decision is true for a request carrying that
    identifier: the membership check comes before the hash comparison
    and decides alone. *)
Theorem allowlisted_identifier_is_in_rollout :
  forall (rc : RolloutController) (r : Request),
    splitValue r <> EmptyString ->
    In (splitValue r) (Allowlist rc) ->
    RequestUsesRolloutGroup rc r = true.
Proof.
  intros rc r Hne Hin. unfold RequestUsesRolloutGroup.
  destruct (String.eqb_spec (splitValue r) EmptyString) as [He|_].
  - contradiction.
  - apply valueInAllowlist_In in Hin. rewrite Hin. reflexivity.
Qed.

Lemma allowlisted_identifier_is_in_rollout_witness :
  RequestUsesRolloutGroup (NewRolloutController 0 ["vip-client"%string])
    (request_with "vip-client") = true.
Proof.
  apply (allowlisted_identifier_is_in_rollout
           (NewRolloutController 0 ["vip-client"%string])
           (request_with "vip-client")).
  - vm_compute. discriminate.
  - vm_compute. left. reflexivity.
Defined.

(** *** Goroutines on one controller *)

Lemma advance_reads_only (rc : RolloutController) (f : Serve.Frame) :
  fst (Serve.advance rc f) = rc.
Proof.
  destruct f as [r|value [|x s]|hasher [|c data]|hash|result]; simpl;
    try reflexivity.
  - destruct (String.eqb (splitValue r) EmptyString); reflexivity.
  - destruct (String.eqb value x); reflexivity.
Qed.

(** A step moves along the call: the result it leads to is the one
    the frame led to. *)
Lemma advance_outcome (rc : RolloutController) (f : Serve.Frame) :
  Serve.outcome rc (snd (Serve.advance rc f)) = Serve.outcome rc f.
Proof.
  destruct f as [r|value [|x s]|hasher [|c data]|hash|result]; simpl;
    try reflexivity.
  - unfold RequestUsesRolloutGroup, valueInAllowlist.
    destruct (String.eqb (splitValue r) EmptyString); reflexivity.
  - destruct (String.eqb value x); reflexivity.
Qed.

Lemma length_list_ascii_of_string (s : string) :
  List.length (list_ascii_of_string s) = String.length s.
Proof.
  induction s as [|c s IH]; simpl; [reflexivity|]. rewrite IH. reflexivity.
Qed.

Lemma advance_steps_left (rc : RolloutController) (f : Serve.Frame) :
  (Serve.steps_left rc (snd (Serve.advance rc f))
   <= pred (Serve.steps_left rc f))%nat.
Proof.
  destruct f as [r|value [|x s]|hasher [|c data]|hash|result]; simpl;
    try lia.
  - destruct (String.eqb (splitValue r) EmptyString); simpl; lia.
  - rewrite length_list_ascii_of_string. lia.
  - destruct (String.eqb value x); simpl; lia.
Qed.

Lemma advances_outcome (n : nat) (rc : RolloutController) :
  forall f, Serve.outcome rc (Serve.advances n rc f) = Serve.outcome rc f.
Proof.
  induction n as [|n IH]; intros f; simpl; [reflexivity|].
  rewrite IH. apply advance_outcome.
Qed.

Lemma advances_steps_left (n : nat) (rc : RolloutController) :
  forall f,
    (Serve.steps_left rc (Serve.advances n rc f)
     <= Serve.steps_left rc f - n)%nat.
Proof.
  induction n as [|n IH]; intros f; simpl; [lia|].
  pose proof (IH (snd (Serve.advance rc f))) as H.
  pose proof (advance_steps_left rc f). lia.
Qed.

(** Enough steps bring a goroutine to its result. *)
Lemma advances_returned (n : nat) (rc : RolloutController) (f : Serve.Frame) :
  (Serve.steps_left rc f <= n)%nat ->
  Serve.advances n rc f = Serve.Returned (Serve.outcome rc f).
Proof.
  intros Hn. pose proof (advances_steps_left n rc f) as Hl.
  pose proof (advances_outcome n rc f) as Ho.
  destruct (Serve.advances n rc f); simpl in Hl; try lia.
  simpl in Ho. rewrite Ho. reflexivity.
Qed.

Lemma nth_error_replace (i j : nat) (f : Serve.Frame) :
  forall gs,
    nth_error (Serve.replace i f gs) j
    = if Nat.eqb i j then option_map (fun _ => f) (nth_error gs j)
      else nth_error gs j.
Proof.
  revert j. induction i as [|i IH]; intros j [|g gs]; destruct j as [|j];
    simpl; try reflexivity.
  - destruct (Nat.eqb i j); reflexivity.
  - apply IH.
Qed.

(** The goroutines do not interfere: after any schedule the controller
    is the one the process started with, and each goroutine is where
    its own steps, as many as the schedule gave it, take it. *)
Lemma serve_goroutine (schedule : list nat) :
  forall (p : Serve.Process),
    Serve.controller (Serve.serve schedule p) = Serve.controller p /\
    forall i,
      nth_error (Serve.goroutines (Serve.serve schedule p)) i
      = option_map
          (Serve.advances (count_occ Nat.eq_dec schedule i)
             (Serve.controller p))
          (nth_error (Serve.goroutines p) i).
Proof.
  induction schedule as [|k schedule IH]; intros p.
  - split; [reflexivity|]. intros i. simpl.
    destruct (nth_error (Serve.goroutines p) i); reflexivity.
  - change (Serve.serve (k :: schedule) p)
      with (Serve.serve schedule (Serve.run_goroutine k p)).
    destruct (IH (Serve.run_goroutine k p)) as (Hc & Hg).
    assert (Hk : Serve.controller (Serve.run_goroutine k p)
                 = Serve.controller p).
    { unfold Serve.run_goroutine.
      destruct (nth_error (Serve.goroutines p) k) as [f|]; [|reflexivity].
      pose proof (advance_reads_only (Serve.controller p) f) as H.
      destruct (Serve.advance (Serve.controller p) f) as [rc f'].
      exact H. }
    split; [congruence|].
    intros i. rewrite Hg, Hk. simpl count_occ.
    unfold Serve.run_goroutine.
    destruct (nth_error (Serve.goroutines p) k) as [f|] eqn:Hf.
    + destruct (Serve.advance (Serve.controller p) f) as [rc f'] eqn:Ha.
      cbn [Serve.goroutines]. rewrite nth_error_replace.
      destruct (Nat.eq_dec k i) as [->|Hne].
      * rewrite Nat.eqb_refl, Hf. simpl. rewrite Ha. reflexivity.
      * replace (Nat.eqb k i) with false
          by (symmetry; apply Nat.eqb_neq; exact Hne).
        reflexivity.
    + destruct (Nat.eq_dec k i) as [->|Hne]; [|reflexivity].
      rewrite Hf. reflexivity.
Qed.

(** What a goroutine answers is the result of the call. *)
Lemma answer_is_the_decision (schedule : list nat) (percentage : Z)
      (allowlist : list string) (requests : list Request) (i : nat)
      (r : Request) :
  nth_error requests i = Some r ->
  (forall d,
      Serve.answer (Serve.serve schedule
                      (Serve.start percentage allowlist requests)) i
      = Some d ->
      d = RequestUsesRolloutGroup (NewRolloutController percentage allowlist) r)
  /\
  ((Serve.steps_needed allowlist r <= count_occ Nat.eq_dec schedule i)%nat ->
   Serve.answer (Serve.serve schedule
                   (Serve.start percentage allowlist requests)) i
   = Some (RequestUsesRolloutGroup
             (NewRolloutController percentage allowlist) r)).
Proof.
  intros Hr.
  destruct (serve_goroutine schedule
              (Serve.start percentage allowlist requests)) as (_ & Hg).
  unfold Serve.answer. rewrite (Hg i).
  unfold Serve.start. cbn [Serve.goroutines Serve.controller].
  rewrite nth_error_map, Hr. cbn [option_map].
  set (rc := NewRolloutController percentage allowlist).
  set (n := count_occ Nat.eq_dec schedule i).
  split.
  - intros d Hd.
    pose proof (advances_outcome n rc (Serve.Called r)) as Ho.
    destruct (Serve.advances n rc (Serve.Called r)); try discriminate.
    injection Hd as <-. exact Ho.
  - intros Hn.
    rewrite (advances_returned n rc (Serve.Called r)) by exact Hn.
    reflexivity.
Qed.

Lemma decision_of_identifier (rc : RolloutController) (r : Request) :
  RequestUsesRolloutGroup rc r
  = RequestUsesRolloutGroup rc (request_with (splitValue r)).
Proof.
  unfold RequestUsesRolloutGroup.
  replace (splitValue (request_with (splitValue r))) with (splitValue r)
    by reflexivity.
  reflexivity.
Qed.

(** C9.  The decision is a function of the percentage, the allow-list
    and the identifier, in every evaluation.  Take two process runs
    that construct their controller from the same percentage and
    allow-list; each serves its own requests, every request in a
    goroutine of its own, the steps of the goroutines interleaved by
    any schedule.  Then the controller is never changed; two goroutines,
    of one run or of the two, whose requests carry the same identifier
    never give different answers; and a goroutine that has been given
    enough steps has answered, with the decision for a request that
    carries that identifier and nothing else.  The hasher of a call is
    its own and starts from the offset basis of FNV-1a, so that the
    calls cannot disturb each other. *)
Theorem every_evaluation_gives_the_same_decision :
  forall (percentage : Z) (allowlist : list string)
         (requests1 requests2 : list Request)
         (schedule1 schedule2 : list nat)
         (i j : nat) (r1 r2 : Request),
    nth_error requests1 i = Some r1 ->
    nth_error requests2 j = Some r2 ->
    splitValue r1 = splitValue r2 ->
    Serve.controller
      (Serve.serve schedule1 (Serve.start percentage allowlist requests1))
    = NewRolloutController percentage allowlist /\
    (forall d1 d2,
        Serve.answer
          (Serve.serve schedule1 (Serve.start percentage allowlist requests1))
          i = Some d1 ->
        Serve.answer
          (Serve.serve schedule2 (Serve.start percentage allowlist requests2))
          j = Some d2 ->
        d1 = d2) /\
    ((Serve.steps_needed allowlist r1
      <= count_occ Nat.eq_dec schedule1 i)%nat ->
     Serve.answer
       (Serve.serve schedule1 (Serve.start percentage allowlist requests1)) i
     = Some (RequestUsesRolloutGroup
               (NewRolloutController percentage allowlist)
               (request_with (splitValue r1)))).
Proof.
  intros percentage allowlist requests1 requests2 schedule1 schedule2
         i j r1 r2 H1 H2 Hsame.
  destruct (serve_goroutine schedule1
              (Serve.start percentage allowlist requests1)) as (Hc & _).
  destruct (answer_is_the_decision schedule1 percentage allowlist requests1
              i r1 H1) as (Hd1 & Hn1).
  destruct (answer_is_the_decision schedule2 percentage allowlist requests2
              j r2 H2) as (Hd2 & _).
  split; [exact Hc|]. split.
  - intros d1 d2 Ha1 Ha2.
    rewrite (Hd1 d1 Ha1), (Hd2 d2 Ha2).
    rewrite (decision_of_identifier _ r1), (decision_of_identifier _ r2).
    rewrite Hsame. reflexivity.
  - intros Hn. rewrite (Hn1 Hn), <- decision_of_identifier. reflexivity.
Qed.

Lemma every_evaluation_gives_the_same_decision_witness :
  Serve.answer
    (Serve.serve alternating
       (Serve.start 50 ["vip-client"%string]
          [plain_request; busy_request; request_with "other"])) 1
  = Some (RequestUsesRolloutGroup
            (NewRolloutController 50 ["vip-client"%string])
            (request_with (splitValue busy_request))).
Proof.
  destruct (every_evaluation_gives_the_same_decision 50 ["vip-client"%string]
              [plain_request; busy_request; request_with "other"]
              [plain_request] alternating alone 1 0
              busy_request plain_request)
    as (_ & _ & H).
  - reflexivity.
  - reflexivity.
  - reflexivity.
  - apply H. apply Nat.leb_le. vm_compute. reflexivity.
Defined.

(** C10.  When the rollout cookie is absent, or present with an empty
    value, the decision is false, for every controller: even if the
    empty string is in the allow-list and even at [percentage = 100]. *)
Theorem empty_identifier_is_never_in_rollout :
  forall (rc : RolloutController) (r : Request),
    (Request_Cookie r RolloutCookieName = inr ErrNoCookie \/
     exists cookie,
       Request_Cookie r RolloutCookieName = inl cookie /\
       Value cookie = EmptyString) ->
    RequestUsesRolloutGroup rc r = false.
Proof.
  intros rc r H. unfold RequestUsesRolloutGroup, splitValue.
  destruct H as [-> | (cookie & -> & ->)]; reflexivity.
Qed.

Lemma empty_identifier_is_never_in_rollout_witness :
  RequestUsesRolloutGroup (NewRolloutController 100 [EmptyString])
    {| Method := "GET"; URL := "/"; Cookies := [] |} = false /\
  RequestUsesRolloutGroup (NewRolloutController 100 [EmptyString])
    (request_with EmptyString) = false.
Proof.
  split.
  - apply (empty_identifier_is_never_in_rollout
             (NewRolloutController 100 [EmptyString])
             {| Method := "GET"; URL := "/"; Cookies := [] |}).
    left. vm_compute. reflexivity.
  - apply (empty_identifier_is_never_in_rollout
             (NewRolloutController 100 [EmptyString])
             (request_with EmptyString)).
    right. eexists. split; vm_compute; reflexivity.
Defined.

(** ** Further properties of the buffer *)

Lemma Write_closeOnce (os : OS) (p : list byte) (b : Buffer) :
  closeOnce (fst (fst (Write os p b))) = closeOnce b.
Proof. unfold_Write. cases. Qed.

Lemma Write_no_remove (os : OS) (p : list byte) (b : Buffer) :
  removes (snd (Write os p b)) = 0%nat.
Proof. unfold_Write. cases; reflexivity. Qed.

Lemma Write_raises_flag (os : OS) (p : list byte) (b : Buffer) :
  overflowed (fst (fst (Write os p b)))
  = overflowed b || is_size_error (snd (fst (Write os p b))).
Proof.
  unfold_Write.
  cases; rewrite ?orb_false_r, ?orb_true_r; reflexivity.
Qed.

Lemma untouched_refl (b : Buffer) : untouched b b.
Proof. repeat split. Qed.

Lemma untouched_trans (b1 b2 b3 : Buffer) :
  untouched b1 b2 -> untouched b2 b3 -> untouched b1 b3.
Proof. unfold untouched. intuition congruence. Qed.

Lemma source_Read_untouched (n : nat) (s : source) (b : Buffer) :
  untouched b (fst (fst (source_Read n s b))).
Proof.
  unfold untouched, has_disk, source_Read, bytes_Buffer_Read, File_Read.
  destruct s; cases; auto.
Qed.

Lemma MultiReader_Read_untouched (n : nat) (readers : list source) :
  forall b, untouched b (fst (fst (fst (MultiReader_Read n readers b)))).
Proof.
  induction readers as [|r rest IH]; intros b.
  - apply untouched_refl.
  - simpl. pose proof (source_Read_untouched n r b) as Hk.
    destruct (source_Read n r b) as [[b1 got] err]. simpl in Hk.
    destruct ((0 <? List.length got)%nat || negb (is_EOF err)).
    + exact Hk.
    + apply (untouched_trans _ _ _ Hk), IH.
Qed.

Lemma source_WriteTo_untouched (s : source) (b : Buffer) :
  untouched b (fst (fst (source_WriteTo s b))).
Proof.
  unfold untouched, has_disk, source_WriteTo. destruct s; cases; auto.
Qed.

Lemma MultiReader_WriteTo_untouched (readers : list source) :
  forall b, untouched b (fst (fst (fst (MultiReader_WriteTo readers b)))).
Proof.
  induction readers as [|r rest IH]; intros b.
  - apply untouched_refl.
  - simpl. pose proof (source_WriteTo_untouched r b) as Hk.
    destruct (source_WriteTo r b) as [[b1 got] err]. simpl in Hk.
    destruct err.
    + exact Hk.
    + specialize (IH b1).
      destruct (MultiReader_WriteTo rest b1) as [[[b2 rs] got'] err'].
      simpl in *. apply (untouched_trans _ _ _ Hk), IH.
Qed.

Lemma setReader_untouched (b : Buffer) : untouched b (setReader b).
Proof. unfold untouched, has_disk, setReader. cases; auto. Qed.

Lemma Read_untouched (n : nat) (b : Buffer) :
  untouched b (fst (fst (Read n b))).
Proof.
  unfold Read, reader_Read.
  apply (untouched_trans _ _ _ (setReader_untouched b)).
  destruct (reader (setReader b)) as [[|readers]|].
  - apply source_Read_untouched.
  - pose proof (MultiReader_Read_untouched n readers (setReader b)) as H.
    destruct (MultiReader_Read n readers (setReader b)) as [[[b1 rs] got] err].
    exact H.
  - apply untouched_refl.
Qed.

Lemma Send_untouched (b : Buffer) : untouched b (fst (fst (Send b))).
Proof.
  unfold Send. apply (untouched_trans _ _ _ (setReader_untouched b)).
  destruct (reader (setReader b)) as [[|readers]|].
  - apply source_WriteTo_untouched.
  - pose proof (MultiReader_WriteTo_untouched readers (setReader b)) as H.
    destruct (MultiReader_WriteTo readers (setReader b)) as [[[b1 rs] got] err].
    exact H.
  - apply untouched_refl.
Qed.

(** A [Write] creates a temporary file only when there is none, and
    then there is one. *)
Lemma Write_spills (os : OS) (p : list byte) (b : Buffer) :
  (has_disk b = true -> has_disk (fst (fst (Write os p b))) = true) /\
  spills (snd (Write os p b))
  = (if negb (has_disk b) && has_disk (fst (fst (Write os p b)))
     then 1%nat else 0%nat).
Proof.
  unfold has_disk. unfold_Write. split; cases; reflexivity.
Qed.

Lemma Close_effect (b : Buffer) :
  closeOnce (fst (fst (Close b))) = true /\
  has_disk (fst (fst (Close b))) = has_disk b /\
  spills (snd (Close b)) = 0%nat /\
  removes (snd (Close b))
  = (if negb (closeOnce b) && has_disk b then 1%nat else 0%nat).
Proof.
  unfold has_disk, Close, discardSpill. cases; auto.
Qed.

Lemma spills_app (e1 e2 : list Event) :
  spills (e1 ++ e2) = (spills e1 + spills e2)%nat.
Proof. unfold spills. rewrite filter_app, length_app. reflexivity. Qed.

Lemma removes_app (e1 e2 : list Event) :
  removes (e1 ++ e2) = (removes e1 + removes e2)%nat.
Proof. unfold removes. rewrite filter_app, length_app. reflexivity. Qed.

(** One call: what it does to the temporary files. *)
Lemma step_log_files (c : Call) (b : Buffer) :
  let b' := fst (fst (step_log c b)) in
  let evs := snd (fst (step_log c b)) in
  (has_disk b = true -> has_disk b' = true) /\
  (closeOnce b = true -> closeOnce b' = true) /\
  spills evs = (if negb (has_disk b) && has_disk b' then 1%nat else 0%nat) /\
  removes evs
  = (if negb (closeOnce b) && closeOnce b' && has_disk b'
     then 1%nat else 0%nat) /\
  (closeOnce b' = false -> closeOnce b = false).
Proof.
  destruct c as [os p|n| |]; simpl.
  - destruct (Write_spills os p b) as [Hd Hs].
    pose proof (Write_closeOnce os p b) as Hc.
    pose proof (Write_no_remove os p b) as Hr.
    destruct (Write os p b) as [[b1 r] ev]. simpl in *.
    rewrite Hc, Hr, Hs.
    destruct (closeOnce b); simpl; auto.
  - destruct (Read_untouched n b) as (Hc & Hd & _).
    rewrite Hc, Hd.
    destruct (closeOnce b), (has_disk b); simpl; auto.
  - destruct (Send_untouched b) as (Hc & Hd & _).
    rewrite Hc, Hd.
    destruct (closeOnce b), (has_disk b); simpl; auto.
  - destruct (Close_effect b) as (Hc & Hd & Hs & Hr).
    destruct (Close b) as [[b1 e] ev]. simpl in *.
    rewrite Hc, Hd, Hs, Hr.
    destruct (closeOnce b), (has_disk b); simpl; auto.
Qed.

Lemma step_log_state (c : Call) (b : Buffer) :
  fst (fst (step_log c b)) = step c b.
Proof.
  destruct c as [os p|n| |]; simpl; try reflexivity.
  - destruct (Write os p b) as [[b1 r] ev]. reflexivity.
  - destruct (Close b) as [[b1 e] ev]. reflexivity.
Qed.

Lemma run_log_cons (c : Call) (cs : list Call) (b : Buffer) :
  run_log (c :: cs) b
  = (fst (fst (run_log cs (step c b))),
     snd (fst (step_log c b)) ++ snd (fst (run_log cs (step c b))),
     snd (step_log c b) ++ snd (run_log cs (step c b))).
Proof.
  simpl. rewrite <- step_log_state.
  destruct (step_log c b) as [[b1 ev] rs]. simpl.
  destruct (run_log cs b1) as [[b2 evs] rss]. reflexivity.
Qed.

Lemma run_log_app (cs1 cs2 : list Call) :
  forall b,
    run_log (cs1 ++ cs2) b
    = (fst (fst (run_log cs2 (run cs1 b))),
       snd (fst (run_log cs1 b)) ++ snd (fst (run_log cs2 (run cs1 b))),
       snd (run_log cs1 b) ++ snd (run_log cs2 (run cs1 b))).
Proof.
  induction cs1 as [|c cs1 IH]; intros b.
  - simpl. destruct (run_log cs2 b) as [[b2 evs] rss]. reflexivity.
  - rewrite <- app_comm_cons, !run_log_cons, IH. simpl.
    rewrite !app_assoc. reflexivity.
Qed.

(** A history of calls: what it does to the temporary files. *)
Lemma run_log_files (cs : list Call) :
  forall b,
    let b' := run cs b in
    let evs := snd (fst (run_log cs b)) in
    (has_disk b = true -> has_disk b' = true) /\
    (closeOnce b = true -> closeOnce b' = true) /\
    spills evs = (if negb (has_disk b) && has_disk b' then 1%nat else 0%nat) /\
    (removes evs
     <= (if negb (closeOnce b) && closeOnce b' && has_disk b'
         then 1 else 0))%nat.
Proof.
  induction cs as [|c cs IH]; intros b.
  - cbn. repeat split; auto.
    + destruct (has_disk b); reflexivity.
    + destruct (closeOnce b), (has_disk b); simpl; lia.
  - rewrite run_log_cons. cbn [fst snd].
    change (run (c :: cs) b) with (run cs (step c b)).
    pose proof (step_log_files c b) as Hstep. cbn zeta in Hstep.
    rewrite step_log_state in Hstep.
    destruct Hstep as (Hd1 & Hc1 & Hs1 & Hr1 & _).
    destruct (IH (step c b)) as (Hd2 & Hc2 & Hs2 & Hr2).
    rewrite spills_app, removes_app, Hs1, Hs2, Hr1.
    destruct (has_disk b) eqn:D0, (has_disk (step c b)) eqn:D1,
             (has_disk (run cs (step c b))) eqn:D2,
             (closeOnce b) eqn:C0, (closeOnce (step c b)) eqn:C1,
             (closeOnce (run cs (step c b))) eqn:C2;
      simpl in *;
      try (specialize (Hd1 eq_refl)); try (specialize (Hd2 eq_refl));
      try (specialize (Hc1 eq_refl)); try (specialize (Hc2 eq_refl));
      try discriminate; repeat split; auto; try lia.
Qed.

(** X1: the temporary files of a buffer.  Over any history of calls on
    a new buffer, whatever the limits and the operating system: at most
    one temporary file is created, and a file is removed at most once
    and only after it has been created. *)
Theorem temporary_file_lifecycle :
  forall (mb mm : Z) (cs : list Call),
    (spills (snd (fst (run_log cs (NewBufferedWriteCloser mb mm)))) <= 1)%nat /\
    (removes (snd (fst (run_log cs (NewBufferedWriteCloser mb mm))))
     <= spills (snd (fst (run_log cs (NewBufferedWriteCloser mb mm)))))%nat.
Proof.
  intros mb mm cs.
  destruct (run_log_files cs (NewBufferedWriteCloser mb mm))
    as (_ & _ & Hs & Hr).
  rewrite Hs. simpl in *.
  destruct (has_disk (run cs (NewBufferedWriteCloser mb mm)));
    destruct (closeOnce (run cs (NewBufferedWriteCloser mb mm)));
    simpl in *; lia.
Qed.

(** X2: [Close] works once.  When the first [Close] comes before the
    buffer has spilled, a spill file created by a later [Write] is never
    removed, by no later call. *)
Theorem spill_after_close_is_never_removed :
  forall (mb mm : Z) (cs1 cs2 : list Call),
    has_disk (run cs1 (NewBufferedWriteCloser mb mm)) = false ->
    removes
      (snd (fst (run_log (cs1 ++ CallClose :: cs2)
                   (NewBufferedWriteCloser mb mm)))) = 0%nat.
Proof.
  intros mb mm cs1 cs2 Hnd.
  rewrite run_log_app. cbn [fst snd]. rewrite run_log_cons. cbn [fst snd].
  set (b0 := NewBufferedWriteCloser mb mm) in *.
  destruct (run_log_files cs1 b0) as (_ & _ & _ & Hr1).
  cbn zeta in Hr1. rewrite Hnd, andb_false_r in Hr1.
  pose proof (step_log_files CallClose (run cs1 b0)) as Hstep.
  cbn zeta in Hstep. rewrite step_log_state in Hstep.
  destruct Hstep as (_ & _ & _ & Hr2 & _).
  destruct (Close_effect (run cs1 b0)) as (Hc & Hd & _).
  change (fst (fst (Close (run cs1 b0)))) with (step CallClose (run cs1 b0))
    in Hc, Hd.
  rewrite Hd, Hnd, andb_false_r in Hr2.
  destruct (run_log_files cs2 (step CallClose (run cs1 b0)))
    as (_ & _ & _ & Hr3).
  cbn zeta in Hr3. rewrite Hc in Hr3. cbn [negb andb] in Hr3.
  rewrite !removes_app. lia.
Qed.

Lemma spill_after_close_is_never_removed_witness :
  removes
    (snd (fst (run_log ([] ++ CallClose :: [CallWrite os_ok hello; CallClose])
                 (NewBufferedWriteCloser 0 2)))) = 0%nat /\
  spills
    (snd (fst (run_log ([] ++ CallClose :: [CallWrite os_ok hello; CallClose])
                 (NewBufferedWriteCloser 0 2)))) = 1%nat.
Proof.
  split.
  - apply (spill_after_close_is_never_removed 0 2 []
             [CallWrite os_ok hello; CallClose]).
    reflexivity.
  - vm_compute. reflexivity.
Defined.

Lemma step_log_flag (c : Call) (b : Buffer) :
  overflowed (step c b)
  = overflowed b || existsb is_size_error (snd (step_log c b)).
Proof.
  destruct c as [os p|n| |]; simpl.
  - rewrite Write_raises_flag.
    destruct (Write os p b) as [[b1 r] ev]. simpl.
    rewrite orb_false_r. reflexivity.
  - destruct (Read_kept n b) as (-> & _). rewrite orb_false_r. reflexivity.
  - destruct (Send_kept b) as (-> & _). rewrite orb_false_r. reflexivity.
  - destruct (Close_kept b) as [(-> & _) _].
    destruct (Close b) as [[b1 e] ev]. simpl.
    rewrite orb_false_r. reflexivity.
Qed.

Lemma run_log_flag (cs : list Call) :
  forall b,
    overflowed (run cs b)
    = overflowed b || existsb is_size_error (snd (run_log cs b)).
Proof.
  induction cs as [|c cs IH]; intros b.
  - simpl. rewrite orb_false_r. reflexivity.
  - rewrite run_log_cons. cbn [snd].
    change (run (c :: cs) b) with (run cs (step c b)).
    rewrite IH, step_log_flag, existsb_app, orb_assoc. reflexivity.
Qed.

(** X3: what [Overflowed] tells.  Over any history of calls on a new
    buffer, [Overflowed] is true exactly when one of the [Write] calls
    made so far has failed with the maximum-size error; no other
    failure (write after read, temporary file, disk) sets it. *)
Theorem overflowed_iff_a_write_was_too_large :
  forall (mb mm : Z) (cs : list Call),
    Overflowed (run cs (NewBufferedWriteCloser mb mm))
    = existsb is_size_error (snd (run_log cs (NewBufferedWriteCloser mb mm))).
Proof.
  intros mb mm cs. unfold Overflowed. rewrite run_log_flag. reflexivity.
Qed.

(** ** Further properties: writing, then reading *)

Lemma WriteAll_closeOnce (calls : list (OS * list byte)) :
  forall b, closeOnce (fst (fst (WriteAll calls b))) = closeOnce b.
Proof.
  induction calls as [|[os p] calls IH]; intros b.
  - reflexivity.
  - simpl. pose proof (Write_closeOnce os p b) as H.
    destruct (Write os p b) as [[b1 r] ev]. simpl in H.
    specialize (IH b1). destruct (WriteAll calls b1) as [[b2 rs] evs].
    simpl in *. congruence.
Qed.

Section AfterWrites.

Variables mb mm : Z.
Variable calls : list (OS * list byte).
Hypothesis Hmb : int64_range mb.
Hypothesis Hmm : int64_range mm.
Hypothesis Hmm0 : 0 <= mm.
Hypothesis Hbound : total (map snd calls) < 2 ^ 63.

Lemma written_buffer_inv :
  WInv (written_buffer mb mm calls) (written_bytes mb mm calls) /\
  Forall (fun r => r <> Panics)
    (snd (fst (WriteAll calls (NewBufferedWriteCloser mb mm)))) /\
  Z.of_nat (List.length (written_bytes mb mm calls)) <= total (map snd calls) /\
  maxBytes (written_buffer mb mm calls) = mb /\
  maxMemBytes (written_buffer mb mm calls) = mm /\
  closeOnce (written_buffer mb mm calls) = false.
Proof.
  unfold written_buffer, written_bytes.
  pose proof (WriteAll_closeOnce calls (NewBufferedWriteCloser mb mm)) as Hc.
  destruct (WriteAll_inv calls (NewBufferedWriteCloser mb mm) []
              (WInv_fresh mb mm Hmm0) (config_ok_fresh mb mm Hmb Hmm))
    as (b & rs & evs & HW & Hinv & Hmb' & Hmm' & Hlen & _ & Hnp & _).
  { simpl. lia. }
  rewrite HW in *. simpl in *. auto 10.
Qed.

End AfterWrites.

(** X4: what is reported written is what is read.  For every sequence
    of [Write] calls on a new buffer with [maxMemBytes >= 0] (fewer than
    [2^63] bytes offered), whatever the ceiling and whatever the
    operating system does -- refusals by the ceiling, a temporary file
    that cannot be created, short writes to the disk -- no call panics,
    and a full read, through [Send] or through [Read] calls of positive
    sizes, returns without error exactly the bytes that the calls
    reported as written, in order. *)
Theorem reported_bytes_are_read_back :
  forall (mb mm : Z) (calls : list (OS * list byte)),
    int64_range mb -> int64_range mm -> 0 <= mm ->
    total (map snd calls) < 2 ^ 63 ->
    Forall (fun r => r <> Panics)
      (snd (fst (WriteAll calls (NewBufferedWriteCloser mb mm)))) /\
    (exists b',
       Send (written_buffer mb mm calls)
       = (b', written_bytes mb mm calls, None)) /\
    (forall sizes,
       Forall (fun n => 0 < n)%nat sizes ->
       (List.length (written_bytes mb mm calls) < List.length sizes)%nat ->
       exists b',
         ReadAll sizes (written_buffer mb mm calls)
         = Some (b', written_bytes mb mm calls, None)).
Proof.
  intros mb mm calls Hmb Hmm Hmm0 Hbound.
  destruct (written_buffer_inv mb mm calls Hmb Hmm Hmm0 Hbound)
    as (Hinv & Hnp & _).
  split; [exact Hnp|]. split.
  - apply Send_after_writes. exact Hinv.
  - intros sizes Hpos Hlen. apply ReadAll_after_writes; assumption.
Qed.

Lemma reported_bytes_are_read_back_witness :
  exists b',
    Send (written_buffer 0 2 [(os_ok, one_byte); (disk_full, hello)])
    = (b', written_bytes 0 2 [(os_ok, one_byte); (disk_full, hello)], None).
Proof.
  destruct (reported_bytes_are_read_back 0 2
              [(os_ok, one_byte); (disk_full, hello)])
    as (_ & HS & _).
  - unfold int64_range. lia.
  - unfold int64_range. lia.
  - lia.
  - vm_compute. reflexivity.
  - exact HS.
Defined.

(** X5: a negative memory threshold.  On a new buffer with
    [maxMemBytes < 0], a [Write] that the ceiling lets pass creates the
    temporary file and then panics on the slice [p[:maxMemBytes]]:
    nothing is written, and the file stays behind. *)
Theorem negative_threshold_panics :
  forall (mb mm : Z) (os : OS) (p : list byte),
    int64_range mm -> mm < 0 ->
    Z.of_nat (List.length p) < 2 ^ 63 ->
    mb <= 0 \/ Z.of_nat (List.length p) <= mb ->
    createTemp_fault os = None ->
    Write os p (NewBufferedWriteCloser mb mm)
    = (set_disk (NewBufferedWriteCloser mb mm)
         (Some {| data := []; offset := 0; closed := false |}) 0,
       Panics, [CreateTemp]).
Proof.
  intros mb mm os p [Hlo Hhi] Hneg Hlen Hceil Hos.
  unfold Write.
  cbn [reader memBytesWritten diskBytesWritten maxBytes maxMemBytes
       diskBuffer NewBufferedWriteCloser].
  rewrite Z.add_0_l. unwrap64. rewrite Z.add_0_l.
  replace ((mb >? 0) && (Z.of_nat (List.length p) >? mb)) with false.
  2: { symmetry. apply andb_false_iff.
       destruct Hceil; [left|right]; rewrite Z.gtb_ltb; apply Z.ltb_ge; lia. }
  replace (Z.of_nat (List.length p) <=? mm) with false
    by (symmetry; apply Z.leb_gt; lia).
  unfold createSpill. rewrite Hos.
  cbn [memBytesWritten maxMemBytes set_disk NewBufferedWriteCloser
       diskBytesWritten].
  rewrite Z.sub_0_r. unwrap64.
  unfold slice_in_bounds.
  replace (0 <=? mm) with false by (symmetry; apply Z.leb_gt; lia).
  reflexivity.
Qed.

Lemma negative_threshold_panics_witness :
  Write os_ok one_byte (NewBufferedWriteCloser 0 (-1))
  = (set_disk (NewBufferedWriteCloser 0 (-1))
       (Some {| data := []; offset := 0; closed := false |}) 0,
     Panics, [CreateTemp]).
Proof.
  apply (negative_threshold_panics 0 (-1) os_ok one_byte).
  - unfold int64_range. lia.
  - lia.
  - vm_compute. reflexivity.
  - left. lia.
  - reflexivity.
Defined.

(** X6: the empty write.  On a buffer that has only been written to
    (from a new buffer with [maxMemBytes >= 0]), a [Write] of no byte
    succeeds with 0 and changes nothing: no refusal by the ceiling, no
    temporary file, whatever the operating system would do. *)
Theorem empty_write_changes_nothing :
  forall (mb mm : Z) (calls : list (OS * list byte)) (os : OS),
    int64_range mb -> int64_range mm -> 0 <= mm ->
    total (map snd calls) < 2 ^ 63 ->
    Write os [] (written_buffer mb mm calls)
    = (written_buffer mb mm calls, Returns 0 None, []).
Proof.
  intros mb mm calls os Hmb Hmm Hmm0 Hbound.
  destruct (written_buffer_inv mb mm calls Hmb Hmm Hmm0 Hbound)
    as (Hinv & _ & Hlen & Hmb' & Hmm' & _).
  set (b := written_buffer mb mm calls) in *.
  set (dat := written_bytes mb mm calls) in *.
  destruct Hinv as [Hr Hdat Hmem Hdisk Hle Hfile Hceil].
  assert (Hsum : Z.of_nat (List.length dat)
                 = memBytesWritten b + diskBytesWritten b).
  { rewrite <- Hdat, length_app. lia. }
  unfold Write. rewrite Hr. cbn [List.length Z.of_nat].
  rewrite !Z.add_0_r. unwrap64.
  replace ((maxBytes b >? 0) &&
           (memBytesWritten b + diskBytesWritten b >? maxBytes b)) with false.
  2: { symmetry. apply andb_false_iff.
       destruct (Z.ltb_spec 0 (maxBytes b)) as [Hpos|];
         [right|left]; rewrite Z.gtb_ltb; apply Z.ltb_ge; [|lia].
       specialize (Hceil Hpos). lia. }
  unfold disk_data in *.
  destruct (diskBuffer b) as [f|] eqn:Hd.
  - destruct (Hfile f eq_refl) as (Hoff & Hcl & _).
    unfold writeToDisk. rewrite Hd.
    destruct (File_Write_at_end os [] f Hcl Hoff) as (k & Hk & -> & _).
    simpl in Hk. assert (k = 0%nat) by lia. subst k.
    cbn [firstn Z.of_nat]. rewrite app_nil_r, Z.add_0_r. unwrap64.
    replace (match write_fault os with
             | Some (j, errno) =>
                 if (j <? @List.length byte [])%nat then Some (ErrOS errno)
                 else None
             | None => None
             end) with (@None error)
      by (destruct (write_fault os) as [[j e]|]; reflexivity).
    rewrite <- Hoff.
    replace {| data := data f; offset := offset f; closed := false |} with f
      by (destruct f; simpl in *; congruence).
    destruct b; simpl in *. subst. reflexivity.
  - replace (memBytesWritten b <=? maxMemBytes b) with true
      by (symmetry; apply Z.leb_le; lia).
    unfold writeToMemory. cbn [List.length Z.of_nat].
    rewrite app_nil_r, Z.add_0_r. unwrap64.
    destruct b; simpl in *. reflexivity.
Qed.

Lemma empty_write_changes_nothing_witness :
  Write disk_full [] (written_buffer 0 2 [(os_ok, hello)])
  = (written_buffer 0 2 [(os_ok, hello)], Returns 0 None, []).
Proof.
  apply (empty_write_changes_nothing 0 2 [(os_ok, hello)] disk_full).
  - unfold int64_range. lia.
  - unfold int64_range. lia.
  - lia.
  - vm_compute. reflexivity.
Defined.

(** [Send] hands over all that is left, and leaves nothing. *)
Lemma Send_RInv (b : Buffer) (rest : list byte) :
  RInv b rest -> exists b', Send b = (b', rest, None) /\ RInv b' [].
Proof.
  intros Hinv. unfold Send, setReader.
  destruct Hinv as [Hr | f Hr Hd Hcl | f Hr Hd Hcl | Hr];
    rewrite Hr; cbn; rewrite ?Hr; cbn.
  - eexists. split; [reflexivity|].
    exact (RInv_memory (set_memory b [] (memBytesWritten b)) Hr).
  - rewrite Hd, Hcl. cbn. rewrite app_nil_r.
    eexists. split; [reflexivity|]. apply RInv_done. reflexivity.
  - rewrite Hd, Hcl. cbn. rewrite app_nil_r.
    eexists. split; [reflexivity|]. apply RInv_done. reflexivity.
  - eexists. split; [reflexivity|]. apply RInv_done. reflexivity.
Qed.

Lemma ReadEach_RInv (sizes : list nat) :
  forall (b : Buffer) (rest : list byte),
    RInv b rest ->
    Forall (fun n => 0 < n)%nat sizes ->
    exists b' got rest',
      ReadEach sizes b = (b', got) /\ rest = got ++ rest' /\ RInv b' rest'.
Proof.
  induction sizes as [|n sizes IH]; intros b rest Hinv Hpos.
  - exists b, [], rest. auto.
  - inversion Hpos as [|? ? Hn Hpos']; subst.
    destruct (Read_step n b rest Hinv Hn) as (b1 & got & err & HR & Hcase).
    simpl. rewrite HR.
    destruct Hcase as [(-> & -> & -> & Hinv') |
                       (_ & _ & -> & rest' & -> & Hinv')].
    + destruct (IH b1 [] Hinv' Hpos') as (b2 & got2 & rest2 & -> & Hs & Hinv2).
      exists b2, got2, rest2. auto.
    + destruct (IH b1 rest' Hinv' Hpos') as (b2 & got2 & rest2 & -> & -> & Hinv2).
      exists b2, (got ++ got2), rest2. rewrite app_assoc. auto.
Qed.





(** X8: reading in pieces, then sending the rest.  [Read] calls of any
    positive sizes followed by a [Send] deliver every written byte
    exactly once and in order: what the reads returned, followed by
    what [Send] hands over, is what was written, and [Send] reports no
    error. *)
Theorem reads_then_send_deliver_once :
  forall (mb mm : Z) (calls : list (OS * list byte)) (sizes : list nat),
    int64_range mb -> int64_range mm -> 0 <= mm ->
    total (map snd calls) < 2 ^ 63 ->
    Forall (fun n => 0 < n)%nat sizes ->
    snd (ReadEach sizes (written_buffer mb mm calls))
    ++ snd (fst (Send (fst (ReadEach sizes (written_buffer mb mm calls)))))
    = written_bytes mb mm calls /\
    snd (Send (fst (ReadEach sizes (written_buffer mb mm calls)))) = None.
Proof.
  intros mb mm calls sizes Hmb Hmm Hmm0 Hbound Hpos.
  destruct (written_buffer_inv mb mm calls Hmb Hmm Hmm0 Hbound)
    as (Hinv & _).
  pose proof (setReader_RInv _ _ Hinv) as HR.
  destruct sizes as [|n sizes].
  - simpl. destruct (Send_after_writes _ _ Hinv) as (b2 & ->). auto.
  - destruct (ReadEach_RInv (n :: sizes) _ _ HR Hpos)
      as (b1 & got & rest & HRE & Hsplit & Hinv1).
    assert (HRE' : ReadEach (n :: sizes) (written_buffer mb mm calls)
                   = (b1, got)).
    { simpl in *. unfold Read in *. rewrite setReader_idem in HRE.
      exact HRE. }
    rewrite HRE'. cbn [fst snd].
    destruct (Send_RInv b1 rest Hinv1) as (b2 & -> & _). auto.
Qed.

Lemma reads_then_send_deliver_once_witness :
  snd (ReadEach [4%nat; 4%nat] (written_buffer 0 10 (writes [hello; world])))
  ++ snd (fst (Send (fst (ReadEach [4%nat; 4%nat]
                            (written_buffer 0 10 (writes [hello; world]))))))
  = written_bytes 0 10 (writes [hello; world]).
Proof.
  destruct (reads_then_send_deliver_once 0 10 (writes [hello; world])
              [4%nat; 4%nat])
    as (H & _).
  - unfold int64_range. lia.
  - unfold int64_range. lia.
  - lia.
  - vm_compute. reflexivity.
  - repeat constructor.
  - exact H.
Defined.

(** X9: use after [Close].  When the buffer has spilled, [Close] removes
    the temporary file, once.  After it, a [Send] delivers only the
    bytes held in memory (the first [maxMemBytes] written) and fails
    with the closed-file error, and a [Write] that the ceiling lets pass
    writes nothing and fails with the closed-file error. *)
Theorem spilled_bytes_are_lost_on_close :
  forall (mb mm : Z) (calls : list (OS * list byte)),
    int64_range mb -> int64_range mm -> 0 <= mm ->
    total (map snd calls) < 2 ^ 63 ->
    has_disk (written_buffer mb mm calls) = true ->
    snd (Close (written_buffer mb mm calls)) = [Remove] /\
    snd (fst (Send (fst (fst (Close (written_buffer mb mm calls))))))
    = firstn (Z.to_nat mm) (written_bytes mb mm calls) /\
    snd (Send (fst (fst (Close (written_buffer mb mm calls)))))
    = Some ErrClosed /\
    forall (os : OS) (p : list byte),
      Z.of_nat (List.length (written_bytes mb mm calls))
      + Z.of_nat (List.length p) < 2 ^ 63 ->
      (0 < mb ->
       Z.of_nat (List.length (written_bytes mb mm calls))
       + Z.of_nat (List.length p) <= mb) ->
      snd (fst (Write os p (fst (fst (Close (written_buffer mb mm calls))))))
      = Returns 0 (Some ErrClosed).
Proof.
  intros mb mm calls Hmb Hmm Hmm0 Hbound Hhd.
  destruct (written_buffer_inv mb mm calls Hmb Hmm Hmm0 Hbound)
    as (Hinv & _ & Hlen & Hmb' & Hmm' & Hco).
  destruct (WInv_layout _ _ Hinv) as (Hlm & _). rewrite Hmm' in Hlm.
  set (b := written_buffer mb mm calls) in *.
  set (dat := written_bytes mb mm calls) in *.
  destruct Hinv as [Hr Hdat Hmem Hdisk Hle Hfile Hceil].
  unfold has_disk, disk_data in *.
  destruct (diskBuffer b) as [f|] eqn:Hd; [|discriminate].
  destruct (Hfile f eq_refl) as (Hoff & Hcl & Hfull).
  assert (Hsum : Z.of_nat (List.length dat)
                 = memBytesWritten b + diskBytesWritten b).
  { rewrite <- Hdat, length_app. lia. }
  unfold Close, discardSpill. rewrite Hco, Hd. cbn [fst snd].
  split; [reflexivity|].
  split; [|split].
  - unfold Send, setReader. cbn. rewrite Hr. cbn.
    rewrite app_nil_r. exact Hlm.
  - unfold Send, setReader. cbn. rewrite Hr. cbn. reflexivity.
  - intros os p Hb Hc.
    unfold Write. cbn. rewrite Hr. unwrap64.
    replace ((maxBytes b >? 0) &&
             (memBytesWritten b + diskBytesWritten b
              + Z.of_nat (List.length p) >? maxBytes b)) with false.
    2: { symmetry. apply andb_false_iff.
         destruct (Z.ltb_spec 0 (maxBytes b)) as [Hpos|];
           [right|left]; rewrite Z.gtb_ltb; apply Z.ltb_ge; lia. }
    reflexivity.
Qed.

Lemma spilled_bytes_are_lost_on_close_witness :
  snd (fst (Send (fst (fst (Close (written_buffer 0 10
                                     (writes [hello; world])))))))
  = firstn (Z.to_nat 10) (written_bytes 0 10 (writes [hello; world])).
Proof.
  destruct (spilled_bytes_are_lost_on_close 0 10 (writes [hello; world]))
    as (_ & H & _).
  - unfold int64_range. lia.
  - unfold int64_range. lia.
  - lia.
  - vm_compute. reflexivity.
  - vm_compute. reflexivity.
  - exact H.
Defined.

(** ** Properties of [NewBufferedReadCloser] and of the middleware *)

Lemma copy_write_taken (os : OS) (chunk : list byte) (b b1 : Buffer)
      (ev : list Event) :
  Write os chunk b = (b1, taken chunk, ev) ->
  copy_write os chunk b
  = (b1, Some (Z.of_nat (List.length chunk), None), ev).
Proof.
  intros HW. unfold copy_write, taken in *. rewrite HW.
  replace (Z.of_nat (List.length chunk) <? 0) with false
    by (symmetry; apply Z.ltb_ge; lia).
  rewrite Z.ltb_irrefl, Z.eqb_refl. reflexivity.
Qed.

(** A well-behaved source whose chunks fit under the ceiling is copied
    whole, on a working operating system; then comes the rest. *)
Lemma io_Copy_fitting (chunks : list (list byte)) (tail : list Pull) :
  forall (b : Buffer) (dat : list byte) (w : Z),
    WInv b dat -> config_ok b -> spill_nonempty b ->
    Z.of_nat (List.length dat) + total chunks < 2 ^ 63 ->
    (0 < maxBytes b ->
     Z.of_nat (List.length dat) + total chunks <= maxBytes b) ->
    exists b' w' evs,
      io_Copy (body_of chunks ++ tail) b w
      = (fst (fst (io_Copy tail b' w')),
         snd (fst (io_Copy tail b' w')),
         evs ++ snd (io_Copy tail b' w')) /\
      WInv b' (dat ++ List.concat chunks) /\
      config_ok b' /\ spill_nonempty b' /\
      maxBytes b' = maxBytes b /\ maxMemBytes b' = maxMemBytes b /\
      closeOnce b' = closeOnce b /\
      removes evs = 0%nat /\
      spills evs = (if negb (has_disk b) && has_disk b' then 1%nat else 0%nat) /\
      (has_disk b = true -> has_disk b' = true) /\
      overflowed b' = overflowed b.
Proof.
  induction chunks as [|c chunks IH]; intros b dat w Hinv Hcfg Hne Hbound Hceil.
  - exists b, w, []. simpl. rewrite app_nil_r.
    destruct (io_Copy tail b w) as [[b2 r] evs2]. simpl.
    split; [reflexivity|]. split; [exact Hinv|].
    repeat split; auto; try apply Hcfg.
    destruct (has_disk b); reflexivity.
  - rewrite total_cons in *.
    pose proof (total_nonneg chunks) as Hnn.
    simpl body_of. rewrite <- app_comm_cons.
    cbn [io_Copy during bytes_read read_err].
    destruct (Z.ltb_spec 0 (Z.of_nat (List.length c))) as [Hpos|Hzero].
    + destruct (Write_ok c b dat Hinv Hcfg Hne) as (b1 & ev & HW & Hne1 & _);
        [lia|].
      assert (Hex : exceeds b c = false).
      { unfold exceeds. apply andb_false_iff.
        destruct (Z.ltb_spec 0 (maxBytes b)) as [Hp|]; [right|left; reflexivity].
        apply Z.ltb_ge. specialize (Hceil Hp).
        pose proof (inv_data _ _ Hinv) as Hdat.
        pose proof (inv_mem _ _ Hinv) as Hmem.
        pose proof (inv_disk _ _ Hinv) as Hdisk.
        rewrite <- Hdat, length_app in Hceil. lia. }
      rewrite Hex in HW.
      destruct (Write_inv os_ok c b dat Hinv Hcfg) as
        (b1' & n & err & ev' & HW' & _ & Hinv1 & Hmb1 & Hmm1 & Hd1 & Hs1 & _);
        [lia|].
      rewrite HW in HW'. injection HW' as <- <- <- <-.
      rewrite Nat2Z.id, firstn_all in Hinv1.
      pose proof (Write_closeOnce os_ok c b) as Hc1.
      pose proof (Write_no_remove os_ok c b) as Hr1.
      pose proof (Write_raises_flag os_ok c b) as Ho1.
      rewrite HW in Hc1, Hr1, Ho1. simpl in Hc1, Hr1, Ho1.
      rewrite orb_false_r in Ho1.
      rewrite (copy_write_taken os_ok c b b1 ev HW).
      destruct (IH b1 (dat ++ c) (wrap64 (w + Z.of_nat (List.length c))) Hinv1)
        as (b' & w' & evs & HC & Hinv' & Hcfg' & Hne' & Hmb' & Hmm' & Hc'
            & Hr' & Hs' & Hd' & Ho'); auto.
      { destruct Hcfg. split; congruence. }
      { rewrite length_app. lia. }
      { rewrite length_app, Hmb1. lia. }
      exists b', w', (ev ++ evs).
      rewrite HC. cbn [fst snd].
      split; [rewrite app_assoc; reflexivity|].
      split; [rewrite <- app_assoc in Hinv'; exact Hinv'|].
      split; [exact Hcfg'|]. split; [exact Hne'|].
      split; [congruence|]. split; [congruence|]. split; [congruence|].
      split; [rewrite removes_app; lia|].
      split; [|split; [auto|congruence]].
      rewrite spills_app, Hs1, Hs'.
      destruct (has_disk b) eqn:E, (has_disk b1) eqn:E1, (has_disk b') eqn:E';
        simpl; auto;
        try (specialize (Hd1 eq_refl)); try (specialize (Hd' eq_refl));
        congruence.
    + assert (Hc0 : c = []) by (destruct c; [reflexivity|simpl in Hzero; lia]).
      subst c. simpl in Hbound, Hceil.
      destruct (IH b dat w Hinv Hcfg Hne) as
        (b' & w' & evs & HC & Hinv' & Hrest); auto.
      exists b', w', evs. rewrite HC. cbn [fst snd app].
      split; [reflexivity|].
      split; [simpl; exact Hinv'|exact Hrest].
Qed.

Lemma copy_write_returns (os : OS) (p : list byte) (b b1 : Buffer)
      (n : Z) (e : option error) (ev : list Event) :
  Write os p b = (b1, Returns n e, ev) ->
  exists nw err, copy_write os p b = (b1, Some (nw, err), ev).
Proof.
  intros HW. unfold copy_write. rewrite HW. eexists. eexists. reflexivity.
Qed.

(** Whatever the source and the operating system do, [io.Copy] into a
    buffer returns, leaves a buffer in its write phase, creates at most
    one file and removes none. *)
Lemma io_Copy_inv (src : list Pull) :
  forall (b : Buffer) (dat : list byte) (w : Z),
    WInv b dat -> config_ok b ->
    Z.of_nat (List.length dat) + total (pulled src) < 2 ^ 63 ->
    exists b' w' err evs dat',
      io_Copy src b w = (b', Copied w' err, evs) /\
      WInv b' dat' /\
      closeOnce b' = closeOnce b /\
      maxBytes b' = maxBytes b /\ maxMemBytes b' = maxMemBytes b /\
      removes evs = 0%nat /\
      spills evs = (if negb (has_disk b) && has_disk b' then 1%nat else 0%nat) /\
      (has_disk b = true -> has_disk b' = true).
Proof.
  induction src as [|pull rest IH]; intros b dat w Hinv Hcfg Hbound.
  - exists b, w, None, [], dat. simpl.
    repeat (split; [solve [auto]|]).
    split; [|auto]. destruct (has_disk b); reflexivity.
  - unfold pulled in Hbound. simpl map in Hbound. rewrite total_cons in Hbound.
    fold (pulled rest) in Hbound.
    pose proof (total_nonneg (pulled rest)) as Hnn.
    assert (Hstay : exists b' w' err evs dat',
               (match read_err pull with
                | Some er =>
                    (b, Copied w (if is_EOF (Some er) then None
                                  else Some (FromCall er)), [])
                | None =>
                    let '(b2, r, evs) := io_Copy rest b w in (b2, r, [] ++ evs)
                end) = (b', Copied w' err, evs) /\
               WInv b' dat' /\
               closeOnce b' = closeOnce b /\
               maxBytes b' = maxBytes b /\ maxMemBytes b' = maxMemBytes b /\
               removes evs = 0%nat /\
               spills evs
               = (if negb (has_disk b) && has_disk b' then 1%nat else 0%nat) /\
               (has_disk b = true -> has_disk b' = true)).
    { destruct (read_err pull) as [er|].
      - eexists b, w, _, [], dat. split; [reflexivity|].
        repeat (split; [solve [auto]|]).
        split; [|auto]. destruct (has_disk b); reflexivity.
      - destruct (IH b dat w Hinv Hcfg) as
          (b' & w' & err & evs & dat' & HC & Hrest); [lia|].
        exists b', w', err, evs, dat'. rewrite HC. simpl.
        split; [reflexivity|exact Hrest]. }
    cbn [io_Copy].
    destruct (0 <? Z.of_nat (List.length (bytes_read pull))); [|exact Hstay].
    clear Hstay.
    destruct (Write_inv (during pull) (bytes_read pull) b dat Hinv Hcfg) as
      (b1 & n & e & ev & HW & Hn & Hinv1 & Hmb1 & Hmm1 & Hd1 & Hs1 & _);
      [lia|].
    pose proof (Write_closeOnce (during pull) (bytes_read pull) b) as Hc1.
    pose proof (Write_no_remove (during pull) (bytes_read pull) b) as Hr1.
    rewrite HW in Hc1, Hr1. simpl in Hc1, Hr1.
    destruct (copy_write_returns _ _ _ _ _ _ _ HW) as (nw & err & HCW).
    rewrite HCW.
    assert (Hhere : forall w' r,
               exists b' w'' err' evs dat',
                 (b1, Copied w' r, ev) = (b', Copied w'' err', evs) /\
                 WInv b' dat' /\
                 closeOnce b' = closeOnce b /\
                 maxBytes b' = maxBytes b /\ maxMemBytes b' = maxMemBytes b /\
                 removes evs = 0%nat /\
                 spills evs
                 = (if negb (has_disk b) && has_disk b' then 1%nat else 0%nat) /\
                 (has_disk b = true -> has_disk b' = true)).
    { intros w' r. exists b1, w', r, ev, (dat ++ firstn (Z.to_nat n) (bytes_read pull)).
      repeat (split; [solve [auto]|]). auto. }
    destruct err as [ce|]; [apply Hhere|].
    destruct (read_err pull) as [er|]; [apply Hhere|].
    destruct (IH b1 (dat ++ firstn (Z.to_nat n) (bytes_read pull))
                (wrap64 (w + nw)) Hinv1) as
      (b' & w' & err & evs & dat' & HC & Hinv' & Hc' & Hmb' & Hmm' & Hr'
       & Hs' & Hd').
    { destruct Hcfg. split; congruence. }
    { rewrite length_app, length_firstn. lia. }
    exists b', w', err, (ev ++ evs), dat'. rewrite HC.
    split; [reflexivity|]. split; [exact Hinv'|].
    split; [congruence|]. split; [congruence|]. split; [congruence|].
    split; [rewrite removes_app; lia|].
    split; [|auto].
    rewrite spills_app, Hs1, Hs'.
    destruct (has_disk b) eqn:E, (has_disk b1) eqn:E1, (has_disk b') eqn:E';
      simpl; auto;
      try (specialize (Hd1 eq_refl)); try (specialize (Hd' eq_refl));
      congruence.
Qed.

Lemma body_of_app (xs ys : list (list byte)) :
  body_of (xs ++ ys) = body_of xs ++ body_of ys.
Proof. unfold body_of. apply map_app. Qed.

(** The chunk that first brings the total above [mb]. *)
Lemma first_chunk_over (mb : Z) (chunks : list (list byte)) :
  0 <= mb < total chunks ->
  exists pre c post,
    chunks = pre ++ c :: post /\
    total pre <= mb < total pre + Z.of_nat (List.length c).
Proof.
  revert mb. induction chunks as [|c chunks IH]; intros mb H.
  - rewrite total_nil in H. lia.
  - rewrite total_cons in H.
    destruct (Z_lt_le_dec mb (Z.of_nat (List.length c))) as [Hlt|Hge].
    + exists [], c, chunks. rewrite total_nil. split; [reflexivity|lia].
    + destruct (IH (mb - Z.of_nat (List.length c))) as
        (pre & c' & post & -> & Hb); [lia|].
      exists (c :: pre), c', post. rewrite total_cons.
      split; [reflexivity|lia].
Qed.

(** When the temporary file cannot be created, the write that needed it
    takes no byte and leaves the buffer as it was. *)
Lemma Write_createTemp_fails (os : OS) (errno : nat) (p : list byte)
      (b : Buffer) (dat : list byte) :
  WInv b dat -> config_ok b ->
  has_disk b = false -> exceeds b p = false ->
  maxMemBytes b < Z.of_nat (List.length dat) + Z.of_nat (List.length p) ->
  Z.of_nat (List.length dat) + Z.of_nat (List.length p) < 2 ^ 63 ->
  createTemp_fault os = Some errno ->
  Write os p b = (b, Returns 0 (Some (ErrOS errno)), []).
Proof.
  intros [Hr Hdat Hmem Hdisk Hle Hfile Hceil] [Hmb Hmm] Hhd Hex Hover Hbound Hos.
  assert (Hlen : Z.of_nat (List.length dat) =
                 memBytesWritten b + diskBytesWritten b).
  { rewrite <- Hdat, length_app. lia. }
  unfold has_disk, disk_data in *.
  destruct (diskBuffer b) as [f|] eqn:Hd; [discriminate|].
  simpl in Hdisk.
  unfold int64_range in *.
  unfold Write, createSpill. rewrite Hr, Hd, Hos. unwrap64.
  unfold exceeds in Hex.
  replace (maxBytes b >? 0) with (0 <? maxBytes b)
    by (rewrite Z.gtb_ltb; reflexivity).
  replace (memBytesWritten b + diskBytesWritten b
           + Z.of_nat (List.length p) >? maxBytes b)
    with (maxBytes b <? memBytesWritten b + diskBytesWritten b
                        + Z.of_nat (List.length p))
    by (rewrite Z.gtb_ltb; reflexivity).
  rewrite Hex.
  replace (memBytesWritten b + Z.of_nat (List.length p) <=? maxMemBytes b)
    with false by (symmetry; apply Z.leb_gt; lia).
  reflexivity.
Qed.

Section Construction.

Variables mb mm : Z.
Hypothesis Hmb : int64_range mb.
Hypothesis Hmm : int64_range mm.
Hypothesis Hmm0 : 0 <= mm.

(** A well-behaved body that the ceiling lets pass is buffered whole. *)
Lemma NewBufferedReadCloser_fitting (chunks : list (list byte)) :
  total chunks < 2 ^ 63 ->
  (0 < mb -> total chunks <= mb) ->
  exists buf evs,
    NewBufferedReadCloser (body_of chunks) mb mm = (Ready buf, evs) /\
    WInv buf (List.concat chunks) /\
    maxBytes buf = mb /\ maxMemBytes buf = mm /\ closeOnce buf = false /\
    overflowed buf = false /\
    removes evs = 0%nat /\
    spills evs = (if total chunks <=? mm then 0%nat else 1%nat).
Proof.
  intros Hbound Hceil.
  destruct (io_Copy_fitting chunks [] (NewBufferedWriteCloser mb mm) [] 0
              (WInv_fresh mb mm Hmm0) (config_ok_fresh mb mm Hmb Hmm)
              (spill_nonempty_fresh mb mm))
    as (b' & w' & evs & HC & Hinv & _ & Hne & Hmb' & Hmm' & Hc' & Hr' & Hs'
        & _ & Ho');
    simpl; auto.
  rewrite app_nil_r in HC. simpl in HC, Hinv, Hmb', Hmm', Hc', Hs', Ho'.
  unfold NewBufferedReadCloser. rewrite HC. rewrite app_nil_r.
  exists b', evs. split; [reflexivity|]. split; [exact Hinv|].
  repeat (split; [assumption|]).
  rewrite Hs', (WInv_has_disk b' _ Hinv Hne), Hmm'. fold (total chunks).
  destruct (total chunks <=? mm); reflexivity.
Qed.

(** A well-behaved body larger than a positive ceiling is refused with
    the size error, and the file it may have created is removed. *)
Lemma NewBufferedReadCloser_too_large (chunks : list (list byte)) :
  total chunks < 2 ^ 63 ->
  0 < mb < total chunks ->
  exists evs,
    NewBufferedReadCloser (body_of chunks) mb mm
    = (Failed (FromCall ErrMaximumSizeExceeded), evs) /\
    removes evs = spills evs.
Proof.
  intros Hbound Hover.
  destruct (first_chunk_over mb chunks) as (pre & c & post & -> & Hsplit);
    [lia|].
  rewrite total_app, total_cons in Hbound.
  pose proof (total_nonneg post) as Hpost.
  pose proof (total_nonneg pre) as Hpre.
  destruct (io_Copy_fitting pre (body_of (c :: post))
              (NewBufferedWriteCloser mb mm) [] 0
              (WInv_fresh mb mm Hmm0) (config_ok_fresh mb mm Hmb Hmm)
              (spill_nonempty_fresh mb mm))
    as (b' & w' & evs & HC & Hinv & Hcfg & Hne & Hmb' & Hmm' & Hc' & Hr' & Hs' & _);
    simpl; try lia.
  simpl in Hinv, Hmb', Hmm', Hc', Hs'.
  assert (Hex : exceeds b' c = true).
  { unfold exceeds. rewrite Hmb'.
    pose proof (inv_data _ _ Hinv) as Hdat.
    pose proof (inv_mem _ _ Hinv) as Hmem.
    pose proof (inv_disk _ _ Hinv) as Hdisk.
    assert (memBytesWritten b' + diskBytesWritten b' = total pre).
    { unfold total. rewrite <- Hdat, length_app. lia. }
    apply andb_true_iff. split; apply Z.ltb_lt; lia. }
  destruct (Write_ok c b' _ Hinv Hcfg Hne) as (b1 & ev & HW & _ & Hsame).
  { fold (total pre). lia. }
  rewrite Hex in HW. destruct (Hsame Hex) as (-> & ->).
  assert (HT : io_Copy (body_of (c :: post)) b' w'
               = (set_overflowed b',
                  Copied (wrap64 (w' + 0))
                    (Some (FromCall ErrMaximumSizeExceeded)), [])).
  { simpl body_of. cbn [io_Copy during bytes_read read_err].
    replace (0 <? Z.of_nat (List.length c)) with true
      by (symmetry; apply Z.ltb_lt; lia).
    unfold copy_write. rewrite HW.
    replace (Z.of_nat (List.length c) <? 0) with false
      by (symmetry; apply Z.ltb_ge; lia).
    reflexivity. }
  rewrite HT in HC. cbn [fst snd] in HC.
  unfold NewBufferedReadCloser. rewrite body_of_app, HC.
  pose proof (Close_effect (set_overflowed b')) as (_ & _ & Hcs & Hcr).
  destruct (Close (set_overflowed b')) as [[b2 r2] ev2].
  eexists. split; [reflexivity|].
  simpl in Hcs, Hcr.
  rewrite !removes_app, !spills_app, Hr', Hs', Hcs, Hcr. simpl.
  change (closeOnce (set_overflowed b')) with (closeOnce b').
  change (has_disk (set_overflowed b')) with (has_disk b').
  rewrite Hc'. destruct (has_disk b'); reflexivity.
Qed.

End Construction.

(** X10: no temporary file outlives a failed construction.  Whatever the
    body's reads return and whatever the operating system does during
    the writes, [NewBufferedReadCloser] with a threshold that is not
    negative returns (it does not panic), creates at most one temporary
    file, removes none when it returns the buffer, and removes the one
    it created when it returns an error. *)
Theorem failed_construction_leaves_no_file :
  forall (src : list Pull) (mb mm : Z),
    int64_range mb -> int64_range mm -> 0 <= mm ->
    total (pulled src) < 2 ^ 63 ->
    fst (NewBufferedReadCloser src mb mm) <> ConstructPanics /\
    (spills (snd (NewBufferedReadCloser src mb mm)) <= 1)%nat /\
    removes (snd (NewBufferedReadCloser src mb mm))
    = match fst (NewBufferedReadCloser src mb mm) with
      | Ready _ => 0%nat
      | _ => spills (snd (NewBufferedReadCloser src mb mm))
      end.
Proof.
  intros src mb mm Hmb Hmm Hmm0 Hbound.
  destruct (io_Copy_inv src (NewBufferedWriteCloser mb mm) [] 0
              (WInv_fresh mb mm Hmm0) (config_ok_fresh mb mm Hmb Hmm))
    as (b' & w' & err & evs & dat' & HC & _ & Hc' & _ & _ & Hr' & Hs' & _);
    [simpl; lia|].
  simpl in Hc', Hs'.
  unfold NewBufferedReadCloser. rewrite HC.
  destruct err as [e|].
  - pose proof (Close_effect b') as (_ & _ & Hcs & Hcr).
    destruct (Close b') as [[b2 r2] ev2]. simpl in Hcs, Hcr. simpl.
    rewrite removes_app, spills_app, Hr', Hs', Hcs, Hcr, Hc'.
    split; [discriminate|].
    destruct (has_disk b'); simpl; split; auto.
  - simpl. rewrite Hr', Hs'.
    split; [discriminate|].
    destruct (has_disk b'); simpl; split; auto.
Qed.

Lemma failed_construction_leaves_no_file_witness :
  removes (snd (NewBufferedReadCloser body_on_full_disk 0 2))
  = match fst (NewBufferedReadCloser body_on_full_disk 0 2) with
    | Ready _ => 0%nat
    | _ => spills (snd (NewBufferedReadCloser body_on_full_disk 0 2))
    end.
Proof.
  destruct (failed_construction_leaves_no_file body_on_full_disk 0 2)
    as (_ & _ & H).
  - unfold int64_range. lia.
  - unfold int64_range. lia.
  - lia.
  - vm_compute. reflexivity.
  - exact H.
Defined.

(** X11: a body within the limits is buffered whole.  For a body whose
    reads deliver the chunks [chunks] without error, on a working
    operating system, with a threshold that is not negative and a
    ceiling that is not positive or not below the body's size,
    [NewBufferedReadCloser] returns a buffer with the given limits; it
    has created a temporary file exactly when the body is larger than
    the threshold; and reading the buffer, with [Send] or with [Read]
    calls of any positive sizes, gives the concatenation of the chunks
    in order. *)
Theorem body_within_limits_is_buffered_whole :
  forall (mb mm : Z) (chunks : list (list byte)),
    int64_range mb -> int64_range mm -> 0 <= mm ->
    total chunks < 2 ^ 63 ->
    (0 < mb -> total chunks <= mb) ->
    exists buf evs,
      NewBufferedReadCloser (body_of chunks) mb mm = (Ready buf, evs) /\
      maxBytes buf = mb /\ maxMemBytes buf = mm /\
      Overflowed buf = false /\
      spills evs = (if total chunks <=? mm then 0%nat else 1%nat) /\
      removes evs = 0%nat /\
      (exists b', Send buf = (b', List.concat chunks, None)) /\
      (forall sizes,
          Forall (fun n => 0 < n)%nat sizes ->
          (List.length (List.concat chunks) < List.length sizes)%nat ->
          exists b', ReadAll sizes buf = Some (b', List.concat chunks, None)).
Proof.
  intros mb mm chunks Hmb Hmm Hmm0 Hbound Hceil.
  destruct (NewBufferedReadCloser_fitting mb mm Hmb Hmm Hmm0 chunks Hbound Hceil)
    as (buf & evs & HN & Hinv & Hmb' & Hmm' & Hc & Ho & Hr & Hs).
  exists buf, evs. split; [exact HN|].
  split; [exact Hmb'|]. split; [exact Hmm'|].
  split; [exact Ho|].
  split; [exact Hs|]. split; [exact Hr|].
  split.
  - apply Send_after_writes. exact Hinv.
  - intros sizes Hpos Hlen. apply ReadAll_after_writes; assumption.
Qed.

Lemma body_within_limits_is_buffered_whole_witness :
  exists buf evs,
    NewBufferedReadCloser (body_of [hello; world]) 0 2 = (Ready buf, evs) /\
    spills evs = 1%nat /\
    exists b', Send buf = (b', hello ++ world, None).
Proof.
  destruct (body_within_limits_is_buffered_whole 0 2 [hello; world])
    as (buf & evs & HN & _ & _ & _ & Hs & _ & HS & _).
  - unfold int64_range. lia.
  - unfold int64_range. lia.
  - lia.
  - vm_compute. reflexivity.
  - lia.
  - exists buf, evs. split; [exact HN|]. split; [exact Hs|exact HS].
Defined.

(** Copying a well-behaved body and then more is copying the body
    and, if that went well, copying the rest. *)
Lemma io_Copy_body_app (chunks : list (list byte)) (tail : list Pull) :
  forall (b : Buffer) (w : Z),
    io_Copy (body_of chunks ++ tail) b w
    = match io_Copy (body_of chunks) b w with
      | (b', Copied w' None, evs) =>
          (fst (fst (io_Copy tail b' w')), snd (fst (io_Copy tail b' w')),
           evs ++ snd (io_Copy tail b' w'))
      | other => other
      end.
Proof.
  induction chunks as [|c chunks IH]; intros b w.
  - simpl. destruct (io_Copy tail b w) as [[b2 r] evs2]. reflexivity.
  - simpl body_of. rewrite <- app_comm_cons.
    cbn [io_Copy during bytes_read read_err].
    destruct (0 <? Z.of_nat (List.length c)).
    + destruct (copy_write os_ok c b) as [[b1 [[nw [e|]]|]] ev];
        try reflexivity.
      rewrite IH.
      destruct (io_Copy (body_of chunks) b1 (wrap64 (w + nw)))
        as [[b' [w' [e|]|]] evs]; try reflexivity.
      cbn [fst snd]. rewrite app_assoc. reflexivity.
    + rewrite IH.
      destruct (io_Copy (body_of chunks) b w)
        as [[b' [w' [e|]|]] evs]; try reflexivity.
Qed.

(** A read that returns its bytes together with an error ends the
    copy once the bytes are written. *)
Lemma io_Copy_last (os : OS) (c : list byte) (e : error) (rest : list Pull)
      (b b1 : Buffer) (w w1 : Z) (ev : list Event) :
  io_Copy [{| during := os; bytes_read := c; read_err := None |}] b w
  = (b1, Copied w1 None, ev) ->
  io_Copy ({| during := os; bytes_read := c; read_err := Some e |} :: rest) b w
  = (b1, Copied w1 (if is_EOF (Some e) then None else Some (FromCall e)), ev).
Proof.
  cbn [io_Copy during bytes_read read_err].
  destruct (0 <? Z.of_nat (List.length c)).
  - destruct (copy_write os c b) as [[b2 [[nw [e'|]]|]] ev2];
      try discriminate.
    intros H. injection H as <- <- <-. rewrite app_nil_r. reflexivity.
  - intros H. injection H as <- <- <-. reflexivity.
Qed.

Lemma no_events (evs : list Event) :
  spills evs = 0%nat -> removes evs = 0%nat -> evs = [].
Proof.
  destruct evs as [|[|] evs]; [reflexivity| |]; unfold spills, removes; simpl;
    discriminate.
Qed.

(** X12: which requests the middleware lets through.  For a request body
    whose reads deliver [chunks] without error, on a working operating
    system and with a threshold that is not negative, the middleware
    answers 413 "Request too large" exactly when the ceiling is positive
    and the body is larger than it, having removed the temporary file if
    it had created one; otherwise it calls the next handler with the
    buffer as body, from which the whole body is read back. *)
Theorem requests_over_the_ceiling_get_413 :
  forall (mm mb : Z) (chunks : list (list byte)),
    int64_range mb -> int64_range mm -> 0 <= mm ->
    total chunks < 2 ^ 63 ->
    if (0 <? mb) && (mb <? total chunks)
    then exists evs,
        Middleware.ServeHTTP (Middleware.WithRequestBufferMiddleware mm mb) (body_of chunks)
        = (Middleware.Responds Middleware.StatusRequestEntityTooLarge
             "Request too large", evs) /\
        removes evs = spills evs
    else exists buf evs b',
        Middleware.ServeHTTP (Middleware.WithRequestBufferMiddleware mm mb) (body_of chunks)
        = (Middleware.Next buf, evs) /\
        removes evs = 0%nat /\
        Send buf = (b', List.concat chunks, None).
Proof.
  intros mm mb chunks Hmb Hmm Hmm0 Hbound.
  unfold Middleware.ServeHTTP, Middleware.WithRequestBufferMiddleware.
  cbn [Middleware.maxBytes Middleware.maxMemBytes].
  destruct ((0 <? mb) && (mb <? total chunks)) eqn:Hc.
  - apply andb_true_iff in Hc. destruct Hc as [H1 H2].
    apply Z.ltb_lt in H1. apply Z.ltb_lt in H2.
    destruct (NewBufferedReadCloser_too_large mb mm Hmb Hmm Hmm0 chunks Hbound)
      as (evs & HN & Hev); [lia|].
    rewrite HN. exists evs. split; [reflexivity|exact Hev].
  - assert (Hceil : 0 < mb -> total chunks <= mb).
    { intros Hp. apply andb_false_iff in Hc. destruct Hc as [Hc|Hc].
      - apply Z.ltb_ge in Hc. lia.
      - apply Z.ltb_ge in Hc. exact Hc. }
    destruct (NewBufferedReadCloser_fitting mb mm Hmb Hmm Hmm0 chunks Hbound Hceil)
      as (buf & evs & HN & Hinv & _ & _ & _ & _ & Hr & _).
    rewrite HN.
    destruct (Send_after_writes buf _ Hinv) as (b' & HS).
    exists buf, evs, b'. split; [reflexivity|]. split; [exact Hr|exact HS].
Qed.

Lemma requests_over_the_ceiling_get_413_witness :
  exists evs,
    Middleware.ServeHTTP (Middleware.WithRequestBufferMiddleware 2 10) (body_of [hello; world])
    = (Middleware.Responds Middleware.StatusRequestEntityTooLarge
             "Request too large", evs) /\
    removes evs = spills evs.
Proof.
  apply (requests_over_the_ceiling_get_413 2 10 [hello; world]).
  - unfold int64_range. lia.
  - unfold int64_range. lia.
  - lia.
  - vm_compute. reflexivity.
Defined.

(** X13: a body whose read fails.  The body's reads deliver [chunks] and
    then a read returns the bytes [c] together with the error [e]; all
    these bytes pass the ceiling, the threshold is not negative and the
    operating system works.  Then no later read is made, and: if [e] is
    [io.EOF] the next handler gets the buffer, holding the chunks and
    [c]; if [e] is the size error the answer is 413; for any other
    error it is 500 "Internal Server Error".  A temporary file created
    on the way is removed in the last two cases. *)
Theorem body_read_error_is_answered_500 :
  forall (mm mb : Z) (chunks : list (list byte)) (c : list byte) (e : error)
         (rest : list Pull),
    int64_range mb -> int64_range mm -> 0 <= mm ->
    total (chunks ++ [c]) < 2 ^ 63 ->
    (0 < mb -> total (chunks ++ [c]) <= mb) ->
    exists evs,
      match e with
      | EOF =>
          exists buf b',
          Middleware.ServeHTTP (Middleware.WithRequestBufferMiddleware mm mb)
            (body_of chunks
             ++ {| during := os_ok; bytes_read := c; read_err := Some e |}
             :: rest)
          = (Middleware.Next buf, evs) /\
          Send buf = (b', List.concat chunks ++ c, None)
      | _ =>
          Middleware.ServeHTTP (Middleware.WithRequestBufferMiddleware mm mb)
            (body_of chunks
             ++ {| during := os_ok; bytes_read := c; read_err := Some e |}
             :: rest)
          = (match e with
             | ErrMaximumSizeExceeded =>
                 Middleware.Responds Middleware.StatusRequestEntityTooLarge
                   "Request too large"
             | _ =>
                 Middleware.Responds Middleware.StatusInternalServerError
                   "Internal Server Error"
             end, evs) /\
          removes evs = spills evs
      end.
Proof.
  intros mm mb chunks c e rest Hmb Hmm Hmm0 Hbound Hceil.
  destruct (io_Copy_fitting (chunks ++ [c]) [] (NewBufferedWriteCloser mb mm) [] 0
              (WInv_fresh mb mm Hmm0) (config_ok_fresh mb mm Hmb Hmm)
              (spill_nonempty_fresh mb mm))
    as (b1 & w1 & evs & HC & Hinv & _ & _ & _ & _ & Hc1 & Hr1 & Hs1 & _);
    simpl; auto.
  rewrite app_nil_r in HC. simpl in HC, Hinv, Hc1, Hs1.
  rewrite app_nil_r in HC.
  rewrite concat_app in Hinv. simpl in Hinv. rewrite app_nil_r in Hinv.
  rewrite body_of_app, io_Copy_body_app in HC.
  assert (HT : io_Copy
                 (body_of chunks
                  ++ {| during := os_ok; bytes_read := c; read_err := Some e |}
                  :: rest) (NewBufferedWriteCloser mb mm) 0
               = (b1, Copied w1 (if is_EOF (Some e) then None
                                 else Some (FromCall e)), evs)).
  { rewrite io_Copy_body_app.
    destruct (io_Copy (body_of chunks) (NewBufferedWriteCloser mb mm) 0)
      as [[b' [w' [e'|]|]] evs']; try discriminate.
    simpl body_of in HC.
    destruct (io_Copy
                [{| during := os_ok; bytes_read := c; read_err := None |}]
                b' w') as [[b2 r2] ev2] eqn:HL.
    cbn [fst snd] in HC. injection HC as -> -> <-.
    rewrite (io_Copy_last os_ok c e rest b' b1 w' w1 ev2 HL).
    reflexivity. }
  unfold Middleware.ServeHTTP, Middleware.WithRequestBufferMiddleware.
  cbn [Middleware.maxBytes Middleware.maxMemBytes].
  unfold NewBufferedReadCloser. rewrite HT.
  pose proof (Close_effect b1) as (_ & _ & Hcs & Hcr).
  destruct (Close b1) as [[b2 r2] ev2]. simpl in Hcs, Hcr.
  assert (Hev : removes (evs ++ ev2) = spills (evs ++ ev2)).
  { rewrite removes_app, spills_app, Hr1, Hs1, Hcs, Hcr, Hc1.
    destruct (has_disk b1); reflexivity. }
  destruct (Send_after_writes b1 _ Hinv) as (b' & HS).
  destruct e; simpl;
    try (exists (evs ++ ev2); split; [reflexivity|exact Hev]).
  exists evs, b1, b'. split; [reflexivity|exact HS].
Qed.

Lemma body_read_error_is_answered_500_witness :
  exists evs,
    Middleware.ServeHTTP (Middleware.WithRequestBufferMiddleware 2 0)
      (body_of [hello]
       ++ {| during := os_ok; bytes_read := world;
             read_err := Some (ErrOS 104) |} :: body_of [one_byte])
    = (Middleware.Responds Middleware.StatusInternalServerError
         "Internal Server Error", evs) /\
    removes evs = spills evs.
Proof.
  apply (body_read_error_is_answered_500 2 0 [hello] world (ErrOS 104)
           (body_of [one_byte])).
  - unfold int64_range. lia.
  - unfold int64_range. lia.
  - lia.
  - vm_compute. reflexivity.
  - lia.
Defined.

(** X14: no temporary file, no request.  The body's reads deliver
    [chunks], which fit in memory, and then [c], which does not; the
    ceiling lets all of it pass.  If the operating system cannot create
    the temporary file, the middleware answers 500 "Internal Server
    Error" whatever comes after, and no file was created or removed. *)
Theorem temporary_file_failure_is_answered_500 :
  forall (mm mb : Z) (chunks : list (list byte)) (os : OS) (errno : nat)
         (c : list byte) (r : option error) (rest : list Pull),
    int64_range mb -> int64_range mm -> 0 <= mm ->
    total (chunks ++ [c]) < 2 ^ 63 ->
    (0 < mb -> total (chunks ++ [c]) <= mb) ->
    total chunks <= mm < total (chunks ++ [c]) ->
    createTemp_fault os = Some errno ->
    Middleware.ServeHTTP (Middleware.WithRequestBufferMiddleware mm mb)
      (body_of chunks
       ++ {| during := os; bytes_read := c; read_err := r |} :: rest)
    = (Middleware.Responds Middleware.StatusInternalServerError
         "Internal Server Error", []).
Proof.
  intros mm mb chunks os errno c r rest Hmb Hmm Hmm0 Hbound Hceil Hcross Hos.
  rewrite total_app, total_cons, total_nil in *.
  pose proof (total_nonneg chunks) as Hnn.
  destruct (io_Copy_fitting chunks
              ({| during := os; bytes_read := c; read_err := r |} :: rest)
              (NewBufferedWriteCloser mb mm) [] 0
              (WInv_fresh mb mm Hmm0) (config_ok_fresh mb mm Hmb Hmm)
              (spill_nonempty_fresh mb mm))
    as (b' & w' & evs & HC & Hinv & Hcfg & Hne & Hmb' & Hmm' & Hc' & Hr' & Hs' & _);
    simpl; try lia.
  simpl in Hinv, Hmb', Hmm', Hc', Hs'.
  pose proof (WInv_has_disk b' _ Hinv Hne) as Hhd.
  fold (total chunks) in Hhd. rewrite Hmm' in Hhd.
  replace (total chunks <=? mm) with true in Hhd
    by (symmetry; apply Z.leb_le; lia).
  simpl in Hhd. rewrite Hhd in Hs'.
  rewrite (no_events evs Hs' Hr') in HC.
  assert (HW : Write os c b' = (b', Returns 0 (Some (ErrOS errno)), [])).
  { apply (Write_createTemp_fails os errno c b' (List.concat chunks));
      auto.
    - unfold exceeds. apply andb_false_iff. rewrite Hmb'.
      pose proof (inv_data _ _ Hinv) as Hdat.
      pose proof (inv_mem _ _ Hinv) as Hmem.
      pose proof (inv_disk _ _ Hinv) as Hdisk.
      assert (memBytesWritten b' + diskBytesWritten b' = total chunks).
      { unfold total. rewrite <- Hdat, length_app. lia. }
      destruct (Z.ltb_spec 0 mb) as [Hp|]; [right|left; reflexivity].
      apply Z.ltb_ge. specialize (Hceil Hp). lia.
    - rewrite Hmm'. fold (total chunks). lia.
    - fold (total chunks). lia. }
  assert (HT : io_Copy
                 ({| during := os; bytes_read := c; read_err := r |} :: rest)
                 b' w'
               = (b', Copied (wrap64 (w' + 0))
                        (Some (FromCall (ErrOS errno))), [])).
  { cbn [io_Copy during bytes_read read_err].
    replace (0 <? Z.of_nat (List.length c)) with true
      by (symmetry; apply Z.ltb_lt; lia).
    unfold copy_write. rewrite HW.
    replace (Z.of_nat (List.length c) <? 0) with false
      by (symmetry; apply Z.ltb_ge; lia).
    reflexivity. }
  rewrite HT in HC. cbn [fst snd app] in HC.
  unfold Middleware.ServeHTTP, Middleware.WithRequestBufferMiddleware.
  cbn [Middleware.maxBytes Middleware.maxMemBytes].
  unfold NewBufferedReadCloser. rewrite HC.
  unfold Close, discardSpill. rewrite Hc'.
  unfold has_disk in Hhd. destruct (diskBuffer b'); [discriminate|].
  reflexivity.
Qed.

Lemma temporary_file_failure_is_answered_500_witness :
  Middleware.ServeHTTP (Middleware.WithRequestBufferMiddleware 2 0)
    (body_of [one_byte]
     ++ {| during := no_descriptor; bytes_read := hello; read_err := None |}
     :: body_of [world])
  = (Middleware.Responds Middleware.StatusInternalServerError
       "Internal Server Error", []).
Proof.
  apply (temporary_file_failure_is_answered_500 2 0 [one_byte] no_descriptor
           24%nat hello None (body_of [world])).
  - unfold int64_range. lia.
  - unfold int64_range. lia.
  - lia.
  - vm_compute. reflexivity.
  - lia.
  - vm_compute. split; [discriminate|reflexivity].
  - reflexivity.
Defined.

(** ** The split point, exactly *)

Lemma digits2_pos_spec (p : positive) :
  2 ^ (Zpos (digits2_pos p) - 1) <= Zpos p < 2 ^ Zpos (digits2_pos p).
Proof.
  induction p as [q IH|q IH|]; simpl digits2_pos.
  - rewrite Pos2Z.inj_succ.
    replace (Z.succ (Zpos (digits2_pos q)) - 1)
      with (Z.succ (Zpos (digits2_pos q) - 1)) by lia.
    rewrite !Z.pow_succ_r by lia. lia.
  - rewrite Pos2Z.inj_succ.
    replace (Z.succ (Zpos (digits2_pos q)) - 1)
      with (Z.succ (Zpos (digits2_pos q) - 1)) by lia.
    rewrite !Z.pow_succ_r by lia. lia.
  - simpl. lia.
Qed.

Lemma iter_xO_value (p k : positive) :
  Zpos (Pos.iter xO p k) = Zpos p * 2 ^ Zpos k.
Proof.
  induction k as [|k IH] using Pos.peano_ind.
  - simpl. lia.
  - rewrite Pos.iter_succ, Pos2Z.inj_xO, IH, Pos2Z.inj_succ, Z.pow_succ_r
      by lia.
    lia.
Qed.

(** The conversion of a positive integer of fewer than 53 bits: the
    integer shifted to 53 bits, with the exponent that undoes the
    shift. *)
Lemma of_int_pos_exact (p k : positive) :
  Zpos (digits2_pos p) + Zpos k = 53 ->
  F64.of_int (Zpos p) = S754_finite false (Pos.iter xO p k) (- Zpos k).
Proof.
  intros Hd.
  unfold F64.of_int, binary_normalize, binary_round.
  set (d := digits2_pos p) in *.
  assert (Hfexp : fexp F64.prec F64.emax (Zpos d + 0) = Zpos d - 53).
  { unfold fexp, emin, F64.prec, F64.emax. lia. }
  rewrite Hfexp. unfold shl_align.
  destruct (Zpos d - 53 - 0) as [|k'|k'] eqn:Hk; try lia.
  assert (k' = k) by lia. subst k'.
  set (e := Zpos d - 53) in *.
  assert (Hfexp' : fexp F64.prec F64.emax (Zpos (d + k) + e) - e = 0).
  { unfold fexp, emin, F64.prec, F64.emax. lia. }
  unfold binary_round_aux, shr_fexp.
  cbv beta iota delta [Zdigits2 shr_record_of_loc].
  rewrite digits2_pos_iter_xO. fold d. rewrite Hfexp'.
  cbv beta iota delta [shr shr_m loc_of_shr_record round_nearest_even].
  rewrite digits2_pos_iter_xO. fold d. rewrite Hfexp'.
  cbv beta iota.
  destruct (e <=? F64.emax - F64.prec) eqn:Hle.
  - replace e with (- Zpos k) by lia. reflexivity.
  - unfold F64.emax, F64.prec in Hle. lia.
Qed.

(** Comparing a positive [uint32] with a positive number below [2^53]
    that has a 53-bit mantissa is comparing integers. *)
Lemma of_uint32_leb_finite (h : Z) (m : positive) (e : Z) :
  0 < h < 2 ^ 32 ->
  Zpos (digits2_pos m) = 53 -> e <= 0 ->
  F64.leb (F64.of_int h) (S754_finite false m e)
  = (h * 2 ^ (- e) <=? Zpos m).
Proof.
  intros [Hlo Hhi] Hm He. destruct h as [|p|p]; try lia.
  pose proof (digits2_pos_bound p 32 Hhi) as Hd.
  pose proof (digits2_pos_spec p) as Hp.
  pose proof (digits2_pos_spec m) as Hmm. rewrite Hm in Hmm.
  set (d := Zpos (digits2_pos p)) in *.
  assert (Hk : exists k, Zpos k = 53 - d).
  { exists (Z.to_pos (53 - d)). rewrite Z2Pos.id; lia. }
  destruct Hk as (k & Hk).
  rewrite (of_int_pos_exact p k) by (fold d; lia).
  pose proof (iter_xO_value p k) as Hv.
  assert (Hpk : 2 ^ 52 <= Zpos p * 2 ^ Zpos k < 2 ^ 53).
  { replace 52 with ((d - 1) + Zpos k) by lia.
    replace 53 with (d + Zpos k) by lia.
    rewrite !Z.pow_add_r by lia.
    assert (0 < 2 ^ Zpos k) by (apply Z.pow_pos_nonneg; lia).
    nia. }
  unfold F64.leb, SFleb, SFcompare.
  destruct (Z.compare_spec (- Zpos k) e) as [Heq|Hlt|Hgt].
  - subst e. rewrite Z.opp_involutive.
    change (Pos.compare_cont Eq (Pos.iter xO p k) m)
      with (Zpos (Pos.iter xO p k) ?= Zpos m).
    rewrite Hv.
    destruct (Z.compare_spec (Zpos p * 2 ^ Zpos k) (Zpos m)) as [H|H|H];
      symmetry; [apply Z.leb_le|apply Z.leb_le|apply Z.leb_gt]; lia.
  - symmetry. apply Z.leb_le.
    assert (Zpos p * 2 ^ (- e) * 2 <= Zpos p * 2 ^ Zpos k).
    { replace (Zpos k) with (- e + (Zpos k + e - 1) + 1) by lia.
      rewrite !Z.pow_add_r by lia.
      assert (0 < 2 ^ (- e)) by (apply Z.pow_pos_nonneg; lia).
      assert (1 <= 2 ^ (Zpos k + e - 1))
        by (apply (Z.pow_le_mono_r 2 0); lia).
      change (2 ^ 1) with 2. nia. }
    lia.
  - symmetry. apply Z.leb_gt.
    assert (Zpos p * 2 ^ Zpos k * 2 <= Zpos p * 2 ^ (- e)).
    { replace (- e) with (Zpos k + (- e - Zpos k - 1) + 1) by lia.
      rewrite !Z.pow_add_r by lia.
      assert (0 < 2 ^ Zpos k) by (apply Z.pow_pos_nonneg; lia).
      assert (1 <= 2 ^ (- e - Zpos k - 1))
        by (apply (Z.pow_le_mono_r 2 0); lia).
      change (2 ^ 1) with 2. nia. }
    lia.
Qed.

(** Every percentage from 0 to 100 has a split point of that shape
    (by computation of the 101 cases). *)
Lemma split_points_ok (percentage : Z) :
  0 <= percentage <= 100 -> split_point_ok percentage = true.
Proof.
  intros H.
  assert (Hall : forallb split_point_ok (map Z.of_nat (seq 0 101)) = true)
    by (vm_compute; reflexivity).
  rewrite forallb_forall in Hall. apply Hall.
  apply in_map_iff. exists (Z.to_nat percentage).
  split; [lia|]. apply in_seq. lia.
Qed.

(** Between 0 and 100 percent the rounding of the split point never
    shows: an identifier is in the percentage exactly when its hash is
    at most [0xFFFFFFFF * percentage / 100]. *)
Lemma valueInRolloutPercentage_exact (percentage : Z)
      (allowlist : list string) (value : string) :
  0 <= percentage <= 100 ->
  valueInRolloutPercentage (NewRolloutController percentage allowlist) value
  = (100 * hashForValue value <=? 4294967295 * percentage).
Proof.
  intros Hp. pose proof (split_points_ok percentage Hp) as Hok.
  pose proof (hashForValue_range value) as [Hlo Hhi].
  unfold valueInRolloutPercentage, split_point_ok in *.
  change (PercentageSplitPoint (NewRolloutController percentage allowlist))
    with (PercentageSplitPoint (NewRolloutController percentage [])).
  set (h := hashForValue value) in *.
  destruct (PercentageSplitPoint (NewRolloutController percentage []))
    as [[|]|[|]| |[|] m e]; try discriminate.
  - apply Z.eqb_eq in Hok. subst percentage.
    change (S754_zero false) with F64.zero.
    rewrite of_uint32_leb_zero by (split; assumption).
    destruct (Z.eqb_spec h 0) as [->|Hne]; [reflexivity|].
    symmetry. apply Z.leb_gt. lia.
  - apply andb_true_iff in Hok. destruct Hok as [Hok Hq].
    apply andb_true_iff in Hok. destruct Hok as [Hok He].
    apply andb_true_iff in Hok. destruct Hok as [Hpos Hm].
    apply Z.ltb_lt in Hpos. apply Z.eqb_eq in Hm. apply Z.leb_le in He.
    apply Z.eqb_eq in Hq.
    destruct (Z.eq_dec h 0) as [H0|H0].
    + rewrite H0.
      change (F64.leb (F64.of_int 0) (S754_finite false m e)) with true.
      symmetry. apply Z.leb_le. lia.
    + rewrite of_uint32_leb_finite by (auto; lia).
      assert (H2 : 0 < 2 ^ (- e)) by (apply Z.pow_pos_nonneg; lia).
      assert (Hl : (h * 2 ^ (- e) <=? Zpos m) = (h <=? Zpos m / 2 ^ (- e))).
      { destruct (Z.leb_spec h (Zpos m / 2 ^ (- e))) as [Hle|Hgt].
        - apply Z.leb_le.
          pose proof (Z.mul_div_le (Zpos m) (2 ^ (- e)) H2). nia.
        - apply Z.leb_gt.
          assert (Zpos m / 2 ^ (- e) + 1 <= h) by lia.
          pose proof (Z.mul_succ_div_gt (Zpos m) (2 ^ (- e)) H2). nia. }
      rewrite Hl, Hq.
      destruct (Z.leb_spec h (4294967295 * percentage / 100)) as [Hle|Hgt].
      * symmetry. apply Z.leb_le.
        pose proof (Z.mul_div_le (4294967295 * percentage) 100). lia.
      * symmetry. apply Z.leb_gt.
        pose proof (Z.mul_succ_div_gt (4294967295 * percentage) 100). lia.
Qed.

(** X15: the rollout group between 0 and 100 percent.  For a controller
    constructed with a percentage from 0 to 100, a request is in the
    rollout group exactly when its identifier is not empty and either
    is in the allow-list or has an FNV-1a hash [h] with
    [100 * h <= 0xFFFFFFFF * percentage]: the two roundings in the
    computation of the split point never move a hash across it. *)
Theorem rollout_group_is_a_fraction_of_the_hashes :
  forall (percentage : Z) (allowlist : list string) (r : Request),
    0 <= percentage <= 100 ->
    RequestUsesRolloutGroup (NewRolloutController percentage allowlist) r
    = negb (String.eqb (splitValue r) EmptyString)
      && (existsb (String.eqb (splitValue r)) allowlist
          || (100 * hashForValue (splitValue r) <=? 4294967295 * percentage)).
Proof.
  intros percentage allowlist r Hp.
  unfold RequestUsesRolloutGroup.
  destruct (String.eqb (splitValue r) EmptyString); [reflexivity|].
  rewrite (valueInRolloutPercentage_exact percentage allowlist _ Hp).
  unfold valueInAllowlist. simpl Allowlist.
  destruct (existsb (String.eqb (splitValue r)) allowlist); reflexivity.
Qed.

Lemma rollout_group_is_a_fraction_of_the_hashes_witness :
  RequestUsesRolloutGroup (NewRolloutController 50 []) (request_with "a")
  = false.
Proof.
  rewrite (rollout_group_is_a_fraction_of_the_hashes 50 [] (request_with "a")).
  - vm_compute. reflexivity.
  - lia.
Defined.

(** X16: raising the percentage.  Between 0 and 100 percent, a request
    that is in the rollout group stays in it when the percentage is
    raised and entries are added to the allow-list. *)
Theorem raising_the_percentage_keeps_requests_in :
  forall (p q : Z) (allowlist allowlist' : list string) (r : Request),
    0 <= p <= q -> q <= 100 ->
    incl allowlist allowlist' ->
    RequestUsesRolloutGroup (NewRolloutController p allowlist) r = true ->
    RequestUsesRolloutGroup (NewRolloutController q allowlist') r = true.
Proof.
  intros p q al al' r Hp Hq Hincl.
  unfold RequestUsesRolloutGroup.
  destruct (String.eqb (splitValue r) EmptyString); [discriminate|].
  rewrite !valueInRolloutPercentage_exact by lia.
  destruct (valueInAllowlist (NewRolloutController p al) (splitValue r))
    eqn:Hal.
  - intros _. apply valueInAllowlist_In in Hal. simpl in Hal.
    apply Hincl in Hal.
    assert (H : valueInAllowlist (NewRolloutController q al') (splitValue r)
                = true) by (apply valueInAllowlist_In; exact Hal).
    rewrite H. reflexivity.
  - intros H. apply Z.leb_le in H.
    destruct (valueInAllowlist (NewRolloutController q al') (splitValue r));
      [reflexivity|].
    apply Z.leb_le. lia.
Qed.

Lemma raising_the_percentage_keeps_requests_in_witness :
  RequestUsesRolloutGroup (NewRolloutController 75 ["vip-client"%string])
    (request_with "akhnp9x") = true.
Proof.
  apply (raising_the_percentage_keeps_requests_in 50 75 []
           ["vip-client"%string] (request_with "akhnp9x")).
  - lia.
  - lia.
  - intros x [].
  - vm_compute. reflexivity.
Defined.

(** X17: the full rollout.  A controller constructed with
    [percentage = 100] puts every request with a non-empty identifier
    in the rollout group, whatever the allow-list: the split point is
    [0xFFFFFFFF] itself, which no hash exceeds. *)
Theorem full_rollout_admits_every_identifier :
  forall (allowlist : list string) (r : Request),
    RequestUsesRolloutGroup (NewRolloutController 100 allowlist) r
    = negb (String.eqb (splitValue r) EmptyString).
Proof.
  intros allowlist r. unfold RequestUsesRolloutGroup.
  destruct (String.eqb (splitValue r) EmptyString); [reflexivity|].
  rewrite valueInRolloutPercentage_exact by lia.
  pose proof (hashForValue_range (splitValue r)) as [_ Hhi].
  replace (100 * hashForValue (splitValue r) <=? 4294967295 * 100) with true
    by (symmetry; apply Z.leb_le; lia).
  destruct (valueInAllowlist _ _); reflexivity.
Qed.

(** X18: the allow-list is a set.  Two controllers constructed with the
    same percentage and with allow-lists that have the same members
    decide alike on every request: the order of the entries and their
    repetitions do not count. *)
Theorem allowlist_is_read_as_a_set :
  forall (percentage : Z) (allowlist allowlist' : list string) (r : Request),
    (forall x, In x allowlist <-> In x allowlist') ->
    RequestUsesRolloutGroup (NewRolloutController percentage allowlist) r
    = RequestUsesRolloutGroup (NewRolloutController percentage allowlist') r.
Proof.
  intros percentage al al' r Hsame.
  unfold RequestUsesRolloutGroup.
  destruct (String.eqb (splitValue r) EmptyString); [reflexivity|].
  assert (Hal : valueInAllowlist (NewRolloutController percentage al)
                  (splitValue r)
                = valueInAllowlist (NewRolloutController percentage al')
                    (splitValue r)).
  { destruct (valueInAllowlist (NewRolloutController percentage al')
                (splitValue r)) eqn:H'.
    - apply valueInAllowlist_In. apply valueInAllowlist_In in H'.
      simpl in *. apply Hsame. exact H'.
    - destruct (valueInAllowlist (NewRolloutController percentage al)
                  (splitValue r)) eqn:H; [|reflexivity].
      apply valueInAllowlist_In in H. simpl in H. apply Hsame in H.
      assert (H2 : valueInAllowlist (NewRolloutController percentage al')
                     (splitValue r) = true)
        by (apply valueInAllowlist_In; exact H).
      congruence. }
  rewrite Hal. reflexivity.
Qed.

Lemma allowlist_is_read_as_a_set_witness :
  RequestUsesRolloutGroup
    (NewRolloutController 0 ["vip-client"%string; "staff"%string])
    (request_with "staff")
  = RequestUsesRolloutGroup
      (NewRolloutController 0
         ["staff"%string; "vip-client"%string; "staff"%string])
      (request_with "staff").
Proof.
  apply (allowlist_is_read_as_a_set 0 ["vip-client"%string; "staff"%string]
           ["staff"%string; "vip-client"%string; "staff"%string]
           (request_with "staff")).
  intros x. simpl. tauto.
Defined.
